(** * Hawiah core: connection sharing, connect coordination and relation batching

    A shallow embedding of [src/Hawiah.ts] (class [Hawiah]), with the
    validation loop of [Schema] and the [IDriver] contract it runs on, and
    the properties of the coordination layer proved over it.

    - [Js]           JavaScript values and plain objects as the code uses them.
    - [Fingerprint]  [Hawiah.getPoolKey].
    - [Coordinator]  [Hawiah.connect] / [Hawiah.disconnect] under interleaving.
    - [Facade]       the CRUD surface, [loadRelation] and [clearCache]. *)

From Stdlib Require Import ZArith Ascii.
From stdpp Require Import base decidable option list strings pretty gmap fin_maps.

Open Scope Z_scope.
Open Scope list_scope.

(* ===================================================================== *)
(** ** JavaScript values *)
(* ===================================================================== *)

Module Js.

(** The values that configurations, queries and records carry.  Numbers are
    the integral ones; [VError] is an [Error] object (as [DataLoader.loadMany]
    hands back for a key whose load was rejected). *)
#[warnings="-register-all"]
Inductive Value : Type :=
| VUndefined
| VNull
| VBool (b : bool)
| VNum (n : Z)
| VStr (s : string)
| VArr (items : list Value)
| VObj (fields : list (string * Value))
| VError (msg : string).

(** A plain object: its own enumerable properties in enumeration order
    (the order [for (const key in o)] and [Object.keys(o)] visit them). *)
Abbreviation Obj := (list (string * Value)).

(** [o[key]]: [undefined] when the property is absent. *)
Fixpoint get (o : Obj) (key : string) : Value :=
  match o with
  | [] => VUndefined
  | (k, v) :: rest => if String.eqb k key then v else get rest key
  end.

(** [key in o]. *)
Fixpoint has_key (o : Obj) (key : string) : bool :=
  match o with
  | [] => false
  | (k, _) :: rest => if String.eqb k key then true else has_key rest key
  end.

(** [o[key] = v]: an existing property keeps its place, a new one goes last. *)
Fixpoint set (o : Obj) (key : string) (v : Value) : Obj :=
  match o with
  | [] => [(key, v)]
  | (k, w) :: rest =>
      if String.eqb k key then (k, v) :: rest else (k, w) :: set rest key v
  end.

(** [delete o[key]]. *)
Definition del (o : Obj) (key : string) : Obj :=
  filter (λ kv, negb (String.eqb kv.1 key)) o.

(** [{ ...a, ...b }]. *)
Definition spread (a b : Obj) : Obj :=
  fold_left (λ acc kv, set acc kv.1 kv.2) b a.

(** Truthiness, as [if (v)], [v || w] and [v && w] test it. *)
Definition truthy (v : Value) : bool :=
  match v with
  | VUndefined | VNull => false
  | VBool b => b
  | VNum n => negb (n =? 0)
  | VStr s => negb (String.eqb s "")
  | VArr _ | VObj _ | VError _ => true
  end.

(** [v == null] (loose): [null] and [undefined] only. *)
Definition nullish (v : Value) : bool :=
  match v with VUndefined | VNull => true | _ => false end.

(** [v === null]. *)
Definition is_null (v : Value) : bool :=
  match v with VNull => true | _ => false end.

(** [typeof v === 'object'] ([null] included, as in JavaScript). *)
Definition typeof_object (v : Value) : bool :=
  match v with
  | VNull | VArr _ | VObj _ | VError _ => true
  | _ => false
  end.

(** Structural induction that also reaches below arrays and objects. *)
Section ValueInd.
Variable P : Value → Prop.
Hypothesis Hundef : P VUndefined.
Hypothesis Hnull : P VNull.
Hypothesis Hbool : ∀ b, P (VBool b).
Hypothesis Hnum : ∀ n, P (VNum n).
Hypothesis Hstr : ∀ s, P (VStr s).
Hypothesis Harr : ∀ items, Forall P items → P (VArr items).
Hypothesis Hobj : ∀ fields, Forall (λ kv, P kv.2) fields → P (VObj fields).
Hypothesis Herr : ∀ msg, P (VError msg).

Fixpoint Value_deep_ind (v : Value) : P v :=
  match v with
  | VUndefined => Hundef
  | VNull => Hnull
  | VBool b => Hbool b
  | VNum n => Hnum n
  | VStr s => Hstr s
  | VArr items =>
      Harr items
        ((fix go (l : list Value) : Forall P l :=
            match l with
            | [] => Forall_nil_2 P
            | x :: l' => Forall_cons_2 P x l' (Value_deep_ind x) (go l')
            end) items)
  | VObj fields =>
      Hobj fields
        ((fix go (l : list (string * Value)) : Forall (λ kv, P kv.2) l :=
            match l with
            | [] => Forall_nil_2 _
            | (k, x) :: l' =>
                Forall_cons_2 (λ kv, P kv.2) (k, x) l' (Value_deep_ind x) (go l')
            end) fields)
  | VError msg => Herr msg
  end.
End ValueInd.

(** Structural equality test, by recursion below arrays and objects. *)
Fixpoint Value_eqb (a b : Value) : bool :=
  match a, b with
  | VUndefined, VUndefined => true
  | VNull, VNull => true
  | VBool x, VBool y => Bool.eqb x y
  | VNum x, VNum y => x =? y
  | VStr x, VStr y => String.eqb x y
  | VArr xs, VArr ys =>
      (fix go (l1 l2 : list Value) : bool :=
         match l1, l2 with
         | [], [] => true
         | x :: l1', y :: l2' => Value_eqb x y && go l1' l2'
         | _, _ => false
         end) xs ys
  | VObj xs, VObj ys =>
      (fix go (l1 l2 : list (string * Value)) : bool :=
         match l1, l2 with
         | [], [] => true
         | (k1, x) :: l1', (k2, y) :: l2' =>
             String.eqb k1 k2 && Value_eqb x y && go l1' l2'
         | _, _ => false
         end) xs ys
  | VError x, VError y => String.eqb x y
  | _, _ => false
  end.

(** [SameValueZero], the comparison of [Map] keys and [Array.includes].  It
    is exact on primitives; two objects are compared by their contents. *)
Definition sameValueZero (a b : Value) : bool := Value_eqb a b.

(** [xs.includes(v)]. *)
Definition includes (xs : list Value) (v : Value) : bool :=
  existsb (sameValueZero v) xs.

End Js.

(* ===================================================================== *)
(** ** Fingerprint generator: [Hawiah.getPoolKey] *)
(* ===================================================================== *)

Module Fingerprint.
Import Js.

(** What [getPoolKey] inspects of its [driver] argument: a driver class
    ([typeof driver === 'function']) or a driver instance, with the name of
    the class, whether [prototype.table] of the class is a function, and for
    an instance whether [driver.table] is one. *)
Inductive DriverRef : Type :=
| DriverClass (name : string) (protoTable : bool)
| DriverInstance (ctorName : string) (protoTable : bool) (ownTable : bool).

(** [typeof driver === 'function' ? driver.name
      : (driver.constructor?.name || 'UnknownDriver')] *)
Definition driverName (driver : DriverRef) : string :=
  match driver with
  | DriverClass name _ => name
  | DriverInstance ctorName _ _ =>
      if String.eqb ctorName "" then "UnknownDriver" else ctorName
  end.

(** [typeof driverClass.prototype?.table === 'function' ||
     (typeof driver === 'object' && typeof driver.table === 'function')] *)
Definition supportsTable (driver : DriverRef) : bool :=
  match driver with
  | DriverClass _ protoTable => protoTable
  | DriverInstance _ protoTable ownTable => protoTable || ownTable
  end.

Definition IGNORE_KEYS : list string :=
  ["collectionName"; "tableName"; "collection"; "table"; "connectionKey"].

(** The sub-resource naming keys that a driver without [table] keeps. *)
Definition SUBRESOURCE_KEYS : list string :=
  ["collectionName"; "tableName"; "collection"; "table"].

(** [set.has(key)] / [array.includes(key)] on strings. *)
Definition has (keys : list string) (key : string) : bool :=
  existsb (String.eqb key) keys.

(** [supportsTable ? IGNORE_KEYS
      : new Set([...IGNORE_KEYS].filter(k => ![...].includes(k)))] *)
Definition ignoreKeys (supports : bool) : list string :=
  if supports then IGNORE_KEYS
  else filter (λ k, negb (has SUBRESOURCE_KEYS k)) IGNORE_KEYS.

Section GetPoolKey.
(** The two conversions of the host language that the key is built with:
    [Number.prototype.toString] on integral numbers and [JSON.stringify]
    on objects and arrays. *)
Variable Number_toString : Z → string.
Variable JSON_stringify : Value → string.

(** [`${val}`] for a value that is not an object.  The loop never hands
    it an object; those cases repeat the serializer. *)
Definition template (val : Value) : string :=
  match val with
  | VUndefined => "undefined"
  | VNull => "null"
  | VBool true => "true"
  | VBool false => "false"
  | VNum n => Number_toString n
  | VStr s => s
  | VArr _ | VObj _ | VError _ => JSON_stringify val
  end.

(** One turn of [for (const key in config)]. *)
Definition appendKey (ignore : list string) (cKey : string)
    (entry : string * Value) : string :=
  let '(key, val) := entry in
  if negb (has ignore key) then
    if negb (is_null val) && negb (typeof_object val) then
      cKey +:+ "|" +:+ key +:+ ":" +:+ template val
    else if negb (is_null val) then
      cKey +:+ "|" +:+ key +:+ ":" +:+ JSON_stringify val
    else cKey
  else cKey.

Definition getPoolKey (driver : DriverRef) (config : Obj) : Value :=
  let cKey := get config "connectionKey" in
  if truthy cKey then cKey
  else
    VStr (fold_left (appendKey (ignoreKeys (supportsTable driver)))
            config (driverName driver)).

(** The explicit override identity a configuration carries, if any. *)
Definition override (config : Obj) : option Value :=
  let cKey := get config "connectionKey" in
  if truthy cKey then Some cKey else None.

(** The entries left when the keys in [keys] are removed. *)
Definition without (keys : list string) (config : Obj) : Obj :=
  filter (λ kv, negb (has keys kv.1)) config.

End GetPoolKey.

(** Conversions to run [getPoolKey] on configurations that hold no object:
    decimal digits for an integral number, as [Number.prototype.toString]
    gives below 10^21, and a serializer that is never consulted. *)
Definition decimal (n : Z) : string := pretty n.
Definition noObjects (_ : Value) : string := "".

End Fingerprint.

(* ===================================================================== *)
(** ** Connection registry and coordinator: [connect] / [disconnect] *)
(* ===================================================================== *)

Module Coordinator.

(** Keys of [Hawiah.connectionPromises] ([Map<string | IDriver, ...>]): a
    fingerprint, or the identity of a driver handle. *)
Abbreviation PoolKey := (string + nat)%type.

(** The fields of a [Hawiah] instance that [connect] and [disconnect] use.
    [driver] is the identity of the handle the instance holds. *)
Record Instance : Type := mkInstance {
  driver : nat;
  isConnected : bool;
  connectionKey : option string;
}.

(** A backend handle as the coordinator sees it: whether it has the optional
    [isConnected()] method, and what that method answers at present. *)
Record Handle : Type := mkHandle {
  reportsLiveness : bool;
  live : bool;
}.

Inductive Settlement : Type :=
| Pending
| Fulfilled
| Rejected (reason : string).

(** The promise of the [async () => { await this.driver.connect(); }] call:
    its state and the handle whose [connect] it waits for. *)
Record ConnectPromise : Type := mkPromise {
  state : Settlement;
  backing : nat;
}.

Inductive DriverOp : Type := OpConnect | OpDisconnect.

#[global] Instance DriverOp_eq_dec : EqDecision DriverOp.
Proof. solve_decision. Defined.

(** One invocation of a handle's method: the calling instance, the handle
    and the method. *)
Record DriverCall : Type := mkCall {
  caller : nat;
  target : nat;
  op : DriverOp;
}.

(** How a [connect()] call ended. *)
Inductive Completion : Type :=
| Resolved
| Failed (reason : string).

(** The process: the instances, the handles, the two static maps of the
    class, the promises created so far, every driver method invoked so far
    (latest first), the [connect()] calls suspended at
    [await connectionPromise] as (instance, promise), and the [connect()]
    calls that have ended (latest first). *)
Record World : Type := mkWorld {
  instances : list Instance;
  handles : list Handle;
  driversPool : gmap string nat;
  connectionPromises : gmap PoolKey nat;
  promises : list ConnectPromise;
  driverCalls : list DriverCall;
  awaiting : list (nat * nat);
  finished : list (nat * Completion);
}.

(** [this.connectionKey || this.driver] *)
Definition poolKey (h : Instance) : PoolKey :=
  match connectionKey h with
  | Some key => if String.eqb key "" then inr (driver h) else inl key
  | None => inr (driver h)
  end.

(** [this.driver.isConnected && this.driver.isConnected()] *)
Definition driverIsConnected (d : Handle) : bool :=
  reportsLiveness d && live d.

(** [this.isConnected = b] on instance [i]. *)
Definition setIsConnected (i : nat) (b : bool) (w : World) : World :=
  mkWorld
    (alter (λ h, mkInstance (driver h) b (connectionKey h)) i (instances w))
    (handles w) (driversPool w) (connectionPromises w) (promises w)
    (driverCalls w) (awaiting w) (finished w).

Definition setLive (d : nat) (b : bool) (w : World) : World :=
  mkWorld (instances w)
    (alter (λ h, mkHandle (reportsLiveness h) b) d (handles w))
    (driversPool w) (connectionPromises w) (promises w)
    (driverCalls w) (awaiting w) (finished w).

(** A method of handle [d] is invoked on behalf of instance [i]. *)
Definition invoke (i d : nat) (o : DriverOp) (w : World) : World :=
  mkWorld (instances w) (handles w) (driversPool w) (connectionPromises w)
    (promises w) (mkCall i d o :: driverCalls w) (awaiting w) (finished w).

(** A new pending promise backed by handle [d]; its index is the former
    length of [promises]. *)
Definition newPromise (d : nat) (w : World) : World :=
  mkWorld (instances w) (handles w) (driversPool w) (connectionPromises w)
    (promises w ++ [mkPromise Pending d])
    (driverCalls w) (awaiting w) (finished w).

(** [Hawiah.connectionPromises.set(key, p)] *)
Definition setConnectionPromise (key : PoolKey) (p : nat) (w : World) : World :=
  mkWorld (instances w) (handles w) (driversPool w)
    (<[key := p]> (connectionPromises w)) (promises w)
    (driverCalls w) (awaiting w) (finished w).

Definition setPromiseState (p : nat) (s : Settlement) (w : World) : World :=
  mkWorld (instances w) (handles w) (driversPool w) (connectionPromises w)
    (alter (λ q, mkPromise s (backing q)) p (promises w))
    (driverCalls w) (awaiting w) (finished w).

(** The call of instance [i] suspends at [await connectionPromise]. *)
Definition suspend (i p : nat) (w : World) : World :=
  mkWorld (instances w) (handles w) (driversPool w) (connectionPromises w)
    (promises w) (driverCalls w) (awaiting w ++ [(i, p)]) (finished w).

Definition unsuspend (n : nat) (w : World) : World :=
  mkWorld (instances w) (handles w) (driversPool w) (connectionPromises w)
    (promises w) (driverCalls w) (delete n (awaiting w)) (finished w).

(** The [connect()] call of instance [i] ends. *)
Definition finish (i : nat) (c : Completion) (w : World) : World :=
  mkWorld (instances w) (handles w) (driversPool w) (connectionPromises w)
    (promises w) (driverCalls w) (awaiting w) ((i, c) :: finished w).

(** [connect()] of instance [i], from its entry to its first [await] or its
    [return].  The [async] function it builds calls [this.driver.connect()]
    at once, so the invocation is part of this step. *)
Definition connect_enter (i : nat) (w : World) : option World :=
  h ← instances w !! i;
  if isConnected h then Some (finish i Resolved w)
  else
    let key := poolKey h in
    match connectionPromises w !! key with
    | Some p => Some (suspend i p w)
    | None =>
        d ← handles w !! driver h;
        if driverIsConnected d then
          Some (finish i Resolved (setIsConnected i true w))
        else
          let p := length (promises w) in
          Some (suspend i p
                  (setConnectionPromise key p
                     (newPromise (driver h)
                        (invoke i (driver h) OpConnect w))))
    end.

(** The backend ends the [connect] behind promise [p]: [None] for success,
    [Some reason] for a failure.  Only a pending promise settles. *)
Definition settle (p : nat) (outcome : option string) (w : World)
    : option World :=
  q ← promises w !! p;
  match state q with
  | Pending =>
      match outcome with
      | None => Some (setLive (backing q) true (setPromiseState p Fulfilled w))
      | Some reason => Some (setPromiseState p (Rejected reason) w)
      end
  | _ => None
  end.

(** The [n]-th suspended [connect()] call continues after
    [await connectionPromise]: [this.isConnected = true] when the promise
    was fulfilled, the rejection is thrown otherwise. *)
Definition connect_resume (n : nat) (w : World) : option World :=
  '(i, p) ← awaiting w !! n;
  q ← promises w !! p;
  match state q with
  | Pending => None
  | Fulfilled => Some (finish i Resolved (setIsConnected i true (unsuspend n w)))
  | Rejected reason => Some (finish i (Failed reason) (unsuspend n w))
  end.

(** [disconnect()] of instance [i]; [outcome] is how the handle's own
    [disconnect] ends. *)
Definition disconnect (i : nat) (outcome : option string) (w : World)
    : option World :=
  h ← instances w !! i;
  if negb (isConnected h) then Some w
  else
    let w1 := invoke i (driver h) OpDisconnect w in
    match outcome with
    | None => Some (setIsConnected i false (setLive (driver h) false w1))
    | Some _ => Some w1
    end.

(** What can happen next in the process. *)
Inductive Event : Type :=
| Connect (i : nat)
| DriverConnected (p : nat)
| DriverConnectFailed (p : nat) (reason : string)
| Resume (n : nat)
| Disconnect (i : nat) (outcome : option string).

Definition step (e : Event) (w : World) : option World :=
  match e with
  | Connect i => connect_enter i w
  | DriverConnected p => settle p None w
  | DriverConnectFailed p reason => settle p (Some reason) w
  | Resume n => connect_resume n w
  | Disconnect i outcome => disconnect i outcome w
  end.

(** A schedule: [None] when one of its events cannot happen. *)
Fixpoint run (es : list Event) (w : World) : option World :=
  match es with
  | [] => Some w
  | e :: es' => w' ← step e w; run es' w'
  end.

(** The instances whose [connect()] is called by a schedule, in order. *)
Definition callers (es : list Event) : list nat :=
  omap (λ e, match e with Connect i => Some i | _ => None end) es.

Definition is_failure (e : Event) : bool :=
  match e with DriverConnectFailed _ _ => true | _ => false end.

(** How many times a handle's [connect] has been invoked. *)
Definition connectInvocations (w : World) : nat :=
  length (filter (λ c, op c = OpConnect) (driverCalls w)).

(** A process in which nothing has happened yet: every instance has [key]
    as its coordination key and is not marked connected, no handle reports
    itself connected, no marker is installed and nothing is in flight. *)
Definition Fresh (key : PoolKey) (w : World) : Prop :=
  Forall (λ h, poolKey h = key ∧ isConnected h = false) (instances w)
  ∧ Forall (λ d, driverIsConnected d = false) (handles w)
  ∧ connectionPromises w !! key = None
  ∧ promises w = []
  ∧ driverCalls w = []
  ∧ awaiting w = []
  ∧ finished w = [].

(** An ended [connect()] call agrees with the state of the promise it
    awaited. *)
Definition agrees (s : Settlement) (c : Completion) : Prop :=
  match c with
  | Resolved => s = Fulfilled
  | Failed reason => s = Rejected reason
  end.

(** No marker yet: nothing has been invoked, suspended or ended. *)
Definition Idle (key : PoolKey) (w : World) : Prop :=
  connectionPromises w !! key = None
  ∧ promises w = []
  ∧ connectInvocations w = 0%nat
  ∧ awaiting w = []
  ∧ finished w = []
  ∧ Forall (λ h, isConnected h = false) (instances w)
  ∧ Forall (λ d, driverIsConnected d = false) (handles w).

(** The marker is installed: it is the one promise that exists, in state
    [s]; one [connect] has been invoked; every suspended call waits on it;
    every ended call, and every connected flag, agrees with [s]. *)
Definition Marked (key : PoolKey) (s : Settlement) (w : World) : Prop :=
  connectionPromises w !! key = Some 0%nat
  ∧ (∃ d, promises w = [mkPromise s d])
  ∧ connectInvocations w = 1%nat
  ∧ Forall (λ a, a.2 = 0%nat) (awaiting w)
  ∧ Forall (λ f, agrees s f.2) (finished w)
  ∧ Forall (λ h, isConnected h = true → s = Fulfilled) (instances w).

(** What holds of every process reached from a fresh one. *)
Definition Coherent (key : PoolKey) (w : World) : Prop :=
  Forall (λ h, poolKey h = key) (instances w)
  ∧ (Idle key w ∨ ∃ s, Marked key s w).

(** No promise has been rejected. *)
Definition Healthy (w : World) : Prop :=
  Forall (λ q, ∀ reason, state q ≠ Rejected reason) (promises w).

(** The instances whose [connect()] call has ended or is suspended. *)
Definition participants (w : World) : list nat :=
  (finished w).*1 ++ (awaiting w).*1.

(** Resuming every suspended call, the oldest first. *)
Definition drain (w : World) : list Event :=
  replicate (length (awaiting w)) (Resume 0).

(** A process of [handles] and of instances that all carry the fingerprint
    [fingerprint], instance [i] holding handle [drivers !! i]. *)
Definition pooled (fingerprint : string) (drivers : list nat)
    (handles : list Handle) : World :=
  mkWorld ((λ d, mkInstance d false (Some fingerprint)) <$> drivers)
    handles ∅ ∅ [] [] [] [].

(** Three instances built from one MongoDB configuration: the first holds
    the root handle, the others handles scoped to their collections. *)
Definition mongoKey : string := "MongoDriver|uri:mongodb://localhost".
Definition threeInstances : World :=
  pooled mongoKey [0; 1; 2]%nat
    [mkHandle true false; mkHandle true false; mkHandle true false].

(** One instance that has connected through the registry. *)
Definition connectedInstance : World :=
  mkWorld [mkInstance 0 true (Some mongoKey)] [mkHandle true true]
    {[ mongoKey := 0%nat ]} {[ inl mongoKey := 0%nat ]}
    [mkPromise Fulfilled 0] [mkCall 0 0 OpConnect] [] [(0%nat, Resolved)].

(** All three call [connect()] before the backend answers; it answers;
    one caller has been resumed so far. *)
Definition threeConnects : list Event :=
  [Connect 1; Connect 0; Connect 2; DriverConnected 0; Resume 1]%nat.

(** Two call [connect()], the backend refuses, both are resumed, and the
    first instance calls [connect()] again. *)
Definition refusedThenRetried : list Event :=
  [Connect 0; Connect 1; DriverConnectFailed 0 "ECONNREFUSED";
   Resume 0; Resume 0; Connect 0]%nat.

End Coordinator.

(* ===================================================================== *)
(** ** The facade: CRUD surface, relations and their batch loaders *)
(* ===================================================================== *)

Module Facade.
Import Js.

Abbreviation Data := Obj.
Abbreviation Query := Obj.

(** The result of running code that may [throw]; the payload of [Throw] is
    the message of the [Error]. *)
Inductive Outcome (A : Type) : Type :=
| Ok (a : A)
| Throw (message : string).
Arguments Ok {A} a.
Arguments Throw {A} message.

Definition dquote : string := String "034"%char EmptyString.

Definition NOT_CONNECTED : string :=
  "Database not connected. Call connect() first.".
Definition RECORD_NOT_FOUND : string := "Record not found".
Definition relationNotDefined (relationName : string) : string :=
  "Relation " +:+ dquote +:+ relationName +:+ dquote +:+ " not defined".

(** *** [Schema] *)

(** A normalized entry of a [SchemaDefinition]: a bare type [t] stands for
    [{ type: t }]; [default] is [undefined] when none is given. *)
Record SchemaField : Type := mkSchemaField {
  rule_type : string;
  rule_required : bool;
  rule_default : Value;
}.

Abbreviation SchemaDefinition := (list (string * SchemaField)).

(** *** [IDriver] *)

(** The methods of a backend over its state [DS].  Each may throw. *)
Record IDriver (DS : Type) : Type := mkDriver {
  drv_set : Data → DS → Outcome Data * DS;
  drv_get : Query → DS → Outcome (list Data) * DS;
  drv_getOne : Query → DS → Outcome (option Data) * DS;
  drv_update : Query → Data → DS → Outcome Z * DS;
  drv_delete : Query → DS → Outcome Z * DS;
  drv_exists : Query → DS → Outcome bool * DS;
  drv_count : Query → DS → Outcome Z * DS;
  (** [driver.dbType === 'sql'] *)
  drv_isSql : bool;
}.
Arguments drv_set {DS}. Arguments drv_get {DS}. Arguments drv_getOne {DS}.
Arguments drv_update {DS}. Arguments drv_delete {DS}.
Arguments drv_exists {DS}. Arguments drv_count {DS}. Arguments drv_isSql {DS}.

(** A driver method as it is invoked, with its arguments. *)
Inductive DriverCall : Type :=
| CallSet (data : Data)
| CallGet (query : Query)
| CallGetOne (query : Query)
| CallUpdate (query : Query) (data : Data)
| CallDelete (query : Query)
| CallExists (query : Query)
| CallCount (query : Query).

(** Parts of the host language that the facade calls and that are taken as
    given: the date, UUID, e-mail and URL tests of [Schema.checkType],
    [Number(v) || 0], [String(v)], [JSON.stringify(v)], [a < b],
    [Array.prototype.sort] with a comparator, and the permutation
    [sort(() => 0.5 - Math.random())] produces. *)
Record Host : Type := mkHost {
  (** [value instanceof Date ||
       (!isNaN(Date.parse(value)) && typeof value !== 'number')] *)
  isDate : Value → bool;
  uuid_test : string → bool;
  email_test : string → bool;
  (** whether [new URL(value)] returns *)
  URL_parses : string → bool;
  Number_or_0 : Value → Z;
  String_of : Value → string;
  JSON_stringify : Value → string;
  lessThan : Value → Value → bool;
  Array_sort : (Data → Data → Z) → list Data → list Data;
  shuffle : list Data → list Data;
}.

(** *** Relations and loaders *)

Inductive RelationType : Type := one | many.

(** [RelationConfig]; [target] is the index of the target instance. *)
Record RelationConfig : Type := mkRelation {
  target : nat;
  localKey : string;
  foreignKey : string;
  relType : RelationType;
}.

(** Modelled from the spec: the [DataLoader] class of the [dataloader]
    package, which [Hawiah.ts] imports and which is not among the sources.
    A loader holds the batch function it was built with, here the three
    variables of [loadRelation] that the function closes over, and with
    [{ cache: true }] the mapping from each key resolved so far to its
    result; keys not yet resolved are merged into one call of the batch
    function. *)
Record DataLoader : Type := mkLoader {
  batchTarget : nat;
  batchForeignKey : string;
  batchType : RelationType;
  cacheMap : list (Value * Value);
}.

(** *** Instances and the process *)

Record Hawiah : Type := mkHawiah {
  driver : nat;
  isConnected : bool;
  relations : gmap string RelationConfig;
  loaders : gmap string DataLoader;
  schema : option SchemaDefinition;
}.

(** The instances, the state of each backend handle, every driver method
    invoked so far as (handle, call), latest first, and every call of a
    loader's batch function so far as (relation name, keys), latest first. *)
Record World (DS : Type) : Type := mkWorld {
  instances : list Hawiah;
  backends : list DS;
  driverCalls : list (nat * DriverCall);
  batchCalls : list (string * list Value);
}.
Arguments mkWorld {DS}.
Arguments instances {DS}. Arguments backends {DS}.
Arguments driverCalls {DS}. Arguments batchCalls {DS}.

(** Two processes that differ at most in the loaders of their instances. *)
Definition sameButLoaders {DS} (w w' : World DS) : Prop :=
  ∀ j, option_Forall2
         (λ a b, driver a = driver b ∧ isConnected a = isConnected b
                 ∧ relations a = relations b ∧ schema a = schema b)
         (instances w !! j) (instances w' !! j).

(** Code that reads and updates the process and may throw. *)
Definition M (DS A : Type) : Type := World DS → Outcome A * World DS.

Definition ret {DS A} (a : A) : M DS A := λ w, (Ok a, w).
Definition throw {DS A} (message : string) : M DS A := λ w, (Throw message, w).
Definition bind {DS A B} (m : M DS A) (k : A → M DS B) : M DS B :=
  λ w, match m w with
       | (Ok a, w') => k a w'
       | (Throw e, w') => (Throw e, w')
       end.

(** [try { m } catch (e) { ... }]: the outcome of [m] as a value. *)
Definition attempt {DS A} (m : M DS A) : M DS (Outcome A) :=
  λ w, let '(r, w') := m w in (Ok r, w').

Declare Scope hawiah_scope.
Delimit Scope hawiah_scope with hawiah.
Notation "'let*' x ':=' m 'in' k" := (bind m (λ x, k))
  (at level 10, x pattern, m at level 100, k at level 200) : hawiah_scope.
Notation "m ';;' k" := (bind m (λ _, k))
  (at level 100, k at level 200, right associativity) : hawiah_scope.
Open Scope hawiah_scope.

(** [for (const x of xs) { acc = await body(acc, x) }] *)
Fixpoint forEach {DS A B} (xs : list A) (acc : B) (body : B → A → M DS B)
    : M DS B :=
  match xs with
  | [] => ret acc
  | x :: xs' => let* acc' := body acc x in forEach xs' acc' body
  end.

(** *** [Schema.validate] *)

Definition is_undefined (v : Value) : bool :=
  match v with VUndefined => true | _ => false end.

Definition requiredMessage (key : string) : string :=
  "Validation Error: Field " +:+ dquote +:+ key +:+ dquote +:+ " is required.".
Definition typeMessage (key type : string) : string :=
  "Validation Error: Field " +:+ dquote +:+ key +:+ dquote
    +:+ " expected type " +:+ type +:+ ".".

(** [private checkType(value, type)].  The values of the model hold no
    [bigint], [Buffer] or [Uint8Array], and no [NaN]. *)
Definition checkType (host : Host) (value : Value) (type : string) : bool :=
  if String.eqb type "string" || String.eqb type "text"
     || String.eqb type "char" then
    match value with VStr _ => true | _ => false end
  else if String.eqb type "number" || String.eqb type "float" then
    match value with VNum _ => true | _ => false end
  else if String.eqb type "integer" then
    match value with VNum _ => true | _ => false end
  else if String.eqb type "bigint" then false
  else if String.eqb type "boolean" then
    match value with VBool _ => true | _ => false end
  else if String.eqb type "array" then
    match value with VArr _ => true | _ => false end
  else if String.eqb type "object" || String.eqb type "json" then
    match value with VObj _ | VError _ => true | _ => false end
  else if String.eqb type "date" then isDate host value
  else if String.eqb type "blob" then false
  else if String.eqb type "uuid" then
    match value with VStr s => uuid_test host s | _ => false end
  else if String.eqb type "email" then
    match value with VStr s => email_test host s | _ => false end
  else if String.eqb type "url" then
    match value with VStr s => URL_parses host s | _ => false end
  else true.

(** The body of [for (const key in this.definition)], from the entries
    still to visit and [validatedData] so far. *)
Fixpoint validateFrom (host : Host) (definition : SchemaDefinition)
    (isPartial : bool) (validatedData : Data) : Outcome Data :=
  match definition with
  | [] => Ok validatedData
  | (key, rule) :: rest =>
      let value := get validatedData key in
      let applyDefault :=
        negb isPartial && is_undefined value
          && negb (is_undefined (rule_default rule)) in
      let value' := if applyDefault then rule_default rule else value in
      let validatedData' :=
        if applyDefault then set validatedData key (rule_default rule)
        else validatedData in
      if negb isPartial && rule_required rule
           && (is_undefined value' || is_null value')
      then Throw (requiredMessage key)
      else if negb (is_undefined value') && negb (is_null value')
                && negb (String.eqb (rule_type rule) "any")
                && negb (checkType host value' (rule_type rule))
      then Throw (typeMessage key (rule_type rule))
      else validateFrom host rest isPartial validatedData'
  end.

Definition validate (host : Host) (definition : SchemaDefinition)
    (data : Data) (isPartial : bool) : Outcome Data :=
  validateFrom host definition isPartial data.

(** *** Array helpers of the host language *)

(** [xs.slice(start, end)] *)
Definition slice {A} (start stop : Z) (xs : list A) : list A :=
  let len := Z.of_nat (length xs) in
  let clamp i := if i <? 0 then Z.max (len + i) 0 else Z.min i len in
  let k := clamp start in
  let final := clamp stop in
  take (Z.to_nat (final - k)) (drop (Z.to_nat k) xs).

(** [[...new Set(values)]] *)
Fixpoint distinct (values : list Value) : list Value :=
  match values with
  | [] => []
  | v :: rest => v :: filter (λ x, negb (sameValueZero v x)) (distinct rest)
  end.

(** A [Map] with [SameValueZero] keys, in insertion order. *)
Fixpoint map_get {V} (m : list (Value * V)) (key : Value) : option V :=
  match m with
  | [] => None
  | (k, v) :: rest => if sameValueZero k key then Some v else map_get rest key
  end.

Fixpoint map_set {V} (m : list (Value * V)) (key : Value) (v : V)
    : list (Value * V) :=
  match m with
  | [] => [(key, v)]
  | (k, w) :: rest =>
      if sameValueZero k key then (k, v) :: rest
      else (k, w) :: map_set rest key v
  end.

Inductive Direction : Type := asc | desc.

Record Page : Type := mkPage {
  page_data : list Data;
  page_page : Z;
  page_pageSize : Z;
  page_total : Z;
  (** [Math.ceil(total / pageSize)]; [None] when it is not finite. *)
  page_totalPages : option Z;
}.

Section Methods.
Context {DS : Type}.
Variable drv : IDriver DS.
Variable host : Host.

Local Abbreviation M := (M DS).

(** *** Access to [this] and to its driver *)

(** Reading a field of an instance or calling a method of a handle that
    does not exist is a [TypeError]. *)
Definition TYPE_ERROR : string := "TypeError".

Definition this (self : nat) : M Hawiah :=
  λ w, match instances w !! self with
       | Some h => (Ok h, w)
       | None => (Throw TYPE_ERROR, w)
       end.

Definition update_this (self : nat) (f : Hawiah → Hawiah) : M unit :=
  λ w, (Ok (), mkWorld (alter f self (instances w)) (backends w)
                 (driverCalls w) (batchCalls w)).

(** [await this.driver.method(args)]: the call is recorded, then the
    method runs on the state of the handle. *)
Definition onDriver {A} (self : nat) (c : DriverCall)
    (method : DS → Outcome A * DS) : M A :=
  λ w, match instances w !! self with
       | None => (Throw TYPE_ERROR, w)
       | Some h =>
           match backends w !! driver h with
           | None => (Throw TYPE_ERROR, w)
           | Some ds =>
               let '(r, ds') := method ds in
               (r, mkWorld (instances w) (<[driver h := ds']> (backends w))
                     ((driver h, c) :: driverCalls w) (batchCalls w))
           end
       end.

Definition driver_set self data := onDriver self (CallSet data) (drv_set drv data).
Definition driver_get self query := onDriver self (CallGet query) (drv_get drv query).
Definition driver_getOne self query :=
  onDriver self (CallGetOne query) (drv_getOne drv query).
Definition driver_update self query data :=
  onDriver self (CallUpdate query data) (drv_update drv query data).
Definition driver_delete self query :=
  onDriver self (CallDelete query) (drv_delete drv query).
Definition driver_exists self query :=
  onDriver self (CallExists query) (drv_exists drv query).
Definition driver_count self query :=
  onDriver self (CallCount query) (drv_count drv query).

(** [private ensureConnected(): void] *)
Definition ensureConnected (self : nat) : M unit :=
  let* h := this self in
  if negb (isConnected h) then throw NOT_CONNECTED else ret ().

(** [private validateData(data, isPartial = false)] *)
Definition validateData (self : nat) (data : Data) (isPartial : bool)
    : M Data :=
  let* h := this self in
  match schema h with
  | Some definition =>
      if negb (drv_isSql drv) then
        match validate host definition data isPartial with
        | Ok validated => ret validated
        | Throw e => throw e
        end
      else ret data
  | None => ret data
  end.

(** *** Basic operations *)

Definition insert (self : nat) (data : Data) : M Data :=
  ensureConnected self ;;
  let* validated := validateData self data false in
  driver_set self validated.

Definition insertMany (self : nat) (dataArray : list Data) : M (list Data) :=
  ensureConnected self ;;
  forEach dataArray [] (λ results data,
    let* validated := validateData self data false in
    let* result := driver_set self validated in
    ret (results ++ [result])).

(** [get(query = {}, limit?)] *)
Definition get_ (self : nat) (query : Query) (limit : option Z)
    : M (list Data) :=
  ensureConnected self ;;
  let* results := driver_get self query in
  match limit with
  | Some n => if negb (n =? 0) && (0 <? n) then ret (slice 0 n results)
              else ret results
  | None => ret results
  end.

Definition getOne (self : nat) (query : Query) : M (option Data) :=
  ensureConnected self ;; driver_getOne self query.

Definition getAll (self : nat) : M (list Data) :=
  ensureConnected self ;; driver_get self [].

Definition getMany (self : nat) (queries : list Query) : M (list Data) :=
  ensureConnected self ;;
  forEach queries [] (λ results query,
    let* data := driver_get self query in
    ret (results ++ data)).

Definition update (self : nat) (query : Query) (data : Data) : M Z :=
  ensureConnected self ;;
  let* validated := validateData self data true in
  driver_update self query validated.

Definition updateOne (self : nat) (query : Query) (data : Data) : M bool :=
  ensureConnected self ;;
  let* validated := validateData self data true in
  let* count := driver_update self query validated in
  ret (0 <? count).

Definition save (self : nat) (query : Query) (data : Data) : M Data :=
  ensureConnected self ;;
  let* existing := driver_getOne self query in
  match existing with
  | Some existing =>
      let* validated := validateData self data true in
      driver_update self query validated ;;
      ret (spread existing validated)
  | None =>
      let fullData := spread query data in
      let* validated := validateData self fullData false in
      driver_set self validated
  end.

Definition remove (self : nat) (query : Query) : M Z :=
  ensureConnected self ;; driver_delete self query.

Definition removeOne (self : nat) (query : Query) : M bool :=
  ensureConnected self ;;
  let* count := driver_delete self query in
  ret (0 <? count).

Definition clear (self : nat) : M Z :=
  ensureConnected self ;; driver_delete self [].

Definition has (self : nat) (query : Query) : M bool :=
  ensureConnected self ;; driver_exists self query.

Definition count (self : nat) (query : Query) : M Z :=
  ensureConnected self ;; driver_count self query.

Definition countBy (self : nat) (field : string) (value : Value) : M Z :=
  ensureConnected self ;; driver_count self [(field, value)].

Definition getById (self : nat) (id : Value) : M (option Data) :=
  ensureConnected self ;; driver_getOne self [("_id", id)].

Definition updateById (self : nat) (id : Value) (data : Data) : M bool :=
  ensureConnected self ;;
  let* count := driver_update self [("_id", id)] data in
  ret (0 <? count).

Definition removeById (self : nat) (id : Value) : M bool :=
  ensureConnected self ;;
  let* count := driver_delete self [("_id", id)] in
  ret (0 <? count).

Definition hasId (self : nat) (id : Value) : M bool :=
  ensureConnected self ;; driver_exists self [("_id", id)].

Definition getBy (self : nat) (field : string) (value : Value)
    : M (list Data) :=
  ensureConnected self ;; driver_get self [(field, value)].

Definition hasBy (self : nat) (field : string) (value : Value) : M bool :=
  ensureConnected self ;; driver_exists self [(field, value)].

(** *** Query helpers *)

(** The comparator of [sort]. *)
Definition compareBy (field : string) (direction : Direction) (a b : Data)
    : Z :=
  if lessThan host (get a field) (get b field) then
    match direction with asc => -1 | desc => 1 end
  else if lessThan host (get b field) (get a field) then
    match direction with asc => 1 | desc => -1 end
  else 0.

Definition sort (self : nat) (query : Query) (field : string)
    (direction : Direction) : M (list Data) :=
  ensureConnected self ;;
  let* results := driver_get self query in
  ret (Array_sort host (compareBy field direction) results).

Definition selectFields (fields : list string) (record : Data) : Data :=
  fold_left (λ selected field,
               if has_key record field
               then set selected field (get record field)
               else selected)
    fields [].

Definition select (self : nat) (query : Query) (fields : list string)
    : M (list Data) :=
  ensureConnected self ;;
  let* results := driver_get self query in
  ret (map (selectFields fields) results).

Definition unique (self : nat) (field : string) (query : Query)
    : M (list Value) :=
  ensureConnected self ;;
  let* results := driver_get self query in
  ret (distinct (map (λ record, get record field) results)).

Definition group (self : nat) (field : string) (query : Query)
    : M (gmap string (list Data)) :=
  ensureConnected self ;;
  let* results := driver_get self query in
  ret (fold_left (λ (groups : gmap string (list Data)) record,
                    let key := String_of host (get record field) in
                    <[key := default [] (groups !! key) ++ [record]]> groups)
         results ∅).

Definition paginate (self : nat) (query : Query) (page pageSize : Z)
    : M Page :=
  ensureConnected self ;;
  let* allResults := driver_get self query in
  let total := Z.of_nat (length allResults) in
  let totalPages :=
    if pageSize =? 0 then None else Some (- ((- total) `div` pageSize)) in
  let startIndex := (page - 1) * pageSize in
  let endIndex := startIndex + pageSize in
  ret (mkPage (slice startIndex endIndex allResults)
         page pageSize total totalPages).

Definition sum (self : nat) (field : string) (query : Query) : M Z :=
  ensureConnected self ;;
  let* results := driver_get self query in
  ret (fold_left (λ acc record, acc + Number_or_0 host (get record field))
         results 0).

Definition increment (self : nat) (query : Query) (field : string)
    (amount : Z) : M Z :=
  ensureConnected self ;;
  let* record := driver_getOne self query in
  match record with
  | None => throw RECORD_NOT_FOUND
  | Some record =>
      let currentValue := Number_or_0 host (get record field) in
      let newValue := currentValue + amount in
      update self query [(field, VNum newValue)] ;;
      ret newValue
  end.

Definition decrement (self : nat) (query : Query) (field : string)
    (amount : Z) : M Z :=
  increment self query field (- amount).

(** *** Array fields *)

(** The loop shared by [push], [pull], [shift], [unshift], [pop], [unset]
    and [rename]: [edit] is what the body does to a record, [None] when
    it leaves the record alone and does not count it. *)
Definition rewriteEach (self : nat) (query : Query)
    (edit : Data → option Data) : M Z :=
  ensureConnected self ;;
  let* records := driver_get self query in
  forEach records 0 (λ count record,
    match edit record with
    | Some record' =>
        let* validated := validateData self record' false in
        driver_update self query validated ;;
        ret (count + 1)
    | None => ret count
    end).

(** [record[field]] when [Array.isArray] holds of it. *)
Definition arrayField (record : Data) (field : string)
    : option (list Value) :=
  match get record field with VArr items => Some items | _ => None end.

Definition push (self : nat) (query : Query) (field : string)
    (value : Value) : M Z :=
  rewriteEach self query (λ record,
    let items := default [] (arrayField record field) in
    Some (set record field (VArr (items ++ [value])))).

Definition pull (self : nat) (query : Query) (field : string)
    (value : Value) : M Z :=
  rewriteEach self query (λ record,
    match arrayField record field with
    | Some items =>
        let keep (item : Value) :=
          negb (String.eqb (JSON_stringify host item)
                  (JSON_stringify host value)) in
        let items' := filter keep (filter keep items) in
        if negb (length items' =? length items)%nat
        then Some (set record field (VArr items'))
        else None
    | None => None
    end).

Definition shift (self : nat) (query : Query) (field : string) : M Z :=
  rewriteEach self query (λ record,
    match arrayField record field with
    | Some (_ :: items) => Some (set record field (VArr items))
    | _ => None
    end).

Definition unshift (self : nat) (query : Query) (field : string)
    (value : Value) : M Z :=
  rewriteEach self query (λ record,
    let items := default [] (arrayField record field) in
    Some (set record field (VArr (value :: items)))).

Definition pop (self : nat) (query : Query) (field : string) : M Z :=
  rewriteEach self query (λ record,
    match arrayField record field with
    | Some (item :: items) =>
        Some (set record field (VArr (removelast (item :: items))))
    | _ => None
    end).

Definition unset (self : nat) (query : Query) (field : string) : M Z :=
  rewriteEach self query (λ record,
    if has_key record field then Some (del record field) else None).

Definition rename (self : nat) (query : Query) (oldField newField : string)
    : M Z :=
  rewriteEach self query (λ record,
    if has_key record oldField
    then Some (del (set record newField (get record oldField)) oldField)
    else None).

(** *** Whole-collection helpers *)

Definition first (self : nat) : M (option Data) :=
  ensureConnected self ;;
  let* results := driver_get self [] in
  ret (head results).

Definition last (self : nat) : M (option Data) :=
  ensureConnected self ;;
  let* results := driver_get self [] in
  ret (list.last results).

Definition isEmpty (self : nat) : M bool :=
  ensureConnected self ;;
  let* count := driver_count self [] in
  ret (count =? 0).

Definition random (self : nat) (sampleSize : Z) : M (list Data) :=
  ensureConnected self ;;
  let* results := driver_get self [] in
  ret (slice 0 sampleSize (shuffle host results)).

(** *** Relations *)

(** [relation(name, target, localKey, foreignKey, type = 'many')] *)
Definition relation (self : nat) (name : string) (target : nat)
    (localKey foreignKey : string) (type : RelationType) : M unit :=
  update_this self (λ h,
    mkHawiah (driver h) (isConnected h)
      (<[name := mkRelation target localKey foreignKey type]> (relations h))
      (loaders h) (schema h)).

(** [this.loaders.set(relationName, loader)] *)
Definition setLoader (self : nat) (relationName : string)
    (loader : DataLoader) : M unit :=
  update_this self (λ h,
    mkHawiah (driver h) (isConnected h) (relations h)
      (<[relationName := loader]> (loaders h)) (schema h)).

(** The [type === 'one'] branch of the batch function: a [Map] from
    foreign key to the last record that carries it, then one entry per
    key. *)
Definition groupOne (foreignKey : string) (keys : list Value)
    (allRecords : list Data) : list Value :=
  let map :=
    fold_left (λ (m : list (Value * Data)) record,
                 if includes keys (get record foreignKey)
                 then map_set m (get record foreignKey) record
                 else m)
      allRecords [] in
  List.map (λ key, match map_get map key with
                   | Some record => VObj record
                   | None => VNull
                   end) keys.

(** The other branch: a [Map] from foreign key to the records that carry
    it, in the order fetched. *)
Definition groupMany (foreignKey : string) (keys : list Value)
    (allRecords : list Data) : list Value :=
  let map :=
    fold_left (λ (m : list (Value * list Data)) record,
                 if includes keys (get record foreignKey)
                 then map_set m (get record foreignKey)
                        (default [] (map_get m (get record foreignKey))
                           ++ [record])
                 else m)
      allRecords [] in
  List.map (λ key, match map_get map key with
                   | Some records => VArr (VObj <$> records)
                   | None => VArr []
                   end) keys.

(** The batch function given to [new DataLoader(...)]: one
    [target.get({})], then the grouping.  Each call is recorded. *)
Definition batchFunction (relationName : string) (loader : DataLoader)
    (keys : list Value) : M (list Value) :=
  (λ w, (Ok (), mkWorld (instances w) (backends w) (driverCalls w)
                  ((relationName, keys) :: batchCalls w))) ;;
  let* allRecords := get_ (batchTarget loader) [] None in
  match batchType loader with
  | one => ret (groupOne (batchForeignKey loader) keys allRecords)
  | many => ret (groupMany (batchForeignKey loader) keys allRecords)
  end.

(** Modelled from the spec: the keys that a run of [load] calls puts in
    the batch.  A key already resolved, or already queued by this run,
    is served by the cache; [known] holds those keys. *)
Fixpoint enqueue (known : list Value) (keys : list Value) : list Value :=
  match keys with
  | [] => []
  | key :: rest =>
      if includes known key then enqueue known rest
      else key :: enqueue (key :: known) rest
  end.

(** Modelled from the spec: [loader.loadMany(keys)] for the loader of
    [relationName].  The keys not yet resolved are handed to the batch
    function in one call, and no call is made when there is none; its
    results are memoized.  The result has one entry per key, in the order
    of [keys].  The spec is silent on a batch function that throws; as the
    package documents, the keys of that batch are then forgotten again and
    each of them yields the [Error]. *)
Definition loadMany (self : nat) (relationName : string)
    (keys : list Value) : M (list Value) :=
  let* h := this self in
  match loaders h !! relationName with
  | None => throw TYPE_ERROR
  | Some loader =>
      let cache := cacheMap loader in
      match enqueue (fst <$> cache) keys with
      | [] => ret (List.map (λ key, default VUndefined (map_get cache key)) keys)
      | batch =>
          let* r := attempt (batchFunction relationName loader batch) in
          match r with
          | Ok values =>
              let cache' := cache ++ zip batch values in
              setLoader self relationName
                (mkLoader (batchTarget loader) (batchForeignKey loader)
                   (batchType loader) cache') ;;
              ret (List.map (λ key, default VUndefined (map_get cache' key))
                     keys)
          | Throw e =>
              ret (List.map (λ key, default (VError e) (map_get cache key))
                     keys)
          end
      end
  end.

(** [type === 'many' ? [] : null] *)
Definition emptyResult (type : RelationType) : Value :=
  match type with many => VArr [] | one => VNull end.

(** The closing [records.forEach] of [loadRelation]; [results] is what is
    left of the array from [resultIndex] on. *)
Fixpoint writeBack (relationName localKey : string) (type : RelationType)
    (records : list Data) (results : list Value) : list Data :=
  match records with
  | [] => []
  | record :: rest =>
      if negb (nullish (get record localKey)) then
        set record relationName (default VUndefined (head results))
          :: writeBack relationName localKey type rest (tail results)
      else
        set record relationName (emptyResult type)
          :: writeBack relationName localKey type rest results
  end.

(** [records.map(r => r[localKey]).filter(k => k != null)] *)
Definition lookupKeys (localKey : string) (records : list Data) : list Value :=
  filter (λ k, negb (nullish k)) (List.map (λ r, get r localKey) records).

(** [private async loadRelation(records, relationName)].  The records are
    changed in place; the result is the array as it is afterwards. *)
Definition loadRelation (self : nat) (records : list Data)
    (relationName : string) : M (list Data) :=
  let* h := this self in
  match relations h !! relationName with
  | None => throw (relationNotDefined relationName)
  | Some rel =>
      match loaders h !! relationName with
      | Some _ => ret ()
      | None =>
          setLoader self relationName
            (mkLoader (target rel) (foreignKey rel) (relType rel) [])
      end ;;
      let keys := lookupKeys (localKey rel) records in
      match keys with
      | [] => ret records
      | _ =>
          let* results := loadMany self relationName keys in
          ret (writeBack relationName (localKey rel) (relType rel)
                 records results)
      end
  end.

(** The loader that [loadRelation] uses for [relationName]: the one in
    [this.loaders], or else a new one built from the declaration. *)
Definition loaderOf (h : Hawiah) (relationName : string)
    (rel : RelationConfig) : DataLoader :=
  default (mkLoader (target rel) (foreignKey rel) (relType rel) [])
    (loaders h !! relationName).

(** The keys that loader has resolved so far. *)
Definition cachedKeys (h : Hawiah) (relationName : string) : list Value :=
  match loaders h !! relationName with
  | Some loader => (cacheMap loader).*1
  | None => []
  end.

(** [clearCache()] *)
Definition clearCache (self : nat) : M unit :=
  update_this self (λ h,
    mkHawiah (driver h) (isConnected h) (relations h) ∅ (schema h)).

(** [getWith(query = {}, ...relations)] *)
Definition getWith (self : nat) (query : Query) (relations : list string)
    : M (list Data) :=
  ensureConnected self ;;
  let* records := driver_get self query in
  match relations, records with
  | [], _ | _, [] => ret records
  | _, _ =>
      forEach relations records (λ records relationName,
        loadRelation self records relationName)
  end.

(** [getOneWith(query, ...relations)] *)
Definition getOneWith (self : nat) (query : Query) (relations : list string)
    : M (option Data) :=
  ensureConnected self ;;
  let* record := driver_getOne self query in
  match record, relations with
  | None, _ => ret None
  | Some record, [] => ret (Some record)
  | Some record, _ =>
      let* records := forEach relations [record] (λ records relationName,
                        loadRelation self records relationName) in
      ret (head records)
  end.

(** *** The operations that need a live connection *)

(** Every public method of the class that reads or writes records, with
    its arguments. *)
Inductive Operation : Type :=
| Insert (data : Data)
| InsertMany (dataArray : list Data)
| Get (query : Query) (limit : option Z)
| GetOne (query : Query)
| GetAll
| GetMany (queries : list Query)
| Update (query : Query) (data : Data)
| UpdateOne (query : Query) (data : Data)
| Save (query : Query) (data : Data)
| Remove (query : Query)
| RemoveOne (query : Query)
| Clear
| Has (query : Query)
| Count (query : Query)
| CountBy (field : string) (value : Value)
| GetById (id : Value)
| UpdateById (id : Value) (data : Data)
| RemoveById (id : Value)
| HasId (id : Value)
| GetBy (field : string) (value : Value)
| HasBy (field : string) (value : Value)
| Sort (query : Query) (field : string) (direction : Direction)
| Select (query : Query) (fields : list string)
| Unique (field : string) (query : Query)
| Group (field : string) (query : Query)
| Paginate (query : Query) (page pageSize : Z)
| Sum (field : string) (query : Query)
| Increment (query : Query) (field : string) (amount : Z)
| Decrement (query : Query) (field : string) (amount : Z)
| Push (query : Query) (field : string) (value : Value)
| Pull (query : Query) (field : string) (value : Value)
| Shift (query : Query) (field : string)
| Unshift (query : Query) (field : string) (value : Value)
| Pop (query : Query) (field : string)
| Unset (query : Query) (field : string)
| Rename (query : Query) (oldField newField : string)
| First
| Last
| IsEmpty
| Random (sampleSize : Z)
| GetWith (query : Query) (relations : list string)
| GetOneWith (query : Query) (relations : list string).

(** [await m], the value dropped. *)
Definition void {A} (m : M A) : M unit := m ;; ret ().

(** The call of an operation on instance [self]. *)
Definition perform (self : nat) (o : Operation) : M unit :=
  match o with
  | Insert data => void (insert self data)
  | InsertMany dataArray => void (insertMany self dataArray)
  | Get query limit => void (get_ self query limit)
  | GetOne query => void (getOne self query)
  | GetAll => void (getAll self)
  | GetMany queries => void (getMany self queries)
  | Update query data => void (update self query data)
  | UpdateOne query data => void (updateOne self query data)
  | Save query data => void (save self query data)
  | Remove query => void (remove self query)
  | RemoveOne query => void (removeOne self query)
  | Clear => void (clear self)
  | Has query => void (has self query)
  | Count query => void (count self query)
  | CountBy field value => void (countBy self field value)
  | GetById id => void (getById self id)
  | UpdateById id data => void (updateById self id data)
  | RemoveById id => void (removeById self id)
  | HasId id => void (hasId self id)
  | GetBy field value => void (getBy self field value)
  | HasBy field value => void (hasBy self field value)
  | Sort query field direction => void (sort self query field direction)
  | Select query fields => void (select self query fields)
  | Unique field query => void (unique self field query)
  | Group field query => void (group self field query)
  | Paginate query page pageSize => void (paginate self query page pageSize)
  | Sum field query => void (sum self field query)
  | Increment query field amount => void (increment self query field amount)
  | Decrement query field amount => void (decrement self query field amount)
  | Push query field value => void (push self query field value)
  | Pull query field value => void (pull self query field value)
  | Shift query field => void (shift self query field)
  | Unshift query field value => void (unshift self query field value)
  | Pop query field => void (pop self query field)
  | Unset query field => void (unset self query field)
  | Rename query oldField newField =>
      void (rename self query oldField newField)
  | First => void (first self)
  | Last => void (last self)
  | IsEmpty => void (isEmpty self)
  | Random sampleSize => void (random self sampleSize)
  | GetWith query relations => void (getWith self query relations)
  | GetOneWith query relations => void (getOneWith self query relations)
  end.

End Methods.

(** *** A backend and a host to run the examples *)

(** Rows in a list.  A query selects the rows that carry each of its
    entries; [set] stores the row as it is; nothing throws. *)
Definition selects (query : Query) (row : Data) : bool :=
  forallb (λ kv, sameValueZero (get row kv.1) kv.2) query.

Definition listDriver : IDriver (list Data) :=
  mkDriver (list Data)
    (λ data rows, (Ok data, rows ++ [data]))
    (λ query rows, (Ok (filter (λ r, selects query r) rows), rows))
    (λ query rows, (Ok (head (filter (λ r, selects query r) rows)), rows))
    (λ query data rows,
       (Ok (Z.of_nat (length (filter (λ r, selects query r) rows))),
        List.map (λ r, if selects query r then spread r data else r) rows))
    (λ query rows,
       (Ok (Z.of_nat (length (filter (λ r, selects query r) rows))),
        filter (λ r, negb (selects query r)) rows))
    (λ query rows, (Ok (existsb (selects query) rows), rows))
    (λ query rows,
       (Ok (Z.of_nat (length (filter (λ r, selects query r) rows))), rows))
    false.

(** The scenario of two collections: posts that name their author by
    [authorId], and authors.  Instance 0 serves the posts on handle 0 and
    declares the relation [author]; instance 1 serves the authors on
    handle 1. *)
Definition ann : Data := [("id", VNum 1); ("name", VStr "Ann")].
Definition bob : Data := [("id", VNum 2); ("name", VStr "Bob")].
Definition post10 : Data := [("id", VNum 10); ("authorId", VNum 1)].
Definition post11 : Data := [("id", VNum 11); ("authorId", VNum 1)].
Definition post12 : Data := [("id", VNum 12); ("authorId", VNum 2)].
Definition draft : Data := [("id", VNum 13); ("authorId", VNull)].

Definition authorRelation : RelationConfig := mkRelation 1 "authorId" "id" one.

Definition blog (postsConnected authorsConnected : bool) : World (list Data) :=
  mkWorld
    [mkHawiah 0 postsConnected {[ "author" := authorRelation ]} ∅ None;
     mkHawiah 1 authorsConnected ∅ ∅ None]
    [[post10; post11; post12; draft]; [ann; bob]]
    [] [].

(** A host whose conversions are never consulted by the examples. *)
Definition plainHost : Host :=
  mkHost (λ _, false) (λ _, false) (λ _, false) (λ _, false)
    (λ _, 0) (λ _, "") (λ _, "") (λ _ _, false)
    (λ _ rows, rows) (λ rows, rows).

End Facade.

(* ===================================================================== *)
(** ** The in-memory backend: [MemoryDriver] *)
(* ===================================================================== *)

Module Memory.
Import Js Facade.

(** The two fields of a [MemoryDriver], and how many times it has read the
    clock ([new Date()]) so far. *)
Record MemoryDriver : Type := mkMemory {
  data : list Data;
  idCounter : Z;
  clockReads : nat;
}.

(** [typeof v === 'object' && v !== null] *)
Definition isObject (v : Value) : bool :=
  typeof_object v && negb (is_null v).

(** What reading a property can yield: a value of the model, a function,
    or an object of the host (a prototype), known by a number. *)
Inductive Read : Type :=
| Plain (v : Value)
| Function
| HostObject (id : nat).

(** [items[key]] for an index of the array, from index [i] on. *)
Fixpoint element (items : list Value) (i : nat) (key : string)
    : option Value :=
  match items with
  | [] => None
  | item :: rest =>
      if String.eqb (pretty i) key then Some item else element rest (S i) key
  end.

(** The own properties that the model holds for an object value: the
    properties of a plain object, the elements and the [length] of an
    array, the [message] of an [Error]. *)
Definition own (v : Value) (key : string) : option Value :=
  match v with
  | VObj fields => if has_key fields key then Some (get fields key) else None
  | VArr items =>
      if String.eqb key "length" then Some (VNum (Z.of_nat (length items)))
      else element items 0 key
  | VError msg => if String.eqb key "message" then Some (VStr msg) else None
  | _ => None
  end.

(** [typeof r === 'object' && r !== null] for what a read yields. *)
Definition readIsObject (r : Read) : bool :=
  match r with
  | Plain v => isObject v
  | Function => false
  | HostObject _ => true
  end.

(** [a === b] where [b] is not an object: the same primitive value. *)
Definition strictEquals (a : Read) (b : Value) : bool :=
  match a with
  | Plain v => Value_eqb v b
  | Function | HostObject _ => false
  end.

Section Driver.
(** [inherited subject key]: what [subject[key]] yields when [key] is not
    an own property that the model holds for [subject], that is, the
    member found along the prototype chain of the host ([toString],
    [constructor], [__proto__], the methods of arrays, ...), and
    [Plain VUndefined] when there is none.  Every property of a host
    object is read this way. *)
Variable inherited : Read → string → Read.

(** [subject[key]] *)
Definition prop (subject : Read) (key : string) : Read :=
  match subject with
  | Plain v =>
      match own v key with
      | Some x => Plain x
      | None => inherited subject key
      end
  | Function | HostObject _ => inherited subject key
  end.

(** [private matches(record, query)].  The keys of a query object are
    those of its properties, the keys of an array its indices, and an
    [Error] has none. *)
Fixpoint matchesValue (record : Read) (query : Value) {struct query} : bool :=
  match query with
  | VObj fields =>
      (fix every (entries : list (string * Value)) : bool :=
         match entries with
         | [] => true
         | (key, queryValue) :: rest =>
             (if isObject queryValue then
                if readIsObject (prop record key)
                then matchesValue (prop record key) queryValue
                else false
              else strictEquals (prop record key) queryValue)
             && every rest
         end) fields
  | VArr items =>
      (fix every (i : nat) (rest : list Value) : bool :=
         match rest with
         | [] => true
         | queryValue :: rest' =>
             (if isObject queryValue then
                if readIsObject (prop record (pretty i))
                then matchesValue (prop record (pretty i)) queryValue
                else false
              else strictEquals (prop record (pretty i)) queryValue)
             && every (S i) rest'
         end) 0%nat items
  | _ => true
  end.

Definition matches (record : Data) (query : Query) : bool :=
  matchesValue (Plain (VObj record)) (VObj query).

(** [new Date().toISOString()] at the [n]-th reading of the clock. *)
Variable toISOString : nat → string.

Definition connect (s : MemoryDriver) : MemoryDriver :=
  mkMemory [] 1 (clockReads s).

Definition disconnect (s : MemoryDriver) : MemoryDriver :=
  mkMemory [] (idCounter s) (clockReads s).

(** [{ _id: this.idCounter++, ...data, _createdAt: ... }] *)
Definition newRecord (s : MemoryDriver) (d : Data) : Data :=
  Js.set (spread [("_id", VNum (idCounter s))] d)
    "_createdAt" (VStr (toISOString (clockReads s))).

Definition set (d : Data) (s : MemoryDriver) : Data * MemoryDriver :=
  let record := newRecord s d in
  (record,
   mkMemory (data s ++ [record]) (idCounter s + 1) (S (clockReads s))).

Definition get (query : Query) (s : MemoryDriver) : list Data :=
  filter (λ record, matches record query) (data s).

Definition getOne (query : Query) (s : MemoryDriver) : option Data :=
  List.find (λ record, matches record query) (data s).

(** [{ ...record, ...data, _updatedAt: ... }] *)
Definition patched (record d : Data) (clock : nat) : Data :=
  Js.set (spread record d) "_updatedAt" (VStr (toISOString clock)).

(** The [map] of [update]: the new records, [count], and the clock
    readings made. *)
Fixpoint updateFrom (query : Query) (d : Data) (records : list Data)
    (clock : nat) : list Data * Z * nat :=
  match records with
  | [] => ([], 0, clock)
  | record :: rest =>
      if matches record query then
        let '(rest', count, clock') := updateFrom query d rest (S clock) in
        (patched record d clock :: rest', count + 1, clock')
      else
        let '(rest', count, clock') := updateFrom query d rest clock in
        (record :: rest', count, clock')
  end.

Definition update (query : Query) (d : Data) (s : MemoryDriver)
    : Z * MemoryDriver :=
  let '(records, count, clock) :=
    updateFrom query d (data s) (clockReads s) in
  (count, mkMemory records (idCounter s) clock).

Definition delete (query : Query) (s : MemoryDriver) : Z * MemoryDriver :=
  let initialLength := Z.of_nat (length (data s)) in
  let kept := filter (λ record, negb (matches record query)) (data s) in
  (initialLength - Z.of_nat (length kept),
   mkMemory kept (idCounter s) (clockReads s)).

Definition exists_ (query : Query) (s : MemoryDriver) : bool :=
  existsb (λ record, matches record query) (data s).

Definition count (query : Query) (s : MemoryDriver) : Z :=
  Z.of_nat (length (filter (λ record, matches record query) (data s))).

Definition getAll (s : MemoryDriver) : list Data := data s.

Definition clear (s : MemoryDriver) : MemoryDriver :=
  mkMemory [] 1 (clockReads s).

(** The driver as the facade uses it.  It has no [dbType]. *)
Definition memoryDriver : IDriver MemoryDriver :=
  mkDriver MemoryDriver
    (λ d s, let '(r, s') := set d s in (Ok r, s'))
    (λ query s, (Ok (get query s), s))
    (λ query s, (Ok (getOne query s), s))
    (λ query d s, let '(n, s') := update query d s in (Ok n, s'))
    (λ query s, let '(n, s') := delete query s in (Ok n, s'))
    (λ query s, (Ok (exists_ query s), s))
    (λ query s, (Ok (count query s), s))
    false.

(** The calls that change the driver, and a sequence of them. *)
Inductive Call : Type :=
| DoConnect
| DoDisconnect
| DoSet (d : Data)
| DoUpdate (query : Query) (d : Data)
| DoDelete (query : Query)
| DoClear.

Definition perform (c : Call) (s : MemoryDriver) : MemoryDriver :=
  match c with
  | DoConnect => connect s
  | DoDisconnect => disconnect s
  | DoSet d => (set d s).2
  | DoUpdate query d => (update query d s).2
  | DoDelete query => (delete query s).2
  | DoClear => clear s
  end.

Definition performAll (cs : list Call) (s : MemoryDriver) : MemoryDriver :=
  foldl (λ s' c, perform c s') s cs.

End Driver.

(** [new MemoryDriver()] *)
Definition initial : MemoryDriver := mkMemory [] 1 0.

(** The call hands the driver no [_id] of its own. *)
Definition leavesId (c : Call) : bool :=
  match c with
  | DoSet d | DoUpdate _ d => negb (has_key d "_id")
  | _ => true
  end.

(** No value of the query is an object or an array. *)
Definition flat (query : Query) : bool :=
  forallb (λ kv, negb (isObject kv.2)) query.

(** Every stored record carries a number below the counter as its [_id],
    and no two carry the same. *)
Definition idOf (record : Data) : Value := Js.get record "_id".

Definition Numbered (s : MemoryDriver) : Prop :=
  Forall (λ record, ∃ n, idOf record = VNum n ∧ n < idCounter s) (data s)
  ∧ NoDup (idOf <$> data s).

End Memory.

(* ===================================================================== *)
(** ** Sample data *)
(* ===================================================================== *)

Module Samples.
Import Js Facade.

(** A schema with a required string and a defaulted number. *)
Definition userSchema : SchemaDefinition :=
  [("username", mkSchemaField "string" true VUndefined);
   ("visits", mkSchemaField "integer" false (VNum 0))].

(** A clock for the in-memory backend. *)
Definition isoClock (n : nat) : string :=
  "2024-01-01T00:00:00." +:+ pretty n +:+ "Z".

(** A host in which a plain object inherits the methods of
    [Object.prototype] and reads its prototype through [__proto__];
    nothing else is inherited. *)
Definition objectMethods : list string :=
  ["constructor"; "hasOwnProperty"; "isPrototypeOf"; "propertyIsEnumerable";
   "toLocaleString"; "toString"; "valueOf"].

Definition objectMembers (subject : Memory.Read) (key : string)
    : Memory.Read :=
  match subject with
  | Memory.Plain (VObj _) =>
      if existsb (String.eqb key) objectMethods then Memory.Function
      else if String.eqb key "__proto__" then Memory.HostObject 0
      else Memory.Plain VUndefined
  | _ => Memory.Plain VUndefined
  end.

Definition newUser : Data := [("username", VStr "ann"); ("visits", VNum 0)].
Definition otherUser : Data := [("username", VStr "bob"); ("visits", VNum 3)].

(** Two users are stored, one is updated and the other deleted. *)
Definition sampleCalls : list Memory.Call :=
  [Memory.DoConnect; Memory.DoSet newUser; Memory.DoSet otherUser;
   Memory.DoUpdate [("username", VStr "ann")] [("visits", VNum 1)];
   Memory.DoDelete [("username", VStr "bob")]].

(** One connected instance with [userSchema] over an empty backend. *)
Definition guarded : World (list Data) :=
  mkWorld [mkHawiah 0 true ∅ ∅ (Some userSchema)] [[]] [] [].

(** The scenario of [blog], both instances connected, after the loader
    of [author] has resolved author 1. *)
Definition blogLoaded : World (list Data) :=
  mkWorld
    [mkHawiah 0 true {[ "author" := authorRelation ]}
       {[ "author" := mkLoader 1 "id" one [(VNum 1, VObj ann)] ]} None;
     mkHawiah 1 true ∅ ∅ None]
    [[post10; post11; post12; draft]; [ann; bob]]
    [] [].

(** A host that reads numbers as they are. *)
Definition numberHost : Host :=
  mkHost (λ _, false) (λ _, false) (λ _, false) (λ _, false)
    (λ v, match v with VNum n => n | _ => 0 end) (λ _, "") (λ _, "")
    (λ _ _, false) (λ _ rows, rows) (λ rows, rows).

(** Two connected instances on one in-memory handle that holds two
    users. *)
Definition twoUsers : Memory.MemoryDriver :=
  Memory.performAll objectMembers isoClock
    [Memory.DoSet newUser; Memory.DoSet otherUser] Memory.initial.

Definition twoOnOneHandle : World Memory.MemoryDriver :=
  mkWorld [mkHawiah 0 true ∅ ∅ None; mkHawiah 0 true ∅ ∅ None]
    [twoUsers] [] [].

End Samples.

(* ===================================================================== *)
(** ** Kinds of values *)

Module Kinds.
Import Js.

(** A value that is not an object: [Map] keys, [Array.includes] and the
    cache of a loader compare such values by what they are. *)
Definition primitive (v : Value) : bool :=
  match v with
  | VArr _ | VObj _ | VError _ => false
  | _ => true
  end.

(** [Number.isSafeInteger(n)]: between these bounds an integral number
    is itself, and a sum within them is the sum of the integers. *)
Definition MAX_SAFE_INTEGER : Z := 2 ^ 53 - 1.

Definition safeInteger (n : Z) : bool :=
  (- MAX_SAFE_INTEGER <=? n) && (n <=? MAX_SAFE_INTEGER).

End Kinds.

(* ===================================================================== *)
(** ** Sample schedules *)

Module Schedules.
Import Coordinator.

(** One instance connects through the registry and disconnects. *)
Definition connectThenDisconnect : list Event :=
  [Connect 0; DriverConnected 0; Resume 0; Disconnect 0 None]%nat.

(** The same instance calls [connect()] again and is resumed. *)
Definition connectAgain : list Event := [Connect 0; Resume 0]%nat.

(** Two instances built from a driver class without a name, for two
    tables: the fingerprint of both is the empty string, and each holds a
    handle of its own. *)
Definition namelessClass : Fingerprint.DriverRef :=
  Fingerprint.DriverClass "" true.

Definition twoTables : World :=
  pooled "" [0; 1]%nat [mkHandle true false; mkHandle true false].

(** Both call [connect()], the backend answers both, both are resumed. *)
Definition bothConnect : list Event :=
  [Connect 0; Connect 1; DriverConnected 0; DriverConnected 1;
   Resume 0; Resume 0]%nat.

End Schedules.


(** * Properties *)
(* ===================================================================== *)

(** ** Values and strings *)

Module JsFacts.
Import Js.

Lemma Value_eqb_eq (a b : Value) : Value_eqb a b = true ↔ a = b.
Proof.
  revert b. induction a using Value_deep_ind; intros c; destruct c; simpl;
    try (split; [discriminate | congruence]); try tauto.
  - rewrite Bool.eqb_true_iff. split; congruence.
  - rewrite Z.eqb_eq. split; congruence.
  - rewrite String.eqb_eq. split; congruence.
  - revert items0. induction H as [|x xs Hx _ IH]; intros [|y ys];
      try (split; [discriminate | congruence]); try tauto.
    rewrite andb_true_iff, Hx, IH. split.
    + intros [-> E]. by inversion E.
    + intros E. inversion E. done.
  - revert fields0. induction H as [|[k x] xs Hx _ IH]; intros [|[k' y] ys];
      try (split; [discriminate | congruence]); try tauto.
    simpl in Hx. rewrite !andb_true_iff, String.eqb_eq, Hx, IH. split.
    + intros [[-> ->] E]. by inversion E.
    + intros E. inversion E. done.
  - rewrite String.eqb_eq. split; congruence.
Qed.

Lemma sameValueZero_eq (a b : Value) : sameValueZero a b = true ↔ a = b.
Proof. apply Value_eqb_eq. Qed.

Lemma sameValueZero_refl (a : Value) : sameValueZero a a = true.
Proof. by apply sameValueZero_eq. Qed.

Lemma sameValueZero_neq (a b : Value) : sameValueZero a b = false ↔ a ≠ b.
Proof.
  rewrite <- sameValueZero_eq. destruct (sameValueZero a b); split; congruence.
Qed.

Lemma includes_In (xs : list Value) (v : Value) :
  includes xs v = true ↔ v ∈ xs.
Proof.
  unfold includes. rewrite existsb_exists. split.
  - intros (x & Hin & Heq). apply sameValueZero_eq in Heq as ->.
    by apply list_elem_of_In.
  - intros Hin. exists v. split; [by apply list_elem_of_In|].
    apply sameValueZero_refl.
Qed.

Lemma includes_not_In (xs : list Value) (v : Value) :
  includes xs v = false ↔ v ∉ xs.
Proof.
  rewrite <- includes_In. destruct (includes xs v); split; congruence.
Qed.

Lemma append_cons (c : ascii) (a b : string) :
  String c a +:+ b = String c (a +:+ b).
Proof. reflexivity. Qed.

Lemma append_nil_l (a : string) : "" +:+ a = a.
Proof. reflexivity. Qed.

Lemma append_nil_r (s : string) : s +:+ "" = s.
Proof. induction s as [|c s IH]; [done|]. rewrite append_cons. congruence. Qed.

Lemma append_assoc (a b c : string) : (a +:+ b) +:+ c = a +:+ (b +:+ c).
Proof.
  induction a as [|x a IH]; [done|]. rewrite !append_cons. congruence.
Qed.

Lemma append_length (a b : string) :
  String.length (a +:+ b) = (String.length a + String.length b)%nat.
Proof.
  induction a as [|x a IH]; [done|]. rewrite append_cons. simpl. congruence.
Qed.

(** Two strings followed by the same text are equal when the wholes are. *)
Lemma append_inv_tail (a b c : string) : a +:+ c = b +:+ c → a = b.
Proof.
  revert b. induction a as [|x a IH]; intros [|y b] H.
  - done.
  - apply (f_equal String.length) in H.
    rewrite append_nil_l, append_cons in H. simpl in H.
    rewrite append_length in H. lia.
  - apply (f_equal String.length) in H.
    rewrite append_nil_l, append_cons in H. simpl in H.
    rewrite append_length in H. lia.
  - rewrite !append_cons in H. injection H as -> H. f_equal. by apply IH.
Qed.

Lemma get_middle_ne (pre post : Obj) (key k : string) (v : Value) :
  key ≠ k → get (pre ++ (key, v) :: post) k = get (pre ++ post) k.
Proof.
  intros Hne. induction pre as [|[k' v'] pre IH]; simpl.
  - apply String.eqb_neq in Hne. by rewrite Hne.
  - by rewrite IH.
Qed.

End JsFacts.

(** ** The fingerprint *)

Module FingerprintFacts.
Import Js Fingerprint JsFacts.

Section Facts.
Variable Number_toString : Z → string.
Variable JSON_stringify : Value → string.

Local Abbreviation appendKey := (appendKey Number_toString JSON_stringify).
Local Abbreviation getPoolKey := (getPoolKey Number_toString JSON_stringify).

(** What one entry adds does not depend on the key built so far. *)
Lemma appendKey_acc (ignore : list string) (cKey : string)
    (entry : string * Value) :
  appendKey ignore cKey entry = cKey +:+ appendKey ignore "" entry.
Proof.
  destruct entry as [key val]. unfold Fingerprint.appendKey.
  destruct (negb (has ignore key)); [|by rewrite append_nil_r].
  destruct (negb (is_null val) && negb (typeof_object val)); [done|].
  destruct (negb (is_null val)); [done|]. by rewrite append_nil_r.
Qed.

Lemma fold_appendKey_acc (ignore : list string) (config : Obj)
    (cKey : string) :
  fold_left (appendKey ignore) config cKey
  = cKey +:+ fold_left (appendKey ignore) config "".
Proof.
  revert cKey. induction config as [|entry config IH]; intros cKey; simpl.
  - by rewrite append_nil_r.
  - rewrite IH, (IH (appendKey ignore "" entry)), appendKey_acc.
    by rewrite append_assoc.
Qed.

Lemma fold_appendKey_app (ignore : list string) (pre post : Obj)
    (cKey : string) :
  fold_left (appendKey ignore) (pre ++ post) cKey
  = fold_left (appendKey ignore) pre cKey
      +:+ fold_left (appendKey ignore) post "".
Proof. by rewrite fold_left_app, fold_appendKey_acc. Qed.

(** The loop only sees the entries whose key is not ignored. *)
Lemma fold_appendKey_without (ignore : list string) (config : Obj)
    (cKey : string) :
  fold_left (appendKey ignore) config cKey
  = fold_left (appendKey ignore) (without ignore config) cKey.
Proof.
  revert cKey. unfold without.
  induction config as [|[key val] config IH]; intros cKey; [done|].
  rewrite filter_cons. simpl. destruct (has ignore key) eqn:E; simpl.
  - apply IH.
  - rewrite E. simpl. apply IH.
Qed.

Lemma get_without (keys : list string) (config : Obj) (k : string) :
  has keys k = false → get (without keys config) k = get config k.
Proof.
  intros Hk. unfold without.
  induction config as [|[key val] config IH]; [done|].
  rewrite filter_cons. simpl. destruct (String.eqb key k) eqn:E.
  - apply String.eqb_eq in E as ->. rewrite Hk. simpl.
    by rewrite String.eqb_refl.
  - destruct (has keys key); simpl; [done|by rewrite E].
Qed.

Lemma connectionKey_ignored (supports : bool) :
  has (ignoreKeys supports) "connectionKey" = true.
Proof. by destruct supports. Qed.

Lemma subresource_key_kept (key : string) :
  key ∈ SUBRESOURCE_KEYS → has (ignoreKeys false) key = false.
Proof.
  unfold SUBRESOURCE_KEYS. rewrite !elem_of_cons, elem_of_nil.
  intros [->|[->|[->|[->|[]]]]]; reflexivity.
Qed.

Lemma override_None (config : Obj) :
  override config = None ↔ truthy (get config "connectionKey") = false.
Proof. unfold override. destruct (truthy _); split; congruence. Qed.

Lemma getPoolKey_no_override (driver : DriverRef) (config : Obj) :
  override config = None →
  getPoolKey driver config
  = VStr (fold_left (appendKey (ignoreKeys (supportsTable driver)))
            config (driverName driver)).
Proof.
  intros H%override_None. unfold Fingerprint.getPoolKey. by rewrite H.
Qed.

Lemma fold_string_entry (ignore : list string) (key name : string)
    (post : Obj) :
  has ignore key = false →
  fold_left (appendKey ignore) ((key, VStr name) :: post) ""
  = ("|" +:+ key +:+ ":" +:+ name) +:+ fold_left (appendKey ignore) post "".
Proof.
  intros H. cbn [fold_left]. rewrite fold_appendKey_acc. f_equal.
  unfold Fingerprint.appendKey. by rewrite H.
Qed.

(** C10. Without an explicit override identity, an identity-relevant key
    bound to [null] adds nothing: the fingerprint is that of the
    configuration without the key. *)
Theorem getPoolKey_skips_null (driver : DriverRef) (pre post : Obj)
    (key : string) :
  has (ignoreKeys (supportsTable driver)) key = false →
  override (pre ++ (key, VNull) :: post) = None →
  getPoolKey driver (pre ++ (key, VNull) :: post)
  = getPoolKey driver (pre ++ post).
Proof.
  intros Hkey Hov.
  assert (key ≠ "connectionKey") as Hne.
  { intros ->. by rewrite connectionKey_ignored in Hkey. }
  assert (override (pre ++ post) = None) as Hov'.
  { apply override_None. rewrite <- (get_middle_ne pre post key _ VNull Hne).
    by apply override_None. }
  rewrite !getPoolKey_no_override by done. f_equal.
  rewrite !fold_left_app. simpl. by rewrite Hkey.
Qed.

(** C7, as amended. For a backend with sub-resource switching, two
    configurations that agree outside the ignored keys and carry the same
    explicit override identity (or none) have the same fingerprint. *)
Theorem getPoolKey_ignores_irrelevant_keys (driver : DriverRef)
    (config1 config2 : Obj) :
  supportsTable driver = true →
  without IGNORE_KEYS config1 = without IGNORE_KEYS config2 →
  override config1 = override config2 →
  getPoolKey driver config1 = getPoolKey driver config2.
Proof.
  intros Hsup Heq Hov. unfold Fingerprint.getPoolKey.
  unfold override in Hov.
  destruct (truthy (get config1 "connectionKey")),
           (truthy (get config2 "connectionKey")); try congruence.
  rewrite Hsup. simpl. f_equal.
  rewrite (fold_appendKey_without IGNORE_KEYS config1).
  rewrite (fold_appendKey_without IGNORE_KEYS config2).
  by rewrite Heq.
Qed.

(** C6, as amended. For a backend without sub-resource switching, two
    configurations that carry no explicit override identity and differ
    only in the name bound to one sub-resource key have different
    fingerprints. *)
Theorem getPoolKey_separates_subresources (driver : DriverRef)
    (pre post : Obj) (key name1 name2 : string) :
  supportsTable driver = false →
  key ∈ SUBRESOURCE_KEYS →
  override (pre ++ (key, VStr name1) :: post) = None →
  name1 ≠ name2 →
  getPoolKey driver (pre ++ (key, VStr name1) :: post)
  ≠ getPoolKey driver (pre ++ (key, VStr name2) :: post).
Proof.
  intros Hsup Hkey Hov Hne.
  assert (key ≠ "connectionKey") as Hck.
  { intros ->. revert Hkey. unfold SUBRESOURCE_KEYS.
    rewrite !elem_of_cons, elem_of_nil.
    intros [?|[?|[?|[?|[]]]]]; discriminate. }
  assert (override (pre ++ (key, VStr name2) :: post) = None) as Hov'.
  { apply override_None. rewrite (get_middle_ne pre post key _ _ Hck).
    rewrite <- (get_middle_ne pre post key _ (VStr name1) Hck).
    by apply override_None. }
  rewrite !getPoolKey_no_override by done. rewrite Hsup.
  pose proof (subresource_key_kept key Hkey) as Hkept.
  remember (ignoreKeys false) as ignore eqn:Hign. clear Hign.
  intros H. injection H as H. apply Hne.
  rewrite !fold_appendKey_app in H. apply String.app_inj in H.
  rewrite !fold_string_entry in H by done.
  apply append_inv_tail in H.
  apply (String.app_inj "|") in H. apply String.app_inj in H.
  by apply (String.app_inj ":") in H.
Qed.

End Facts.

(** C10 at a MongoDB-like configuration whose [dbName] is [null]. *)
Lemma getPoolKey_skips_null_witness :
  getPoolKey decimal noObjects (DriverClass "MongoDriver" true)
    [("uri", VStr "mongodb://localhost"); ("dbName", VNull);
     ("collectionName", VStr "users")]
  = getPoolKey decimal noObjects (DriverClass "MongoDriver" true)
      [("uri", VStr "mongodb://localhost"); ("collectionName", VStr "users")].
Proof.
  apply (getPoolKey_skips_null decimal noObjects
           (DriverClass "MongoDriver" true)
           [("uri", VStr "mongodb://localhost")]
           [("collectionName", VStr "users")] "dbName");
    reflexivity.
Defined.

(** C7 as stated fails: the override key is among the ignored keys, yet a
    configuration that carries one is fingerprinted by it alone. *)
Lemma override_changes_fingerprint :
  supportsTable (DriverClass "MongoDriver" true) = true
  ∧ without IGNORE_KEYS [("uri", VStr "u"); ("connectionKey", VStr "main")]
    = without IGNORE_KEYS [("uri", VStr "u")]
  ∧ getPoolKey decimal noObjects (DriverClass "MongoDriver" true)
      [("uri", VStr "u"); ("connectionKey", VStr "main")]
    ≠ getPoolKey decimal noObjects (DriverClass "MongoDriver" true)
        [("uri", VStr "u")].
Proof. split; [reflexivity|]. split; [reflexivity|]. discriminate. Qed.

Lemma getPoolKey_ignores_irrelevant_keys_witness :
  getPoolKey decimal noObjects (DriverClass "MongoDriver" true)
    [("uri", VStr "u"); ("collectionName", VStr "users")]
  = getPoolKey decimal noObjects (DriverClass "MongoDriver" true)
      [("table", VStr "posts"); ("uri", VStr "u"); ("connectionKey", VStr "")].
Proof.
  apply (getPoolKey_ignores_irrelevant_keys decimal noObjects
           (DriverClass "MongoDriver" true)); reflexivity.
Defined.

(** C6 as stated fails: two configurations of a backend without [table]
    that differ only in [collection] but carry the same override identity
    get the same fingerprint. *)
Lemma shared_override_merges_subresources :
  supportsTable (DriverClass "MemoryDriver" false) = false
  ∧ getPoolKey decimal noObjects (DriverClass "MemoryDriver" false)
      [("connectionKey", VStr "main"); ("collection", VStr "users")]
    = getPoolKey decimal noObjects (DriverClass "MemoryDriver" false)
        [("connectionKey", VStr "main"); ("collection", VStr "posts")].
Proof. split; reflexivity. Qed.

Lemma getPoolKey_separates_subresources_witness :
  getPoolKey decimal noObjects (DriverClass "MemoryDriver" false)
    [("path", VStr "db.json"); ("collection", VStr "users")]
  ≠ getPoolKey decimal noObjects (DriverClass "MemoryDriver" false)
      [("path", VStr "db.json"); ("collection", VStr "posts")].
Proof.
  apply (getPoolKey_separates_subresources decimal noObjects
           (DriverClass "MemoryDriver" false)
           [("path", VStr "db.json")] [] "collection" "users" "posts").
  - reflexivity.
  - unfold SUBRESOURCE_KEYS. rewrite !elem_of_cons. auto.
  - reflexivity.
  - discriminate.
Defined.

End FingerprintFacts.

(** ** The coordinator *)

Module CoordinatorFacts.
Import Coordinator.

Lemma run_app (es1 es2 : list Event) (w : World) :
  run (es1 ++ es2) w = w' ← run es1 w; run es2 w'.
Proof.
  revert w. induction es1 as [|e es1 IH]; intros w; simpl; [done|].
  destruct (step e w); simpl; [apply IH|done].
Qed.

Lemma connectInvocations_invoke (i d : nat) (o : DriverOp) (w : World) :
  connectInvocations (invoke i d o w)
  = ((if decide (o = OpConnect) then 1 else 0) + connectInvocations w)%nat.
Proof.
  unfold connectInvocations.
  change (driverCalls (invoke i d o w)) with (mkCall i d o :: driverCalls w).
  rewrite filter_cons. cbn [op]. by destruct (decide (o = OpConnect)).
Qed.

(** No ended call agrees with a pending promise. *)
Lemma agrees_Pending_nil (fs : list (nat * Completion)) :
  Forall (λ f, agrees Pending f.2) fs → fs = [].
Proof. destruct 1 as [|[i []] fs H _]; [done|inversion H|inversion H]. Qed.

Lemma fresh_coherent (key : PoolKey) (w : World) :
  Fresh key w → Coherent key w.
Proof.
  intros (Hinst & Hlive & Hmark & Hprom & Hcalls & Hwait & Hfin). split.
  - eapply Forall_impl; [exact Hinst|]. by intros h [].
  - left. unfold Idle, connectInvocations. rewrite Hcalls.
    repeat split; try done.
    eapply Forall_impl; [exact Hinst|]. by intros h [].
Qed.

Lemma connect_enter_coherent (key : PoolKey) (i : nat) (w w' : World) :
  Coherent key w → connect_enter i w = Some w' → Coherent key w'.
Proof.
  intros [Hkey Hst]. unfold connect_enter.
  destruct (instances w !! i) as [h|] eqn:Hi; [|done]. simpl.
  pose proof (Forall_lookup_1 _ _ _ _ Hkey Hi) as Hk. simpl in Hk.
  destruct (isConnected h) eqn:Hc.
  { intros [= <-]. split; [done|].
    destruct Hst as [(_ & _ & _ & _ & _ & Hnc & _)|(s & Hm & Hp & Hn & Hw & Hf & Hcon)].
    - pose proof (Forall_lookup_1 _ _ _ _ Hnc Hi) as Hh. simpl in Hh. congruence.
    - right. exists s. repeat split; try done. cbn.
      constructor; [|done]. cbn.
      exact (Forall_lookup_1 _ _ _ _ Hcon Hi Hc). }
  rewrite Hk.
  destruct (connectionPromises w !! key) as [p|] eqn:Hp.
  { intros [= <-]. split; [done|].
    destruct Hst as [(Hnone & _)|(s & Hm & Hpr & Hn & Hw & Hf & Hcon)];
      [congruence|].
    right. exists s. repeat split; try done. cbn.
    apply Forall_app. split; [done|]. constructor; [|done]. cbn. congruence. }
  destruct (handles w !! driver h) as [d|] eqn:Hd; [|done]. simpl.
  destruct Hst as [(_ & Hprom & Hn & Hw & Hf & Hnc & Hlive)|(s & Hm & _)];
    [|congruence].
  rewrite (Forall_lookup_1 _ _ _ _ Hlive Hd).
  intros [= <-]. split; [done|]. right. exists Pending.
  unfold Marked. cbn. rewrite Hprom, Hw, Hf. cbn.
  repeat split.
  - by rewrite lookup_insert_eq.
  - by exists (driver h).
  - change (connectInvocations (invoke i (driver h) OpConnect w) = 1%nat).
    rewrite connectInvocations_invoke, Hn. done.
  - by repeat constructor.
  - done.
  - eapply Forall_impl; [exact Hnc|]. cbn. congruence.
Qed.

Lemma connectInvocations_frame (w w' : World) :
  driverCalls w' = driverCalls w → connectInvocations w' = connectInvocations w.
Proof. unfold connectInvocations. by intros ->. Qed.

Lemma settle_coherent (key : PoolKey) (p : nat) (outcome : option string)
    (w w' : World) :
  Coherent key w → settle p outcome w = Some w' →
  p = 0%nat
  ∧ Marked key Pending w
  ∧ Marked key (from_option Rejected Fulfilled outcome) w'
  ∧ Forall (λ h, poolKey h = key) (instances w').
Proof.
  intros [Hkey Hst]. unfold settle.
  destruct Hst as [(_ & Hprom & _)|(s & Hm & [d Hpr] & Hn & Hw & Hf & Hcon)].
  { rewrite Hprom. done. }
  rewrite Hpr. destruct p as [|p]; [|done]. cbn.
  destruct s; [|done|done].
  assert (Marked key Pending w) as HM.
  { unfold Marked. rewrite Hpr. eauto 10. }
  apply agrees_Pending_nil in Hf.
  destruct outcome as [reason|]; intros [= <-]; (split; [done|]);
    (split; [done|]); (split; [|done]); unfold Marked; cbn;
    rewrite Hpr, Hf; cbn.
  - repeat split; try done.
    + by exists d.
    + eapply Forall_impl; [exact Hcon|]. cbn. intros h Hh Hc.
      by specialize (Hh Hc).
  - repeat split; try done.
    + by exists d.
    + eapply Forall_impl; [exact Hcon|]. done.
Qed.

Lemma connect_resume_coherent (key : PoolKey) (n : nat) (w w' : World) :
  Coherent key w → connect_resume n w = Some w' → Coherent key w'.
Proof.
  intros [Hkey Hst]. unfold connect_resume.
  destruct (awaiting w !! n) as [[i p]|] eqn:Hn; [|done]. cbn.
  destruct Hst as [(_ & _ & _ & Hw & _)|(s & Hm & [d Hpr] & Hc & Hw & Hf & Hcon)].
  { by rewrite Hw in Hn. }
  pose proof (Forall_lookup_1 _ _ _ _ Hw Hn) as Hp. cbn in Hp. subst p.
  rewrite Hpr. cbn. destruct s as [| |reason]; [done| |]; intros [= <-].
  - split.
    + cbn. apply Forall_alter; [done|]. by intros h _.
    + right. exists Fulfilled. unfold Marked. cbn. rewrite Hpr.
      repeat split; try done.
      * by exists d.
      * by apply Forall_delete.
      * by constructor.
      * apply Forall_alter; [done|]. by intros h _.
  - split; [done|]. right. exists (Rejected reason). unfold Marked. cbn.
    rewrite Hpr. repeat split; try done.
    + by exists d.
    + by apply Forall_delete.
    + by constructor.
Qed.

Lemma disconnect_coherent (key : PoolKey) (i : nat) (outcome : option string)
    (w w' : World) :
  Coherent key w → disconnect i outcome w = Some w' → Coherent key w'.
Proof.
  intros [Hkey Hst]. unfold disconnect.
  destruct (instances w !! i) as [h|] eqn:Hi; [|done]. cbn.
  destruct (isConnected h) eqn:Hc; cbn; [|by intros [= <-]].
  destruct Hst as [(_ & _ & _ & _ & _ & Hnc & _)|(s & Hm & Hpr & Hn & Hw & Hf & Hcon)].
  { pose proof (Forall_lookup_1 _ _ _ _ Hnc Hi) as Hh. cbn in Hh. congruence. }
  destruct outcome as [reason|]; intros [= <-].
  - split; [done|]. right. exists s. unfold Marked. cbn.
    repeat split; try done.
  - split.
    + cbn. apply Forall_alter; [done|]. by intros h' _.
    + right. exists s. unfold Marked. cbn. repeat split; try done.
      apply Forall_alter; [done|]. by intros h' _.
Qed.

Lemma step_coherent (key : PoolKey) (e : Event) (w w' : World) :
  Coherent key w → step e w = Some w' → Coherent key w'.
Proof.
  intros Hco. destruct e as [i|p|p reason|n|i outcome]; cbn.
  - by apply connect_enter_coherent.
  - intros H. destruct (settle_coherent _ _ _ _ _ Hco H) as (_ & _ & HM & Hk).
    split; [done|]. right. by eexists.
  - intros H. destruct (settle_coherent _ _ _ _ _ Hco H) as (_ & _ & HM & Hk).
    split; [done|]. right. by eexists.
  - by apply connect_resume_coherent.
  - by apply disconnect_coherent.
Qed.

Lemma run_coherent (key : PoolKey) (es : list Event) (w w' : World) :
  Coherent key w → run es w = Some w' → Coherent key w'.
Proof.
  revert w. induction es as [|e es IH]; intros w Hco; cbn.
  - by intros [= <-].
  - destruct (step e w) as [w1|] eqn:He; [|done]. cbn.
    apply IH. by eapply step_coherent.
Qed.

(** *** The marker map only grows *)

(** No event removes or replaces an entry of [connectionPromises]. *)
Lemma step_marker_kept (e : Event) (w w' : World) (key : PoolKey) (p : nat) :
  step e w = Some w' → connectionPromises w !! key = Some p →
  connectionPromises w' !! key = Some p.
Proof.
  intros He Hm.
  destruct e as [i|p'|p' reason|n|i outcome]; cbn in He.
  - unfold connect_enter in He.
    destruct (instances w !! i) as [h|]; [|done]. cbn in He.
    destruct (isConnected h); [by injection He as <-|].
    destruct (connectionPromises w !! poolKey h) as [q|] eqn:Hq;
      [by injection He as <-|].
    destruct (handles w !! driver h) as [d|]; [|done]. cbn in He.
    destruct (driverIsConnected d); injection He as <-; cbn; [done|].
    rewrite lookup_insert_ne; [done|]. intros E. rewrite E in Hq.
    congruence.
  - unfold settle in He.
    destruct (promises w !! p') as [q|]; [|done]. cbn in He.
    destruct (state q); [|done|done]. by injection He as <-.
  - unfold settle in He.
    destruct (promises w !! p') as [q|]; [|done]. cbn in He.
    destruct (state q); [|done|done]. by injection He as <-.
  - unfold connect_resume in He.
    destruct (awaiting w !! n) as [[i p']|]; [|done]. cbn in He.
    destruct (promises w !! p') as [q'|]; [|done]. cbn in He.
    destruct (state q'); [done| |]; by injection He as <-.
  - unfold disconnect in He.
    destruct (instances w !! i) as [h|]; [|done]. cbn in He.
    destruct (negb (isConnected h)); [by injection He as <-|].
    destruct outcome; by injection He as <-.
Qed.

Lemma run_marker_kept (es : list Event) (w w' : World) (key : PoolKey)
    (p : nat) :
  run es w = Some w' → connectionPromises w !! key = Some p →
  connectionPromises w' !! key = Some p.
Proof.
  revert w. induction es as [|e es IH]; intros w; cbn.
  - by intros [= <-].
  - destruct (step e w) as [w1|] eqn:He; [|done]. cbn. intros Hrun Hm.
    eapply IH; [done|]. by eapply step_marker_kept.
Qed.

(** [disconnect()] leaves both static maps of the class as they are. *)
Lemma disconnect_keeps_maps (i : nat) (outcome : option string)
    (w w' : World) :
  disconnect i outcome w = Some w' →
  driversPool w' = driversPool w
  ∧ connectionPromises w' = connectionPromises w.
Proof.
  unfold disconnect. destruct (instances w !! i) as [h|]; [|done]. cbn.
  destruct (negb (isConnected h)); [by intros [= <-]|].
  destruct outcome; by intros [= <-].
Qed.

(** *** Promises settle once *)

Lemma step_promise_settled (e : Event) (w w' : World) (p : nat)
    (q : ConnectPromise) :
  step e w = Some w' → promises w !! p = Some q → state q ≠ Pending →
  promises w' !! p = Some q.
Proof.
  intros He Hq Hs.
  assert (∀ p' o, settle p' o w = Some w' → promises w' !! p = Some q) as Hsettle.
  { intros p' o. unfold settle.
    destruct (promises w !! p') as [q'|] eqn:Hq'; [|done]. cbn.
    destruct (state q') eqn:Hst; [|done|done].
    assert (p' ≠ p) as Hne by (intros ->; congruence).
    destruct o; intros [= <-]; cbn; by rewrite list_lookup_alter_ne. }
  destruct e as [i|p'|p' reason|n|i outcome]; cbn in He; eauto.
  - unfold connect_enter in He.
    destruct (instances w !! i) as [h|]; [|done]. cbn in He.
    destruct (isConnected h); [by injection He as <-|].
    destruct (connectionPromises w !! poolKey h); [by injection He as <-|].
    destruct (handles w !! driver h) as [d|]; [|done]. cbn in He.
    destruct (driverIsConnected d); injection He as <-; cbn; [done|].
    by apply lookup_app_l_Some.
  - unfold connect_resume in He.
    destruct (awaiting w !! n) as [[i p']|]; [|done]. cbn in He.
    destruct (promises w !! p') as [q'|]; [|done]. cbn in He.
    destruct (state q'); [done| |]; by injection He as <-.
  - unfold disconnect in He.
    destruct (instances w !! i) as [h|]; [|done]. cbn in He.
    destruct (negb (isConnected h)); [by injection He as <-|].
    destruct outcome; by injection He as <-.
Qed.

Lemma run_promise_settled (es : list Event) (w w' : World) (p : nat)
    (q : ConnectPromise) :
  run es w = Some w' → promises w !! p = Some q → state q ≠ Pending →
  promises w' !! p = Some q.
Proof.
  revert w. induction es as [|e es IH]; intros w; cbn.
  - by intros [= <-].
  - destruct (step e w) as [w1|] eqn:He; [|done]. cbn. intros Hrun Hq Hs.
    eapply IH; [done| |done]. by eapply step_promise_settled.
Qed.

(** A failure that occurs in a schedule is what the promise holds at the
    end of the schedule. *)
Lemma run_failure_recorded (es : list Event) (w w' : World) (p : nat)
    (reason : string) :
  DriverConnectFailed p reason ∈ es → run es w = Some w' →
  ∃ d, promises w' !! p = Some (mkPromise (Rejected reason) d).
Proof.
  intros (es1 & es2 & ->)%list_elem_of_split. rewrite run_app.
  destruct (run es1 w) as [w1|]; [|done]. cbn. unfold settle.
  destruct (promises w1 !! p) as [q|] eqn:Hq; [|done]. cbn.
  destruct (state q); [|done|done]. cbn. intros Hrun.
  exists (backing q). eapply run_promise_settled; [done| |done].
  cbn. by rewrite list_lookup_alter_eq, Hq.
Qed.

Lemma step_healthy (e : Event) (w w' : World) :
  is_failure e = false → step e w = Some w' → Healthy w → Healthy w'.
Proof.
  unfold Healthy. intros Hnf He Hh.
  destruct e as [i|p|p reason|n|i outcome]; cbn in He; [| |done| |].
  - unfold connect_enter in He.
    destruct (instances w !! i) as [h|]; [|done]. cbn in He.
    destruct (isConnected h); [by injection He as <-|].
    destruct (connectionPromises w !! poolKey h); [by injection He as <-|].
    destruct (handles w !! driver h) as [d|]; [|done]. cbn in He.
    destruct (driverIsConnected d); injection He as <-; cbn; [done|].
    apply Forall_app. split; [done|]. by repeat constructor.
  - unfold settle in He.
    destruct (promises w !! p) as [q|]; [|done]. cbn in He.
    destruct (state q); [|done|done]. injection He as <-. cbn.
    apply Forall_alter; [done|]. done.
  - unfold connect_resume in He.
    destruct (awaiting w !! n) as [[i p']|]; [|done]. cbn in He.
    destruct (promises w !! p') as [q'|]; [|done]. cbn in He.
    destruct (state q'); [done| |]; by injection He as <-.
  - unfold disconnect in He.
    destruct (instances w !! i) as [h|]; [|done]. cbn in He.
    destruct (negb (isConnected h)); [by injection He as <-|].
    destruct outcome; by injection He as <-.
Qed.

Lemma run_healthy (es : list Event) (w w' : World) :
  Forall (λ e, is_failure e = false) es → run es w = Some w' →
  Healthy w → Healthy w'.
Proof.
  revert w. induction es as [|e es IH]; intros w Hnf; cbn.
  - by intros [= <-].
  - apply Forall_cons_1 in Hnf as [He Hes].
    destruct (step e w) as [w1|] eqn:Hst; [|done]. cbn. intros Hrun Hh.
    eapply IH; [done|done|]. by eapply step_healthy.
Qed.

(** *** Every call is accounted for *)

Lemma step_participants (e : Event) (w w' : World) :
  step e w = Some w' →
  participants w' ≡ₚ callers [e] ++ participants w.
Proof.
  unfold participants. intros He.
  destruct e as [i|p|p reason|n|i outcome]; cbn in He; cbn [callers omap].
  - unfold connect_enter in He.
    destruct (instances w !! i) as [h|]; [|done]. cbn in He.
    destruct (isConnected h); [by injection He as <-|].
    destruct (connectionPromises w !! poolKey h).
    { injection He as <-. cbn. rewrite fmap_app. cbn.
      by rewrite (assoc_L (++)), <- Permutation_cons_append. }
    destruct (handles w !! driver h) as [d|]; [|done]. cbn in He.
    destruct (driverIsConnected d); injection He as <-; cbn; [done|].
    rewrite fmap_app. cbn.
    by rewrite (assoc_L (++)), <- Permutation_cons_append.
  - unfold settle in He.
    destruct (promises w !! p) as [q|]; [|done]. cbn in He.
    destruct (state q); [|done|done]. by injection He as <-.
  - unfold settle in He.
    destruct (promises w !! p) as [q|]; [|done]. cbn in He.
    destruct (state q); [|done|done]. by injection He as <-.
  - unfold connect_resume in He.
    destruct (awaiting w !! n) as [[i p']|] eqn:Hn; [|done]. cbn in He.
    destruct (promises w !! p') as [q'|]; [|done]. cbn in He.
    assert ((awaiting w).*1 ≡ₚ i :: (delete n (awaiting w)).*1) as Hperm.
    { rewrite list_fmap_delete. apply delete_Permutation.
      by rewrite list_lookup_fmap, Hn. }
    destruct (state q'); [done| |]; injection He as <-; cbn;
      rewrite Hperm; by rewrite Permutation_middle.
  - unfold disconnect in He.
    destruct (instances w !! i) as [h|]; [|done]. cbn in He.
    destruct (negb (isConnected h)); [by injection He as <-|].
    destruct outcome; by injection He as <-.
Qed.

Lemma callers_cons (e : Event) (es : list Event) :
  callers (e :: es) = callers [e] ++ callers es.
Proof. unfold callers. cbn. by destruct e. Qed.

Lemma run_participants (es : list Event) (w w' : World) :
  run es w = Some w' → participants w' ≡ₚ callers es ++ participants w.
Proof.
  revert w. induction es as [|e es IH]; intros w; cbn [run].
  - by intros [= <-].
  - destruct (step e w) as [w1|] eqn:He; [|done]. cbn [mbind option_bind].
    intros Hrun.
    rewrite (IH _ Hrun), (step_participants _ _ _ He), (callers_cons e es).
    rewrite !(assoc_L (++)). apply Permutation_app_tail, Permutation_app_comm.
Qed.

(** *** Once the backend has answered, every suspended call can end *)

Lemma drain_runs (key : PoolKey) (w : World) (s : Settlement) :
  Coherent key w → Marked key s w → s ≠ Pending →
  ∃ w', run (drain w) w = Some w'
        ∧ awaiting w' = []
        ∧ Marked key s w'.
Proof.
  unfold drain. remember (length (awaiting w)) as n eqn:Hn.
  revert w Hn. induction n as [|n IH]; intros w Hn Hco HM Hs.
  - exists w. cbn. split; [done|]. split; [|done].
    by destruct (awaiting w).
  - destruct HM as (Hm & [d Hpr] & Hc & Hw & Hf & Hcon).
    destruct (awaiting w) as [|[i p] rest] eqn:Haw; [done|].
    apply Forall_cons_1 in Hw as [Hp Hrest]. cbn in Hp. subst p.
    assert (∃ w1, connect_resume 0 w = Some w1
                  ∧ awaiting w1 = rest ∧ promises w1 = promises w)
      as (w1 & Hres & Haw1 & Hpr1).
    { unfold connect_resume. rewrite Haw, Hpr. cbn.
      destruct s; [done| |]; eexists; (split; [done|]); cbn;
        by rewrite Haw. }
    pose proof (connect_resume_coherent _ _ _ _ Hco Hres) as Hco1.
    assert (Marked key s w1) as HM1.
    { destruct Hco1 as [_ [(_ & Hnil & _)|(s1 & HM1)]].
      - rewrite Hpr1, Hpr in Hnil. done.
      - destruct HM1 as (? & [d1 Hp1] & ?). rewrite Hpr1, Hpr in Hp1.
        injection Hp1 as -> ->. unfold Marked. rewrite Hpr1, Hpr. eauto 10. }
    destruct (IH w1) as (w' & Hrun & Hnil & HM'); try done.
    { rewrite Haw1. cbn in Hn. lia. }
    exists w'. cbn. rewrite Hres. done.
Qed.

Lemma run_success_recorded (es : list Event) (w w' : World) (p : nat) :
  DriverConnected p ∈ es → run es w = Some w' →
  ∃ d, promises w' !! p = Some (mkPromise Fulfilled d).
Proof.
  intros (es1 & es2 & ->)%list_elem_of_split. rewrite run_app.
  destruct (run es1 w) as [w1|]; [|done]. cbn. unfold settle.
  destruct (promises w1 !! p) as [q|] eqn:Hq; [|done]. cbn.
  destruct (state q); [|done|done]. cbn. intros Hrun.
  exists (backing q). eapply run_promise_settled; [done| |done].
  cbn. by rewrite list_lookup_alter_eq, Hq.
Qed.

Lemma callers_drain (w : World) : callers (drain w) = [].
Proof. unfold drain. by induction (length (awaiting w)). Qed.

Lemma callers_app (es1 es2 : list Event) :
  callers (es1 ++ es2) = callers es1 ++ callers es2.
Proof. apply omap_app. Qed.

Lemma fresh_participants (key : PoolKey) (w : World) :
  Fresh key w → participants w = [].
Proof.
  intros (_ & _ & _ & _ & _ & Hw & Hf). unfold participants.
  by rewrite Hw, Hf.
Qed.

(** What a schedule from a fresh process leaves once it has called
    [connect()] at least once: the marker, in some state. *)
Lemma run_marked (key : PoolKey) (es : list Event) (w0 w : World) :
  Fresh key w0 → run es w0 = Some w → callers es ≠ [] →
  Coherent key w ∧ ∃ s, Marked key s w.
Proof.
  intros Hfresh Hrun Hcall.
  assert (Coherent key w) as Hco.
  { eapply run_coherent; [|done]. by apply fresh_coherent. }
  split; [done|]. destruct Hco as [_ [Hidle|HM]]; [|done].
  destruct Hidle as (_ & _ & _ & Hw & Hf & _).
  pose proof (run_participants _ _ _ Hrun) as Hperm.
  rewrite (fresh_participants _ _ Hfresh), app_nil_r in Hperm.
  unfold participants in Hperm. rewrite Hw, Hf in Hperm. cbn in Hperm.
  apply Permutation_nil_l in Hperm. done.
Qed.

(** After draining, the ended calls are the calls of the schedule. *)
Lemma drained_participants (key : PoolKey) (es : list Event) (w0 w w' : World) :
  Fresh key w0 → run es w0 = Some w → run (drain w) w = Some w' →
  awaiting w' = [] → (finished w').*1 ≡ₚ callers es.
Proof.
  intros Hfresh Hrun Hdrain Hnil.
  assert (run (es ++ drain w) w0 = Some w') as Hall.
  { rewrite run_app, Hrun. done. }
  pose proof (run_participants _ _ _ Hall) as Hperm.
  rewrite callers_app, callers_drain, (fresh_participants _ _ Hfresh) in Hperm.
  unfold participants in Hperm. rewrite Hnil in Hperm. cbn in Hperm.
  by rewrite !app_nil_r in Hperm.
Qed.

(** C2, as amended. From a fresh process whose instances share one
    coordination key ([this.connectionKey || this.driver]: the fingerprint
    when it is not the empty string, the handle otherwise), along every
    schedule that calls [connect()] at least twice and in which the
    backend does not fail: the backend's [connect] is invoked exactly
    once; every call that has ended has resolved, and none ends before
    the backend has completed; and once it has completed, all suspended
    calls can be resumed, after which the calls of the schedule have all
    resolved, still with a single invocation. *)
Theorem connect_is_single_flight (key : PoolKey) (w0 w : World)
    (es : list Event) :
  Fresh key w0 →
  (2 ≤ length (callers es))%nat →
  Forall (λ e, is_failure e = false) es →
  run es w0 = Some w →
  connectInvocations w = 1%nat
  ∧ Forall (λ f, f.2 = Resolved) (finished w)
  ∧ (finished w ≠ [] → ∃ d, promises w = [mkPromise Fulfilled d])
  ∧ (DriverConnected 0 ∈ es →
     ∃ w', run (drain w) w = Some w'
           ∧ awaiting w' = []
           ∧ (finished w').*1 ≡ₚ callers es
           ∧ Forall (λ f, f.2 = Resolved) (finished w')
           ∧ connectInvocations w' = 1%nat).
Proof.
  intros Hfresh Hn Hnf Hrun.
  destruct (run_marked key es w0 w) as (Hco & s & HM); try done.
  { intros E. rewrite E in Hn. cbn in Hn. lia. }
  assert (Healthy w) as Hh.
  { eapply run_healthy; [done|done|]. unfold Healthy.
    destruct Hfresh as (_ & _ & _ & -> & _). constructor. }
  pose proof HM as (Hm & [d Hpr] & Hc & Hw & Hf & Hcon).
  assert (∀ reason, s ≠ Rejected reason) as Hs.
  { intros reason. unfold Healthy in Hh. rewrite Hpr in Hh.
    apply Forall_cons_1 in Hh as [Hh _]. apply Hh. }
  assert (∀ w1, Marked key s w1 → Forall (λ f, f.2 = Resolved) (finished w1))
    as Hres.
  { intros w1 (_ & _ & _ & _ & Hf1 & _).
    eapply Forall_impl; [exact Hf1|]. intros [i []]; cbn; [done|].
    intros E. by destruct (Hs reason). }
  split; [done|]. split; [by apply Hres|]. split.
  - destruct (finished w) as [|[i c] fs]; [done|]. intros _.
    apply Forall_cons_1 in Hf as [Hag _]. cbn in Hag.
    destruct c as [|reason]; cbn in Hag; [subst s; by exists d|].
    by destruct (Hs reason).
  - intros Hdone.
    destruct (run_success_recorded _ _ _ _ Hdone Hrun) as [d' Hd'].
    rewrite Hpr in Hd'. injection Hd' as -> _.
    destruct (drain_runs key w Fulfilled) as (w' & Hdr & Hnil & HM');
      try done.
    exists w'. split; [done|]. split; [done|]. split.
    { by eapply drained_participants. }
    split; [by apply Hres|]. by destruct HM' as (_ & _ & ? & _).
Qed.


(** C9. [disconnect()] on an instance: it returns; the registry is as it
    was; if the instance is not marked connected nothing at all changes;
    if it is, the handle's [disconnect] is invoked once and, when that
    completes, the instance is no longer marked connected. *)
Theorem disconnect_effect (i : nat) (outcome : option string) (w : World)
    (h : Instance) :
  instances w !! i = Some h →
  ∃ w', disconnect i outcome w = Some w'
        ∧ driversPool w' = driversPool w
        ∧ (isConnected h = false → w' = w)
        ∧ (isConnected h = true →
           driverCalls w' = mkCall i (driver h) OpDisconnect :: driverCalls w
           ∧ (outcome = None →
              isConnected <$> instances w' !! i = Some false)).
Proof.
  intros Hi. unfold disconnect. rewrite Hi. cbn.
  destruct (isConnected h) eqn:Hc; cbn.
  - destruct outcome as [reason|]; eexists; (split; [done|]); cbn;
      (split; [done|]); (split; [done|]); intros _; (split; [done|]);
      [done|].
    intros _. by rewrite list_lookup_alter_eq, Hi.
  - exists w. repeat split; done.
Qed.

(** Instances built from one configuration share the coordination key,
    whatever handles they hold, as long as the fingerprint is not the
    empty string. *)
Lemma pooled_fresh (fingerprint : string) (drivers : list nat)
    (handles : list Handle) :
  fingerprint ≠ "" →
  Forall (λ d, driverIsConnected d = false) handles →
  Fresh (inl fingerprint) (pooled fingerprint drivers handles).
Proof.
  intros Hne Hlive. unfold Fresh, pooled. cbn.
  split; [|by rewrite lookup_empty].
  apply Forall_fmap, Forall_true. intros d. cbn. unfold poolKey. cbn.
  apply String.eqb_neq in Hne. by rewrite Hne.
Qed.

Lemma threeInstances_fresh : Fresh (inl mongoKey) threeInstances.
Proof. apply pooled_fresh; [done|]. by repeat constructor. Qed.

Lemma connect_is_single_flight_witness :
  ∃ w, run threeConnects threeInstances = Some w
       ∧ connectInvocations w = 1%nat
       ∧ finished w = [(0%nat, Resolved)]
       ∧ ∃ w', run (drain w) w = Some w'
               ∧ awaiting w' = []
               ∧ (finished w').*1 ≡ₚ [1; 0; 2]%nat
               ∧ Forall (λ f, f.2 = Resolved) (finished w').
Proof.
  destruct (run threeConnects threeInstances) as [w|] eqn:Hrun;
    [|by vm_compute in Hrun].
  exists w. split; [reflexivity|].
  destruct (connect_is_single_flight (inl mongoKey) threeInstances w
              threeConnects) as (H1 & H2 & H3 & H4).
  - repeat split; repeat constructor.
  - cbn. lia.
  - repeat constructor.
  - exact Hrun.
  - split; [exact H1|]. split.
    { vm_compute in Hrun. by injection Hrun as <-. }
    destruct H4 as (w' & Hdrain & Hnil & Hperm & Hres & _).
    + unfold threeConnects. rewrite !elem_of_cons. auto.
    + exists w'. auto.
Defined.



Lemma disconnect_effect_witness :
  ∃ w', disconnect 0 None connectedInstance = Some w'
        ∧ driversPool w' = {[ mongoKey := 0%nat ]}
        ∧ driverCalls w' = [mkCall 0 0 OpDisconnect; mkCall 0 0 OpConnect]
        ∧ isConnected <$> instances w' !! 0%nat = Some false.
Proof.
  destruct (disconnect_effect 0 None connectedInstance
              (mkInstance 0 true (Some mongoKey)) eq_refl)
    as (w' & H1 & H2 & _ & H3).
  destruct (H3 eq_refl) as [H4 H5].
  exists w'. split; [exact H1|]. split; [exact H2|]. split; [exact H4|].
  exact (H5 eq_refl).
Defined.

End CoordinatorFacts.

(** ** The facade *)

Module FacadeFacts.
Import Js Facade JsFacts.

Section Facts.
Context {DS : Type}.
Variable drv : IDriver DS.
Variable host : Host.

Local Abbreviation M := (M DS).

Lemma ensureConnected_throws (self : nat) (w : World DS) (h : Hawiah) :
  instances w !! self = Some h → isConnected h = false →
  ensureConnected self w = (Throw NOT_CONNECTED, w).
Proof.
  intros Hi Hc. unfold ensureConnected, bind, this. by rewrite Hi, Hc.
Qed.

Lemma ensureConnected_passes (self : nat) (w : World DS) (h : Hawiah) :
  instances w !! self = Some h → isConnected h = true →
  ensureConnected self w = (Ok (), w).
Proof.
  intros Hi Hc. unfold ensureConnected, bind, this. by rewrite Hi, Hc.
Qed.

Lemma bind_eq {A B} (m : M A) (k : A → M B) (w : World DS) :
  bind m k w = match m w with
               | (Ok a, w') => k a w'
               | (Throw e, w') => (Throw e, w')
               end.
Proof. reflexivity. Qed.

Lemma this_ok (self : nat) (w : World DS) (h : Hawiah) :
  instances w !! self = Some h → this self w = (Ok h, w).
Proof. unfold this. by intros ->. Qed.

(** Code that begins with a failing statement fails with it, in the state
    the statement left. *)
Lemma bind_throw {A B} (m : M A) (k : A → M B) (w w' : World DS)
    (e : string) :
  m w = (Throw e, w') → bind m k w = (Throw e, w').
Proof. unfold bind. by intros ->. Qed.

(** C8. Every operation on an instance that is not marked connected fails
    with the not-connected error and leaves the process as it was: no
    driver method is invoked, no backend state changes, and the instance
    is still not marked connected. *)
Theorem operations_require_connection (self : nat) (o : Operation)
    (w : World DS) (h : Hawiah) :
  instances w !! self = Some h →
  isConnected h = false →
  perform drv host self o w = (Throw NOT_CONNECTED, w).
Proof.
  intros Hi Hc.
  pose proof (ensureConnected_throws self w h Hi Hc) as He.
  destruct o; unfold perform, void; apply bind_throw;
    unfold insert, insertMany, get_, getOne, getAll, getMany, update,
      updateOne, save, remove, removeOne, clear, has, count, countBy,
      getById, updateById, removeById, hasId, getBy, hasBy, sort, select,
      unique, group, paginate, sum, decrement, increment, push, pull,
      shift, unshift, pop, unset, rename, rewriteEach, first, last,
      isEmpty, random, getWith, getOneWith;
    by apply bind_throw.
Qed.

End Facts.

Lemma operations_require_connection_witness :
  perform listDriver plainHost 0 (GetWith [] ["author"]) (blog false true)
  = (Throw NOT_CONNECTED, blog false true).
Proof.
  apply (operations_require_connection listDriver plainHost 0
           (GetWith [] ["author"]) (blog false true)
           (mkHawiah 0 false {[ "author" := authorRelation ]} ∅ None));
    reflexivity.
Defined.

(** *** The batch of a run of loads *)

Lemma enqueue_fresh (known keys : list Value) (k : Value) :
  k ∈ enqueue known keys → k ∈ keys ∧ k ∉ known.
Proof.
  revert known. induction keys as [|key rest IH]; intros known; cbn.
  - by intros ?%elem_of_nil.
  - destruct (includes known key) eqn:E.
    + intros [? ?]%IH. split; [by right|done].
    + apply includes_not_In in E. intros [->|Hin]%elem_of_cons.
      * split; [by left|done].
      * apply IH in Hin as [? Hn]. split; [by right|].
        intros Hk. apply Hn. by right.
Qed.

Lemma enqueue_covers (known keys : list Value) (k : Value) :
  k ∈ keys → k ∈ known ∨ k ∈ enqueue known keys.
Proof.
  revert known. induction keys as [|key rest IH]; intros known; cbn.
  - by intros ?%elem_of_nil.
  - intros [->|Hin]%elem_of_cons.
    + destruct (includes known key) eqn:E.
      * left. by apply includes_In.
      * right. by left.
    + destruct (includes known key) eqn:E.
      * by apply IH.
      * destruct (IH (key :: known) Hin) as [[->|?]%elem_of_cons|?].
        -- right. by left.
        -- by left.
        -- right. by right.
Qed.

Lemma enqueue_all_known (known keys : list Value) :
  keys ⊆ known → enqueue known keys = [].
Proof.
  intros Hsub. destruct (enqueue known keys) as [|k batch] eqn:E; [done|].
  assert (k ∈ enqueue known keys) as Hin by (rewrite E; by left).
  apply enqueue_fresh in Hin as [Hin Hn]. by destruct Hn; apply Hsub.
Qed.

Lemma enqueue_NoDup (known keys : list Value) : NoDup (enqueue known keys).
Proof.
  revert known. induction keys as [|key rest IH]; intros known; cbn.
  - constructor.
  - destruct (includes known key); [apply IH|].
    constructor; [|apply IH].
    intros [_ Hn]%enqueue_fresh. apply Hn. by left.
Qed.

(** A batch is empty only when every key is served by the cache. *)
Lemma enqueue_nil (known keys : list Value) :
  enqueue known keys = [] → keys ⊆ known.
Proof.
  intros E k Hin. destruct (enqueue_covers known keys k Hin) as [?|Hb];
    [done|]. rewrite E in Hb. by apply elem_of_nil in Hb.
Qed.

(** *** What a fetch changes *)

Section Relations.
Context {DS : Type}.
Variable drv : IDriver DS.

Lemma sameButLoaders_refl (w : World DS) : sameButLoaders w w.
Proof. intros j. destruct (instances w !! j); by constructor. Qed.

Lemma sameButLoaders_trans (w1 w2 w3 : World DS) :
  sameButLoaders w1 w2 → sameButLoaders w2 w3 → sameButLoaders w1 w3.
Proof.
  intros H12 H23 j. specialize (H12 j). specialize (H23 j).
  destruct H12 as [a b (?&?&?&?)|]; inversion H23 as [b' c (?&?&?&?)|];
    subst; constructor. repeat split; congruence.
Qed.

Lemma sameButLoaders_lookup (w w' : World DS) (j : nat) (a : Hawiah) :
  sameButLoaders w w' → instances w !! j = Some a →
  ∃ b, instances w' !! j = Some b ∧ driver b = driver a
       ∧ isConnected b = isConnected a ∧ relations b = relations a.
Proof.
  intros H Ha. specialize (H j). rewrite Ha in H.
  inversion H as [a' b (?&?&?&?)|]; subst. exists b. by repeat split.
Qed.

(** [target.get({})] leaves instances and batch log alone, and invokes at
    most the one [get] of the target's handle. *)
Lemma get_all_frame (t : nat) (w : World DS) :
  instances (get_ drv t [] None w).2 = instances w
  ∧ batchCalls (get_ drv t [] None w).2 = batchCalls w
  ∧ (driverCalls (get_ drv t [] None w).2 = driverCalls w
     ∨ ∃ d, driverCalls (get_ drv t [] None w).2
            = (d, CallGet []) :: driverCalls w).
Proof.
  unfold get_, ensureConnected, this, driver_get, onDriver, throw, ret, bind.
  destruct (instances w !! t) as [ht|] eqn:Ht; cbn; [|auto].
  destruct (isConnected ht); cbn; [|auto]. rewrite Ht.
  destruct (backends w !! driver ht) as [ds|]; cbn; [|auto].
  destruct (drv_get drv [] ds) as [[rows|e] ds']; cbn; eauto.
Qed.

(** On a connected target whose handle exists, it is exactly that one
    [get]. *)
Lemma get_all_connected (t : nat) (w : World DS) (ht : Hawiah) (ds : DS) :
  instances w !! t = Some ht → isConnected ht = true →
  backends w !! driver ht = Some ds →
  get_ drv t [] None w
  = ((drv_get drv [] ds).1,
     mkWorld (instances w) (<[driver ht := (drv_get drv [] ds).2]> (backends w))
       ((driver ht, CallGet []) :: driverCalls w) (batchCalls w)).
Proof.
  intros Ht Hc Hd.
  unfold get_, ensureConnected, this, driver_get, onDriver, throw, ret, bind.
  rewrite Ht, Hc. cbn. rewrite Ht, Hd.
  by destruct (drv_get drv [] ds) as [[rows|e] ds'].
Qed.

Lemma groupOne_length (foreignKey : string) (keys : list Value)
    (rows : list Data) :
  length (groupOne foreignKey keys rows) = length keys.
Proof. unfold groupOne. apply length_map. Qed.

Lemma groupMany_length (foreignKey : string) (keys : list Value)
    (rows : list Data) :
  length (groupMany foreignKey keys rows) = length keys.
Proof. unfold groupMany. apply length_map. Qed.

(** One call of the batch function: one entry in the batch log, one
    [target.get({})], and as many results as keys when it succeeds. *)
Lemma batchFunction_effect (relationName : string) (loader : DataLoader)
    (keys : list Value) (w : World DS) :
  let r := batchFunction drv relationName loader keys w in
  instances r.2 = instances w
  ∧ batchCalls r.2 = (relationName, keys) :: batchCalls w
  ∧ (driverCalls r.2 = driverCalls w
     ∨ ∃ d, driverCalls r.2 = (d, CallGet []) :: driverCalls w)
  ∧ (∀ values, r.1 = Ok values → length values = length keys)
  ∧ (∀ ht ds,
       instances w !! batchTarget loader = Some ht → isConnected ht = true →
       backends w !! driver ht = Some ds →
       driverCalls r.2 = (driver ht, CallGet []) :: driverCalls w
       ∧ ∀ rows, (drv_get drv [] ds).1 = Ok rows → ∃ values, r.1 = Ok values).
Proof.
  unfold batchFunction. rewrite bind_eq. cbv beta iota.
  set (w0 := mkWorld (instances w) (backends w) (driverCalls w)
               ((relationName, keys) :: batchCalls w)).
  destruct (get_all_frame (batchTarget loader) w0) as (Hi & Hb & Hd).
  assert (∀ ht ds,
            instances w !! batchTarget loader = Some ht →
            isConnected ht = true → backends w !! driver ht = Some ds →
            get_ drv (batchTarget loader) [] None w0
            = ((drv_get drv [] ds).1,
               mkWorld (instances w)
                 (<[driver ht := (drv_get drv [] ds).2]> (backends w))
                 ((driver ht, CallGet []) :: driverCalls w)
                 ((relationName, keys) :: batchCalls w))) as Hconn.
  { intros ht ds Ht Hc Hds.
    apply (get_all_connected (batchTarget loader) w0 ht ds Ht Hc Hds). }
  rewrite bind_eq.
  destruct (get_ drv (batchTarget loader) [] None w0) as [[rows|e] w1] eqn:Hg;
    cbn [fst snd] in Hi, Hb, Hd.
  - destruct (batchType loader); unfold ret; cbn [fst snd];
      (split; [done|]); (split; [done|]); (split; [done|]); split.
    + intros values [= <-]. apply groupOne_length.
    + intros ht ds Ht Hc Hds. specialize (Hconn ht ds Ht Hc Hds).
      injection Hconn as _ ->. split; [done|]. eauto.
    + intros values [= <-]. apply groupMany_length.
    + intros ht ds Ht Hc Hds. specialize (Hconn ht ds Ht Hc Hds).
      injection Hconn as _ ->. split; [done|]. eauto.
  - cbn [fst snd]. split; [done|]. split; [done|]. split; [done|]. split.
    + by intros values [=].
    + intros ht ds Ht Hc Hds. specialize (Hconn ht ds Ht Hc Hds).
      injection Hconn as Hr ->. split; [done|].
      intros rows Hrows. congruence.
Qed.

Lemma sameButLoaders_setLoader (self : nat) (relationName : string)
    (loader : DataLoader) (w : World DS) :
  sameButLoaders w (setLoader self relationName loader w).2.
Proof.
  intros j. cbn. destruct (decide (self = j)) as [->|Hne].
  - rewrite list_lookup_alter_eq. destruct (instances w !! j); by constructor.
  - rewrite list_lookup_alter_ne by done.
    destruct (instances w !! j); by constructor.
Qed.

Lemma setLoader_lookup (self : nat) (relationName : string)
    (loader : DataLoader) (w : World DS) (h : Hawiah) :
  instances w !! self = Some h →
  instances (setLoader self relationName loader w).2 !! self
  = Some (mkHawiah (driver h) (isConnected h) (relations h)
            (<[relationName := loader]> (loaders h)) (schema h)).
Proof. intros Hi. cbn. by rewrite list_lookup_alter_eq, Hi. Qed.

Lemma cachedKeys_loaderOf (h : Hawiah) (relationName : string)
    (rel : RelationConfig) :
  cachedKeys h relationName = (cacheMap (loaderOf h relationName rel)).*1.
Proof.
  unfold cachedKeys, loaderOf. by destruct (loaders h !! relationName).
Qed.

(** What [loadMany] does to the process, by the batch it has to fetch. *)
Lemma loadMany_effect (self : nat) (relationName : string)
    (keys : list Value) (w : World DS) (h : Hawiah) (loader : DataLoader) :
  instances w !! self = Some h →
  loaders h !! relationName = Some loader →
  let batch := enqueue (cacheMap loader).*1 keys in
  let r := loadMany drv self relationName keys w in
  (∃ results, r.1 = Ok results ∧ length results = length keys)
  ∧ sameButLoaders w r.2
  ∧ (batch = [] → r.2 = w)
  ∧ (∃ h2 l2, instances r.2 !! self = Some h2
              ∧ loaders h2 !! relationName = Some l2
              ∧ ((cacheMap l2).*1 = (cacheMap loader).*1
                 ∨ (cacheMap l2).*1 = (cacheMap loader).*1 ++ batch))
  ∧ (batch ≠ [] →
     batchCalls r.2 = (relationName, batch) :: batchCalls w
     ∧ (driverCalls r.2 = driverCalls w
        ∨ ∃ d, driverCalls r.2 = (d, CallGet []) :: driverCalls w)
     ∧ ∀ ht ds,
         instances w !! batchTarget loader = Some ht →
         isConnected ht = true →
         backends w !! driver ht = Some ds →
         driverCalls r.2 = (driver ht, CallGet []) :: driverCalls w
         ∧ ∀ rows, (drv_get drv [] ds).1 = Ok rows →
             ∃ h2 l2, instances r.2 !! self = Some h2
                      ∧ loaders h2 !! relationName = Some l2
                      ∧ (cacheMap l2).*1 = (cacheMap loader).*1 ++ batch).
Proof.
  intros Hi Hl batch r. subst r. unfold loadMany. rewrite bind_eq.
  rewrite (this_ok _ _ _ Hi), Hl. fold batch.
  destruct batch as [|k batch'] eqn:Hbatch.
  { cbn. split; [eexists; split; [done|by rewrite length_map]|].
    split; [apply sameButLoaders_refl|]. split; [done|].
    split; [|done]. exists h, loader. auto. }
  rewrite <- Hbatch.
  assert (batch ≠ []) as Hne by (subst batch; by rewrite Hbatch).
  clear Hbatch. rewrite bind_eq. unfold attempt.
  pose proof (batchFunction_effect relationName loader batch w)
    as (Hinst & Hlog & Hcalls & Hlen & Hconn).
  destruct (batchFunction drv relationName loader batch w) as [[values|e] w2]
    eqn:Hbf; cbn [fst snd] in *.
  - specialize (Hlen values eq_refl).
    rewrite bind_eq.
    set (loader' := mkLoader _ _ _ _).
    assert (instances w2 !! self = Some h) as Hi2 by by rewrite Hinst.
    pose proof (setLoader_lookup self relationName loader' w2 h Hi2) as Hset.
    pose proof (sameButLoaders_setLoader self relationName loader' w2) as Hsame.
    destruct (setLoader self relationName loader' w2) as [[[]|e] w3] eqn:Hsl;
      [|by cbv in Hsl].
    cbn [fst snd] in *.
    assert (batchCalls w3 = batchCalls w2 ∧ driverCalls w3 = driverCalls w2)
      as [Hb3 Hd3].
    { unfold setLoader, update_this in Hsl. by injection Hsl as <-. }
    assert ((cacheMap loader').*1 = (cacheMap loader).*1 ++ batch) as Hcache.
    { subst loader'. cbn. rewrite fmap_app, fst_zip; [done|lia]. }
    unfold ret. cbn [fst snd].
    split; [eexists; split; [done|by rewrite length_map]|].
    split.
    { eapply sameButLoaders_trans; [|exact Hsame].
      intros j. rewrite Hinst. destruct (instances w !! j); by constructor. }
    split; [done|]. split.
    { eexists _, loader'. split; [exact Hset|]. cbn.
      rewrite lookup_insert_eq. auto. }
    intros _. rewrite Hb3, Hd3. split; [done|]. split; [done|].
    intros ht ds Ht Hc Hd. destruct (Hconn ht ds Ht Hc Hd) as [Hcall _].
    split; [done|]. intros rows _.
    eexists _, loader'. split; [exact Hset|]. cbn.
    by rewrite lookup_insert_eq.
  - unfold ret. cbn [fst snd].
    split; [eexists; split; [done|by rewrite length_map]|].
    split.
    { intros j. rewrite Hinst. destruct (instances w !! j); by constructor. }
    split; [done|]. split.
    { exists h, loader. rewrite Hinst. auto. }
    intros _. split; [done|]. split; [done|].
    intros ht ds Ht Hc Hd. destruct (Hconn ht ds Ht Hc Hd) as [Hcall Hok].
    split; [done|]. intros rows Hrows.
    destruct (Hok rows Hrows) as [values Hv]. done.
Qed.

(** The first step of [loadRelation]: afterwards the loader is in
    [this.loaders], and nothing else has changed. *)
Lemma install_loader (self : nat) (relationName : string)
    (rel : RelationConfig) (w : World DS) (h : Hawiah) :
  instances w !! self = Some h →
  ∃ w1 h1,
    match loaders h !! relationName with
    | Some _ => ret ()
    | None =>
        setLoader self relationName
          (mkLoader (target rel) (foreignKey rel) (relType rel) [])
    end w = (Ok (), w1)
    ∧ instances w1 !! self = Some h1
    ∧ loaders h1 !! relationName = Some (loaderOf h relationName rel)
    ∧ sameButLoaders w w1
    ∧ backends w1 = backends w
    ∧ driverCalls w1 = driverCalls w
    ∧ batchCalls w1 = batchCalls w.
Proof.
  intros Hi. unfold loaderOf.
  destruct (loaders h !! relationName) as [loader|] eqn:Hl; cbn.
  - exists w, h. repeat split; try done. apply sameButLoaders_refl.
  - eexists _, _. split; [done|]. split.
    { cbn. by rewrite list_lookup_alter_eq, Hi. }
    split; [cbn; by rewrite lookup_insert_eq|].
    split; [|done].
    apply (sameButLoaders_setLoader self relationName _ w).
Qed.

(** What one call of [loadRelation] does, by the keys it looks up and the
    batch it has to fetch. *)
Lemma loadRelation_effect (self : nat) (records : list Data)
    (relationName : string) (w : World DS) (h : Hawiah)
    (rel : RelationConfig) :
  instances w !! self = Some h →
  relations h !! relationName = Some rel →
  let keys := lookupKeys (localKey rel) records in
  let batch := enqueue (cachedKeys h relationName) keys in
  let r := loadRelation drv self records relationName w in
  sameButLoaders w r.2
  ∧ (∃ h', instances r.2 !! self = Some h'
           ∧ (cachedKeys h' relationName = cachedKeys h relationName
              ∨ cachedKeys h' relationName
                = cachedKeys h relationName ++ batch))
  ∧ (keys = [] → r.1 = Ok records)
  ∧ (keys ≠ [] →
     ∃ results,
       r.1 = Ok (writeBack relationName (localKey rel) (relType rel)
                   records results)
       ∧ length results = length keys)
  ∧ (batch = [] →
     batchCalls r.2 = batchCalls w ∧ driverCalls r.2 = driverCalls w
     ∧ backends r.2 = backends w)
  ∧ (batch ≠ [] →
     batchCalls r.2 = (relationName, batch) :: batchCalls w
     ∧ (driverCalls r.2 = driverCalls w
        ∨ ∃ d, driverCalls r.2 = (d, CallGet []) :: driverCalls w)
     ∧ ∀ ht ds,
         instances w !! batchTarget (loaderOf h relationName rel) = Some ht →
         isConnected ht = true →
         backends w !! driver ht = Some ds →
         driverCalls r.2 = (driver ht, CallGet []) :: driverCalls w
         ∧ ∀ rows, (drv_get drv [] ds).1 = Ok rows →
             ∃ h', instances r.2 !! self = Some h'
                   ∧ cachedKeys h' relationName
                     = cachedKeys h relationName ++ batch).
Proof.
  intros Hi Hrel. cbv zeta. unfold loadRelation.
  rewrite bind_eq, (this_ok _ _ _ Hi), Hrel, bind_eq.
  destruct (install_loader self relationName rel w h Hi)
    as (w1 & h1 & -> & Hi1 & Hl1 & Hsame & Hback & Hcalls & Hlog).
  generalize (lookupKeys (localKey rel) records). intros keys.
  assert (cachedKeys h1 relationName = cachedKeys h relationName) as Hck.
  { rewrite (cachedKeys_loaderOf h relationName rel).
    unfold cachedKeys. by rewrite Hl1. }
  destruct keys as [|k keys'].
  { unfold ret. cbn [fst snd enqueue].
    split; [done|]. split; [eauto|]. split; [done|]. split; [done|].
    split; [by rewrite Hback, Hcalls, Hlog|]. done. }
  cbv iota.
  remember (k :: keys') as keys eqn:Hkeys.
  assert (keys ≠ []) as Hne by (by subst keys).
  clear Hkeys k keys'. rewrite bind_eq.
  set (batch := enqueue (cachedKeys h relationName) keys).
  pose proof (loadMany_effect self relationName keys w1 h1 _ Hi1 Hl1)
    as ([results [Hres Hlen]] & Hsame1 & Hnil & (h2 & l2 & Hi2 & Hl2 & Hc2)
        & Hfetch).
  rewrite <- (cachedKeys_loaderOf h relationName rel) in Hnil, Hc2, Hfetch.
  fold batch in Hnil, Hc2, Hfetch.
  destruct (loadMany drv self relationName keys w1) as [r1 w2] eqn:Hlm.
  cbn [fst snd] in *. subst r1. unfold ret. cbn [fst snd].
  assert (cachedKeys h2 relationName = (cacheMap l2).*1) as Hck2.
  { unfold cachedKeys. by rewrite Hl2. }
  split; [by eapply sameButLoaders_trans|].
  split; [exists h2; split; [done|]; by rewrite Hck2|].
  split; [done|]. split; [eauto|]. split.
  { intros E. rewrite (Hnil E). done. }
  intros Hb. destruct (Hfetch Hb) as (Hlog2 & Hcalls2 & Hconn).
  rewrite Hlog2, Hlog. split; [done|]. split; [by rewrite <- Hcalls|].
  intros ht ds Ht Hc Hd.
  destruct (sameButLoaders_lookup _ _ _ _ Hsame Ht) as (ht1 & Ht1 & Hd1 & Hc1 & _).
  destruct (Hconn ht1 ds Ht1) as [Hcall Hok].
  { congruence. }
  { by rewrite Hd1, Hback. }
  rewrite Hcall, Hd1, Hcalls. split; [done|]. intros rows Hrows.
  destruct (Hok rows Hrows) as (h3 & l3 & Hi3 & Hl3 & Hc3).
  exists h3. split; [done|]. unfold cachedKeys at 1. by rewrite Hl3.
Qed.

(** The closing loop keeps the records in place and gives a record whose
    local key is null the empty result. *)
Lemma writeBack_length (relationName localKey : string) (type : RelationType)
    (records : list Data) (results : list Value) :
  length (writeBack relationName localKey type records results)
  = length records.
Proof.
  revert results. induction records as [|record rest IH]; intros results;
    [done|]. cbn. destruct (negb (nullish (get record localKey))); cbn;
    by rewrite IH.
Qed.

Lemma writeBack_in_place (relationName localKey : string)
    (type : RelationType) (records : list Data) (results : list Value)
    (i : nat) (record : Data) :
  records !! i = Some record →
  ∃ v, writeBack relationName localKey type records results !! i
       = Some (set record relationName v)
       ∧ (nullish (get record localKey) = true → v = emptyResult type).
Proof.
  revert results i. induction records as [|r rest IH]; intros results i;
    [done|]. destruct i as [|i]; cbn.
  - intros [= ->]. destruct (nullish (get record localKey)); cbn; eauto.
    eexists. split; [done|]. done.
  - intros Hi. destruct (negb (nullish (get r localKey))); cbn; by apply IH.
Qed.

(** C4, as amended. One call of relationship resolution over records of
    which at least one has a non-null local key, none of the keys being
    cached: the batch function is called exactly once, with exactly the
    keys of the records, so one [get] is issued against the target; at
    most that one [get] reaches a backend, and exactly that one when the
    target is connected. *)
Theorem one_fetch_per_resolution (self : nat) (records : list Data)
    (relationName : string) (w : World DS) (h : Hawiah)
    (rel : RelationConfig) :
  instances w !! self = Some h →
  relations h !! relationName = Some rel →
  lookupKeys (localKey rel) records ≠ [] →
  Forall (λ k, k ∉ cachedKeys h relationName)
    (lookupKeys (localKey rel) records) →
  let w' := (loadRelation drv self records relationName w).2 in
  (∃ batch, batchCalls w' = (relationName, batch) :: batchCalls w
            ∧ ∀ k, k ∈ batch ↔ k ∈ lookupKeys (localKey rel) records)
  ∧ (driverCalls w' = driverCalls w
     ∨ ∃ d, driverCalls w' = (d, CallGet []) :: driverCalls w)
  ∧ (∀ ht ds,
       instances w !! batchTarget (loaderOf h relationName rel) = Some ht →
       isConnected ht = true →
       backends w !! driver ht = Some ds →
       driverCalls w' = (driver ht, CallGet []) :: driverCalls w).
Proof.
  intros Hi Hrel Hkeys Hfresh w'. subst w'.
  destruct (loadRelation_effect self records relationName w h rel Hi Hrel)
    as (_ & _ & _ & _ & _ & Hfetch).
  set (keys := lookupKeys (localKey rel) records) in *.
  set (batch := enqueue (cachedKeys h relationName) keys) in *.
  assert (∀ k, k ∈ batch ↔ k ∈ keys) as Hsame.
  { intros k. split.
    - by intros [? _]%enqueue_fresh.
    - intros Hk.
      destruct (enqueue_covers (cachedKeys h relationName) keys k Hk)
        as [Hc|?]; [|done].
      by destruct (proj1 (Forall_forall _ _) Hfresh k Hk). }
  assert (batch ≠ []) as Hne.
  { destruct keys as [|k keys'] eqn:E; [done|].
    intros Hb. assert (k ∈ batch) as Hk by (apply Hsame; by left).
    rewrite Hb in Hk. by apply elem_of_nil in Hk. }
  destruct (Hfetch Hne) as (Hlog & Hcalls & Hconn).
  split; [by exists batch|]. split; [done|].
  intros ht ds Ht Hc Hd. by destruct (Hconn ht ds Ht Hc Hd).
Qed.

(** Fetching changes the state of a handle, never the number of
    handles. *)
Lemma get_all_backends (t : nat) (w : World DS) :
  length (backends (get_ drv t [] None w).2) = length (backends w).
Proof.
  unfold get_, ensureConnected, this, driver_get, onDriver, throw, ret, bind.
  destruct (instances w !! t) as [ht|] eqn:Ht; cbn; [|done].
  destruct (isConnected ht); cbn; [|done]. rewrite Ht.
  destruct (backends w !! driver ht) as [ds|]; cbn; [|done].
  destruct (drv_get drv [] ds) as [[rows|e] ds']; cbn;
    by rewrite length_insert.
Qed.

Lemma batchFunction_backends (relationName : string) (loader : DataLoader)
    (keys : list Value) (w : World DS) :
  length (backends (batchFunction drv relationName loader keys w).2)
  = length (backends w).
Proof.
  unfold batchFunction. rewrite bind_eq. cbv beta iota.
  set (w0 := mkWorld (instances w) (backends w) (driverCalls w)
               ((relationName, keys) :: batchCalls w)).
  rewrite bind_eq.
  pose proof (get_all_backends (batchTarget loader) w0) as H.
  destruct (get_ drv (batchTarget loader) [] None w0) as [[rows|e] w1];
    cbn [snd] in H; [by destruct (batchType loader)|done].
Qed.

Lemma loadRelation_backends (self : nat) (records : list Data)
    (relationName : string) (w : World DS) :
  length (backends (loadRelation drv self records relationName w).2)
  = length (backends w).
Proof.
  unfold loadRelation. rewrite bind_eq. unfold this.
  destruct (instances w !! self) as [h|] eqn:Hi; [|done].
  destruct (relations h !! relationName) as [rel|]; [|done].
  rewrite bind_eq.
  destruct (install_loader self relationName rel w h Hi)
    as (w1 & h1 & -> & Hi1 & Hl1 & _ & Hback & _).
  rewrite <- Hback.
  destruct (lookupKeys (localKey rel) records) as [|k keys]; [done|].
  rewrite bind_eq. unfold loadMany.
  rewrite bind_eq, (this_ok _ _ _ Hi1), Hl1.
  destruct (enqueue _ (k :: keys)) as [|b batch]; [done|].
  rewrite bind_eq. unfold attempt.
  pose proof (batchFunction_backends relationName
                (loaderOf h relationName rel) (b :: batch) w1) as Hbf.
  destruct (batchFunction drv relationName (loaderOf h relationName rel)
              (b :: batch) w1) as [[values|e] w2]; cbn [snd] in Hbf;
    [|done].
  rewrite bind_eq. by cbn.
Qed.

(** C5, as amended. After a resolution whose fetch the connected target
    answered, for keys that are primitive values: a second resolution of
    the same relationship with an overlapping key set hands none of the
    keys of the first to the batch function, issues at most one [get],
    and issues neither a batch nor a [get] when its keys are all among
    those of the first; after [clearCache()] the same resolution calls
    the batch function once, with all its keys, and that call issues one
    [get] on the handle of the declared target. *)
Theorem resolved_keys_are_cached (self : nat) (records1 records2 : list Data)
    (relationName : string) (w : World DS) (h ht ht' : Hawiah)
    (rel : RelationConfig) (ds : DS) (rows : list Data) (k0 : Value) :
  instances w !! self = Some h →
  relations h !! relationName = Some rel →
  instances w !! batchTarget (loaderOf h relationName rel) = Some ht →
  isConnected ht = true →
  backends w !! driver ht = Some ds →
  (drv_get drv [] ds).1 = Ok rows →
  instances w !! target rel = Some ht' →
  isConnected ht' = true →
  (driver ht' < length (backends w))%nat →
  k0 ∈ lookupKeys (localKey rel) records1 →
  k0 ∈ lookupKeys (localKey rel) records2 →
  Forall (λ k, Kinds.primitive k = true)
    (lookupKeys (localKey rel) records1 ++ lookupKeys (localKey rel) records2) →
  let keys1 := lookupKeys (localKey rel) records1 in
  let keys2 := lookupKeys (localKey rel) records2 in
  let w1 := (loadRelation drv self records1 relationName w).2 in
  let w2 := (loadRelation drv self records2 relationName w1).2 in
  let w3 := (clearCache self w2).2 in
  let w4 := (loadRelation drv self records2 relationName w3).2 in
  (∃ fetched, batchCalls w2 = fetched ++ batchCalls w1
              ∧ ∀ name batch k,
                  (name, batch) ∈ fetched → k ∈ batch → k ∉ keys1)
  ∧ (driverCalls w2 = driverCalls w1
     ∨ ∃ d, driverCalls w2 = (d, CallGet []) :: driverCalls w1)
  ∧ (keys2 ⊆ keys1 →
     batchCalls w2 = batchCalls w1 ∧ driverCalls w2 = driverCalls w1)
  ∧ (∃ batch, batchCalls w4 = (relationName, batch) :: batchCalls w3
              ∧ keys2 ⊆ batch)
  ∧ driverCalls w4 = (driver ht', CallGet []) :: driverCalls w3.
Proof.
  intros Hi Hrel Ht Hc Hd Hrows Ht' Hc' Hd' Hk1 Hk2 _ keys1 keys2 w1 w2 w3 w4.
  (* the first resolution *)
  pose proof (loadRelation_effect self records1 relationName w h rel Hi Hrel)
    as H1. cbv zeta in H1. fold keys1 in H1. fold w1 in H1.
  destruct H1 as (Hsame1 & (h1 & Hi1 & Hcache1) & _ & _ & Hnil1 & Hfetch1).
  destruct (sameButLoaders_lookup _ _ _ _ Hsame1 Hi)
    as (h1' & Hi1' & _ & _ & Hrel1).
  rewrite Hi1 in Hi1'. injection Hi1' as <-. rewrite <- Hrel1 in Hrel.
  assert (keys1 ⊆ cachedKeys h1 relationName) as Hcached.
  { set (batch1 := enqueue (cachedKeys h relationName) keys1) in *.
    destruct (decide (batch1 = [])) as [E|Hne].
    - pose proof (enqueue_nil _ _ E) as Hsub.
      rewrite E, app_nil_r in Hcache1. by destruct Hcache1 as [->| ->].
    - destruct (Hfetch1 Hne) as (_ & _ & Hconn).
      destruct (Hconn ht ds Ht Hc Hd) as [_ Hok].
      destruct (Hok rows Hrows) as (h1'' & Hi1'' & Hck).
      rewrite Hi1 in Hi1''. injection Hi1'' as <-. rewrite Hck.
      intros k Hk. apply elem_of_app.
      destruct (enqueue_covers (cachedKeys h relationName) keys1 k Hk);
        auto. }
  (* the second resolution *)
  pose proof (loadRelation_effect self records2 relationName w1 h1 rel
                Hi1 Hrel) as H2.
  cbv zeta in H2. fold keys2 in H2. fold w2 in H2.
  destruct H2 as (Hsame2 & _ & _ & _ & Hnil2 & Hfetch2).
  set (batch2 := enqueue (cachedKeys h1 relationName) keys2) in *.
  split; [|split; [|split; [|split]]].
  - destruct (decide (batch2 = [])) as [E|Hne].
    + exists []. destruct (Hnil2 E) as (-> & _). split; [done|].
      by intros ??? ?%elem_of_nil.
    + exists [(relationName, batch2)]. destruct (Hfetch2 Hne) as (-> & _).
      split; [done|]. intros name batch k [= -> ->]%list_elem_of_singleton Hk.
      apply enqueue_fresh in Hk as [_ Hk]. intros Hin. apply Hk.
      by apply Hcached.
  - destruct (decide (batch2 = [])) as [E|Hne].
    + left. by destruct (Hnil2 E) as (_ & -> & _).
    + by destruct (Hfetch2 Hne) as (_ & ? & _).
  - intros Hsub. destruct Hnil2 as (? & ? & _); [|done].
    apply enqueue_all_known. intros k Hk. by apply Hcached, Hsub.
  - (* clearing, then the third resolution *)
    destruct (sameButLoaders_lookup _ _ _ _ Hsame2 Hi1)
      as (h2 & Hi2 & _ & _ & Hrel2).
    set (h3 := mkHawiah (driver h2) (isConnected h2) (relations h2) ∅
                 (schema h2)).
    assert (instances w3 !! self = Some h3) as Hi3.
    { subst w3. cbn. by rewrite list_lookup_alter_eq, Hi2. }
    assert (relations h3 !! relationName = Some rel) as Hrel3.
    { cbn. by rewrite Hrel2. }
    pose proof (loadRelation_effect self records2 relationName w3 h3 rel
                  Hi3 Hrel3) as H3.
    cbv zeta in H3. fold keys2 in H3. fold w4 in H3.
    destruct H3 as (_ & _ & _ & _ & _ & Hfetch3).
    assert (cachedKeys h3 relationName = []) as Hempty.
    { unfold cachedKeys. cbn. by rewrite lookup_empty. }
    rewrite Hempty in Hfetch3.
    assert (keys2 ⊆ enqueue [] keys2) as Hall.
    { intros k Hk. destruct (enqueue_covers [] keys2 k Hk) as [Hn|?]; [|done].
      by apply elem_of_nil in Hn. }
    destruct Hfetch3 as (Hlog & _).
    { intros E. specialize (Hall k0 Hk2). rewrite E in Hall.
      by apply elem_of_nil in Hall. }
    by exists (enqueue [] keys2).
  - (* the fetch after clearing goes to the declared target *)
    destruct (sameButLoaders_lookup _ _ _ _ Hsame2 Hi1)
      as (h2 & Hi2 & _ & _ & Hrel2).
    set (h3 := mkHawiah (driver h2) (isConnected h2) (relations h2) ∅
                 (schema h2)).
    assert (instances w3 !! self = Some h3) as Hi3.
    { subst w3. cbn. by rewrite list_lookup_alter_eq, Hi2. }
    assert (relations h3 !! relationName = Some rel) as Hrel3.
    { cbn. by rewrite Hrel2. }
    pose proof (loadRelation_effect self records2 relationName w3 h3 rel
                  Hi3 Hrel3) as H3.
    cbv zeta in H3. fold keys2 in H3. fold w4 in H3.
    destruct H3 as (_ & _ & _ & _ & _ & Hfetch3).
    assert (cachedKeys h3 relationName = []) as Hempty.
    { unfold cachedKeys. cbn. by rewrite lookup_empty. }
    rewrite Hempty in Hfetch3.
    assert (batchTarget (loaderOf h3 relationName rel) = target rel)
      as Htarget.
    { unfold loaderOf. cbn. by rewrite lookup_empty. }
    rewrite Htarget in Hfetch3.
    destruct Hfetch3 as (_ & _ & Hcall).
    { intros E. pose proof (enqueue_covers [] keys2 k0 Hk2) as [Hn|Hn].
      - by apply elem_of_nil in Hn.
      - rewrite E in Hn. by apply elem_of_nil in Hn. }
    destruct (sameButLoaders_lookup _ _ _ _ Hsame1 Ht')
      as (t1 & Ht1 & Hdr1 & Hco1 & _).
    destruct (sameButLoaders_lookup _ _ _ _ Hsame2 Ht1)
      as (t2 & Ht2 & Hdr2 & Hco2 & _).
    assert (∃ t3, instances w3 !! target rel = Some t3
                  ∧ driver t3 = driver ht' ∧ isConnected t3 = true)
      as (t3 & Ht3 & Hdr3 & Hco3).
    { subst w3. cbn. destruct (decide (target rel = self)) as [E|Hne].
      - rewrite E in Ht2 |- *. rewrite list_lookup_alter_eq, Hi2.
        rewrite Hi2 in Ht2. injection Ht2 as ->.
        eexists. split; [done|]. cbn. split; congruence.
      - rewrite list_lookup_alter_ne by done. exists t2.
        repeat split; congruence. }
    assert (length (backends w3) = length (backends w)) as Hlen.
    { subst w3 w2 w1. cbn [clearCache update_this snd backends].
      by rewrite !loadRelation_backends. }
    destruct (lookup_lt_is_Some_2 (backends w3) (driver t3)) as [ds3 Hds3].
    { rewrite Hlen, Hdr3. done. }
    destruct (Hcall t3 ds3 Ht3 Hco3 Hds3) as [-> _]. by rewrite Hdr3.
Qed.

(** A batch with at least one non-null local key: the records come back in
    the caller's order, each with the relation field set, and a record
    whose local key is null gets the empty result of the cardinality. *)
Lemma loadRelation_mixed_batch (self : nat) (records : list Data)
    (relationName : string) (w : World DS) (h : Hawiah)
    (rel : RelationConfig) :
  instances w !! self = Some h →
  relations h !! relationName = Some rel →
  lookupKeys (localKey rel) records ≠ [] →
  ∃ out, (loadRelation drv self records relationName w).1 = Ok out
         ∧ length out = length records
         ∧ ∀ i record, records !! i = Some record →
             ∃ v, out !! i = Some (set record relationName v)
                  ∧ (nullish (get record (localKey rel)) = true →
                     v = emptyResult (relType rel)).
Proof.
  intros Hi Hrel Hkeys.
  destruct (loadRelation_effect self records relationName w h rel Hi Hrel)
    as (_ & _ & _ & Hout & _).
  destruct (Hout Hkeys) as (results & -> & _). eexists. split; [done|].
  split; [apply writeBack_length|]. intros i record.
  apply writeBack_in_place.
Qed.

End Relations.

(** C3. At a batch in which every record has a null local key,
    [loadRelation] returns before the loop that writes the results: the
    record comes back without the relation field and no fetch is issued.
    The same record in a batch that also holds a non-null key is given
    [null], after the other record. *)
Theorem all_null_batch_is_left_unassigned :
  loadRelation listDriver 0 [draft] "author" (blog true true)
  = (Ok [draft],
     (setLoader 0 "author" (mkLoader 1 "id" one []) (blog true true)).2)
  ∧ has_key draft "author" = false
  ∧ (loadRelation listDriver 0 [post10; draft] "author" (blog true true)).1
    = Ok [set post10 "author" (VObj ann); set draft "author" VNull].
Proof. split; [|split]; by vm_compute. Qed.

(** C4 as stated fails at a batch of one record whose local key is null:
    nothing is cached, and no fetch is issued at all. *)
Lemma all_null_batch_issues_no_fetch :
  lookupKeys "authorId" [draft] = []
  ∧ batchCalls (loadRelation listDriver 0 [draft] "author" (blog true true)).2
    = []
  ∧ driverCalls (loadRelation listDriver 0 [draft] "author" (blog true true)).2
    = [].
Proof. split; [|split]; by vm_compute. Qed.

Lemma one_fetch_per_resolution_witness :
  (∃ batch,
     batchCalls (loadRelation listDriver 0 [post10; post11; post12; draft]
                   "author" (blog true true)).2
     = [("author", batch)])
  ∧ driverCalls (loadRelation listDriver 0 [post10; post11; post12; draft]
                   "author" (blog true true)).2
    = [(1%nat, CallGet [])].
Proof.
  destruct (one_fetch_per_resolution listDriver 0
              [post10; post11; post12; draft] "author" (blog true true)
              (mkHawiah 0 true {[ "author" := authorRelation ]} ∅ None)
              authorRelation)
    as ((batch & Hlog & _) & _ & Hget).
  - reflexivity.
  - by vm_compute.
  - by vm_compute.
  - vm_compute. repeat constructor; apply not_elem_of_nil.
  - split; [by exists batch|].
    apply (Hget (mkHawiah 1 true ∅ ∅ None) [ann; bob]); reflexivity.
Defined.

Lemma resolved_keys_are_cached_witness :
  let w1 := (loadRelation listDriver 0 [post10; draft] "author"
               (blog true true)).2 in
  let w2 := (loadRelation listDriver 0 [post10; post11] "author" w1).2 in
  let w3 := (clearCache 0 w2).2 in
  let w4 := (loadRelation listDriver 0 [post10; post11] "author" w3).2 in
  batchCalls w2 = batchCalls w1
  ∧ driverCalls w2 = driverCalls w1
  ∧ driverCalls w4 = (1%nat, CallGet []) :: driverCalls w3.
Proof.
  destruct (resolved_keys_are_cached listDriver 0 [post10; draft]
              [post10; post11] "author" (blog true true)
              (mkHawiah 0 true {[ "author" := authorRelation ]} ∅ None)
              (mkHawiah 1 true ∅ ∅ None) (mkHawiah 1 true ∅ ∅ None)
              authorRelation [ann; bob] [ann; bob] (VNum 1))
    as (_ & _ & Hsame & _ & Hfresh).
  - reflexivity.
  - by vm_compute.
  - by vm_compute.
  - reflexivity.
  - reflexivity.
  - reflexivity.
  - reflexivity.
  - reflexivity.
  - cbn. lia.
  - vm_compute. by left.
  - vm_compute. by left.
  - vm_compute. by repeat constructor.
  - cbv zeta. split; [|split; [|exact Hfresh]]; apply Hsame;
      change ([VNum 1; VNum 1] ⊆ [VNum 1]); intros k;
      rewrite !elem_of_cons; tauto.
Defined.

(** C5 as stated fails when the first fetch is refused: with the target
    not connected the keys of the first resolution are not kept, and
    resolving the same key again calls the batch function, and with it
    [target.get({})], once more. *)
Lemma refused_fetch_is_not_cached :
  let w1 := (loadRelation listDriver 0 [post10] "author"
               (blog true false)).2 in
  let r2 := loadRelation listDriver 0 [post10] "author" w1 in
  lookupKeys "authorId" [post10] = [VNum 1]
  ∧ batchCalls w1 = [("author", [VNum 1])]
  ∧ batchCalls r2.2 = [("author", [VNum 1]); ("author", [VNum 1])]
  ∧ r2.1 = Ok [set post10 "author" (VError NOT_CONNECTED)].
Proof. cbv zeta. repeat split; by vm_compute. Qed.

End FacadeFacts.

(** ** Plain objects *)

Module ObjectFacts.
Import Js.

Lemma get_set_eq (o : Obj) (key : string) (v : Value) :
  get (set o key v) key = v.
Proof.
  induction o as [|[k w] o IH]; cbn.
  - by rewrite String.eqb_refl.
  - destruct (String.eqb k key) eqn:E; cbn; by rewrite E.
Qed.

Lemma get_set_ne (o : Obj) (key key' : string) (v : Value) :
  key ≠ key' → get (set o key v) key' = get o key'.
Proof.
  intros Hne. induction o as [|[k w] o IH]; cbn.
  - apply String.eqb_neq in Hne. by rewrite Hne.
  - destruct (String.eqb k key) eqn:E; cbn.
    + apply String.eqb_eq in E as ->. apply String.eqb_neq in Hne.
      by rewrite Hne.
    + by rewrite IH.
Qed.

Lemma has_key_set (o : Obj) (key key' : string) (v : Value) :
  has_key (set o key v) key' = has_key o key' || String.eqb key key'.
Proof.
  induction o as [|[k w] o IH]; cbn.
  - by destruct (String.eqb key key').
  - destruct (String.eqb k key) eqn:E; cbn.
    + apply String.eqb_eq in E as ->.
      destruct (String.eqb key key'); [done|]. by rewrite orb_false_r.
    + rewrite IH. by destruct (String.eqb k key').
Qed.

Lemma has_key_false_get (o : Obj) (key : string) :
  has_key o key = false → get o key = VUndefined.
Proof.
  induction o as [|[k w] o IH]; cbn; [done|].
  by destruct (String.eqb k key).
Qed.

(** A property that the second object lacks comes from the first. *)
Lemma get_spread_absent (a b : Obj) (key : string) :
  has_key b key = false → get (spread a b) key = get a key.
Proof.
  unfold spread. revert a. induction b as [|[k w] b IH]; intros a; cbn;
    [done|].
  destruct (String.eqb k key) eqn:E; [done|]. intros Hb.
  rewrite (IH _ Hb). apply get_set_ne. by apply String.eqb_neq.
Qed.

Lemma has_key_spread (a b : Obj) (key : string) :
  has_key (spread a b) key = has_key a key || has_key b key.
Proof.
  unfold spread. revert a. induction b as [|[k w] b IH]; intros a; cbn.
  - by rewrite orb_false_r.
  - rewrite IH, has_key_set. destruct (String.eqb k key);
      by destruct (has_key a key), (has_key b key).
Qed.

End ObjectFacts.

(** ** The schema validator *)

Module SchemaFacts.
Import Js Facade ObjectFacts Samples.

Section Facts.
Variable host : Host.

(** A field that is not [undefined] goes through the loop untouched. *)
Lemma validateFrom_keeps (definition : SchemaDefinition) (isPartial : bool)
    (validatedData out : Data) (key : string) :
  validateFrom host definition isPartial validatedData = Ok out →
  is_undefined (get validatedData key) = false →
  get out key = get validatedData key.
Proof.
  revert validatedData.
  induction definition as [|[k rule] rest IH]; intros vd; cbn.
  - by intros [= <-].
  - destruct (_ && (_ || _)); [done|].
    destruct (_ && negb (checkType _ _ _)); [done|].
    intros Hrest Hdef.
    destruct (negb isPartial && is_undefined (get vd k)
              && negb (is_undefined (rule_default rule))) eqn:Happly.
    + assert (k ≠ key) as Hne.
      { intros ->. apply andb_true_iff in Happly as [Ha _].
        apply andb_true_iff in Ha as [_ Ha]. congruence. }
      rewrite (IH _ Hrest); [by apply get_set_ne|].
      by rewrite get_set_ne.
    + by apply IH.
Qed.

(** A field that no rule names goes through the loop untouched. *)
Lemma validateFrom_other (definition : SchemaDefinition) (isPartial : bool)
    (validatedData out : Data) (key : string) :
  validateFrom host definition isPartial validatedData = Ok out →
  key ∉ definition.*1 →
  get out key = get validatedData key.
Proof.
  revert validatedData.
  induction definition as [|[k rule] rest IH]; intros vd; cbn.
  - by intros [= <-].
  - destruct (_ && (_ || _)); [done|].
    destruct (_ && negb (checkType _ _ _)); [done|].
    intros Hrest Hnot. apply not_elem_of_cons in Hnot as [Hne Hnot].
    rewrite (IH _ Hrest Hnot).
    destruct (_ && _ && _); [by apply get_set_ne|done].
Qed.

(** Whatever a field holds at the end is what it held at the start or the
    default of a rule for it. *)
Lemma validateFrom_origin (definition : SchemaDefinition) (isPartial : bool)
    (validatedData out : Data) (key : string) :
  validateFrom host definition isPartial validatedData = Ok out →
  get out key = get validatedData key
  ∨ ∃ rule, (key, rule) ∈ definition ∧ get out key = rule_default rule.
Proof.
  revert validatedData.
  induction definition as [|[k rule] rest IH]; intros vd; cbn.
  - intros [= <-]. by left.
  - destruct (_ && (_ || _)); [done|].
    destruct (_ && negb (checkType _ _ _)); [done|].
    intros Hrest. destruct (IH _ Hrest) as [Heq|(rule' & Hin & Heq)].
    + destruct (_ && _ && _); [|by left].
      destruct (decide (k = key)) as [->|Hne].
      * right. exists rule. split; [by left|].
        by rewrite Heq, get_set_eq.
      * left. by rewrite Heq, get_set_ne.
    + right. exists rule'. split; [by right|done].
Qed.


(** X22. Partial validation changes nothing and never asks for a missing
    field: it returns the data as given, or throws the type error of a
    field that is present. *)
Theorem validate_partial (definition : SchemaDefinition) (data : Data) :
  match validate host definition data true with
  | Ok out => out = data
  | Throw e =>
      ∃ key rule, (key, rule) ∈ definition
                  ∧ e = typeMessage key (rule_type rule)
                  ∧ nullish (get data key) = false
                  ∧ checkType host (get data key) (rule_type rule) = false
  end.
Proof.
  unfold validate. induction definition as [|[k r] rest IH]; cbn; [done|].
  destruct (negb (is_undefined (get data k)) && negb (is_null (get data k))
            && negb (String.eqb (rule_type r) "any")
            && negb (checkType host (get data k) (rule_type r))) eqn:Hty.
  - exists k, r. split; [by left|]. split; [done|].
    apply andb_true_iff in Hty as [Hty Hc].
    apply andb_true_iff in Hty as [Hty _].
    apply andb_true_iff in Hty as [Hu Hn].
    split; [by destruct (get data k)|]. by apply negb_true_iff.
  - destruct (validateFrom host rest true data) as [out|e]; [done|].
    destruct IH as (key & rule & Hin & ? & ? & ?).
    exists key, rule. split; [by right|done].
Qed.

(** X23. Full validation only fills gaps: a field that the data defines keeps
    its value, a field that no rule names is left alone, and any other
    field is still undefined or holds the default of a rule for it. *)
Theorem validate_fills_only_gaps (definition : SchemaDefinition)
    (data out : Data) (isPartial : bool) (key : string) :
  validate host definition data isPartial = Ok out →
  (is_undefined (get data key) = false → get out key = get data key)
  ∧ (key ∉ definition.*1 → get out key = get data key)
  ∧ (get out key = get data key
     ∨ ∃ rule, (key, rule) ∈ definition ∧ isPartial = false
               ∧ is_undefined (rule_default rule) = false
               ∧ get out key = rule_default rule).
Proof.
  unfold validate. intros Hval.
  split; [exact (validateFrom_keeps _ _ _ _ key Hval)|].
  split; [exact (validateFrom_other _ _ _ _ key Hval)|].
  destruct isPartial.
  { left. pose proof (validate_partial definition data) as Hp.
    unfold validate in Hp. rewrite Hval in Hp. by subst. }
  destruct (validateFrom_origin _ _ _ _ key Hval) as [?|(rule & Hin & Heq)];
    [by left|].
  destruct (is_undefined (rule_default rule)) eqn:Hd.
  - left. destruct (is_undefined (get data key)) eqn:Hu.
    + rewrite Heq. by destruct (rule_default rule), (get data key).
    + exact (validateFrom_keeps _ _ _ _ key Hval Hu).
  - right. by exists rule.
Qed.

End Facts.


Lemma validate_fills_only_gaps_witness :
  get [("username", VStr "ali"); ("visits", VNum 0)] "username"
  = VStr "ali".
Proof.
  destruct (validate_fills_only_gaps plainHost userSchema
              [("username", VStr "ali")]
              [("username", VStr "ali"); ("visits", VNum 0)] false
              "username" eq_refl) as [H _].
  exact (H eq_refl).
Defined.

End SchemaFacts.

(** ** More on the fingerprint *)

Module FingerprintMore.
Import Js Fingerprint JsFacts FingerprintFacts.

Section Facts.
Variable Number_toString : Z → string.
Variable JSON_stringify : Value → string.

Local Abbreviation appendKey := (appendKey Number_toString JSON_stringify).
Local Abbreviation getPoolKey := (getPoolKey Number_toString JSON_stringify).

(** X1. The fingerprint is a function of the driver's name, of whether it
    has [table], of the override identity, and of the entries whose key is
    not ignored, in their order: two calls that agree on these return the
    same key, whether the driver is given as a class or as an instance. *)
Theorem getPoolKey_reads_only_relevant (driver1 driver2 : DriverRef)
    (config1 config2 : Obj) :
  driverName driver1 = driverName driver2 →
  supportsTable driver1 = supportsTable driver2 →
  without (ignoreKeys (supportsTable driver1)) config1
  = without (ignoreKeys (supportsTable driver1)) config2 →
  override config1 = override config2 →
  getPoolKey driver1 config1 = getPoolKey driver2 config2.
Proof.
  intros Hname Hsup Heq Hov. unfold Fingerprint.getPoolKey.
  unfold override in Hov.
  destruct (truthy (get config1 "connectionKey")),
           (truthy (get config2 "connectionKey")); try congruence.
  rewrite <- Hsup, <- Hname. f_equal.
  rewrite (fold_appendKey_without _ _ _ config1).
  rewrite (fold_appendKey_without _ _ _ config2).
  by rewrite Heq.
Qed.

(** X2. Without an override identity, two configurations that differ only
    in the string bound to one key that is not ignored get different
    fingerprints, whatever the driver. *)
Theorem getPoolKey_separates_values (driver : DriverRef) (pre post : Obj)
    (key value1 value2 : string) :
  has (ignoreKeys (supportsTable driver)) key = false →
  override (pre ++ (key, VStr value1) :: post) = None →
  value1 ≠ value2 →
  getPoolKey driver (pre ++ (key, VStr value1) :: post)
  ≠ getPoolKey driver (pre ++ (key, VStr value2) :: post).
Proof.
  intros Hkey Hov Hne.
  assert (key ≠ "connectionKey") as Hck.
  { intros ->. by rewrite connectionKey_ignored in Hkey. }
  assert (override (pre ++ (key, VStr value2) :: post) = None) as Hov'.
  { apply override_None. rewrite (get_middle_ne pre post key _ _ Hck).
    rewrite <- (get_middle_ne pre post key _ (VStr value1) Hck).
    by apply override_None. }
  rewrite !(getPoolKey_no_override Number_toString JSON_stringify) by done.
  remember (ignoreKeys (supportsTable driver)) as ignore eqn:Hign.
  clear Hign. intros H. injection H as H. apply Hne.
  rewrite !fold_appendKey_app in H. apply String.app_inj in H.
  rewrite !fold_string_entry in H by done.
  apply append_inv_tail in H.
  apply (String.app_inj "|") in H. apply String.app_inj in H.
  by apply (String.app_inj ":") in H.
Qed.

(** X3. The key is not injective: a string value that contains the text
    of a further entry gets the fingerprint of the configuration that
    really has that entry. *)
Theorem getPoolKey_collides (driver : DriverRef) (pre post : Obj)
    (key1 key2 value1 value2 : string) :
  has (ignoreKeys (supportsTable driver)) key1 = false →
  has (ignoreKeys (supportsTable driver)) key2 = false →
  override (pre ++ post) = None →
  getPoolKey driver
    (pre ++ (key1, VStr (value1 +:+ "|" +:+ key2 +:+ ":" +:+ value2)) :: post)
  = getPoolKey driver
      (pre ++ (key1, VStr value1) :: (key2, VStr value2) :: post).
Proof.
  intros Hk1 Hk2 Hov.
  assert (∀ key, has (ignoreKeys (supportsTable driver)) key = false →
                 key ≠ "connectionKey") as Hck.
  { intros key Hkey ->. by rewrite connectionKey_ignored in Hkey. }
  assert (∀ v, override (pre ++ (key1, v) :: post) = None) as Hov1.
  { intros v. apply override_None.
    rewrite (get_middle_ne pre post key1 _ _ (Hck _ Hk1)).
    by apply override_None. }
  assert (override (pre ++ (key1, VStr value1) :: (key2, VStr value2) :: post)
          = None) as Hov2.
  { apply override_None.
    rewrite (get_middle_ne pre _ key1 _ _ (Hck _ Hk1)).
    rewrite (get_middle_ne pre post key2 _ _ (Hck _ Hk2)).
    by apply override_None. }
  rewrite !(getPoolKey_no_override Number_toString JSON_stringify) by done.
  f_equal. rewrite !fold_appendKey_app. f_equal.
  rewrite !fold_string_entry by done. rewrite !append_assoc.
  by rewrite (append_cons "|"), append_nil_l.
Qed.

End Facts.

Lemma getPoolKey_reads_only_relevant_witness :
  getPoolKey decimal noObjects (DriverClass "SqliteDriver" true)
    [("filename", VStr "db.sqlite"); ("table", VStr "users")]
  = getPoolKey decimal noObjects (DriverInstance "SqliteDriver" false true)
      [("filename", VStr "db.sqlite"); ("table", VStr "logs")].
Proof.
  apply (getPoolKey_reads_only_relevant decimal noObjects); reflexivity.
Defined.

Lemma getPoolKey_separates_values_witness :
  getPoolKey decimal noObjects (DriverClass "SqliteDriver" true)
    [("filename", VStr "a.sqlite"); ("table", VStr "users")]
  ≠ getPoolKey decimal noObjects (DriverClass "SqliteDriver" true)
      [("filename", VStr "b.sqlite"); ("table", VStr "users")].
Proof.
  apply (getPoolKey_separates_values decimal noObjects
           (DriverClass "SqliteDriver" true) []
           [("table", VStr "users")] "filename" "a.sqlite" "b.sqlite");
    [reflexivity|reflexivity|discriminate].
Defined.

Lemma getPoolKey_collides_witness :
  getPoolKey decimal noObjects (DriverClass "MongoDriver" true)
    [("uri", VStr "mongodb://a|dbName:shop")]
  = getPoolKey decimal noObjects (DriverClass "MongoDriver" true)
      [("uri", VStr "mongodb://a"); ("dbName", VStr "shop")].
Proof.
  apply (getPoolKey_collides decimal noObjects
           (DriverClass "MongoDriver" true) [] [] "uri" "dbName"
           "mongodb://a" "shop"); reflexivity.
Defined.

End FingerprintMore.

(** ** More on the coordinator *)

Module CoordinatorMore.
Import Coordinator Schedules CoordinatorFacts.

Lemma step_driversPool (e : Event) (w w' : World) :
  step e w = Some w' → driversPool w' = driversPool w.
Proof.
  intros He. destruct e as [i|p|p reason|n|i outcome]; cbn in He.
  - unfold connect_enter in He.
    destruct (instances w !! i) as [h|]; [|done]. cbn in He.
    destruct (isConnected h); [by injection He as <-|].
    destruct (connectionPromises w !! poolKey h); [by injection He as <-|].
    destruct (handles w !! driver h) as [d|]; [|done]. cbn in He.
    destruct (driverIsConnected d); by injection He as <-.
  - unfold settle in He.
    destruct (promises w !! p) as [q|]; [|done]. cbn in He.
    destruct (state q); [|done|done]. by injection He as <-.
  - unfold settle in He.
    destruct (promises w !! p) as [q|]; [|done]. cbn in He.
    destruct (state q); [|done|done]. by injection He as <-.
  - unfold connect_resume in He.
    destruct (awaiting w !! n) as [[i p']|]; [|done]. cbn in He.
    destruct (promises w !! p') as [q'|]; [|done]. cbn in He.
    destruct (state q'); [done| |]; by injection He as <-.
  - by apply disconnect_keeps_maps in He as [? _].
Qed.

(** X4. Whatever the process and the schedule of [connect()] and
    [disconnect()] calls and of backend answers, for any instances and
    keys: the registry of handles is left as it was, and no marker is
    ever removed from [connectionPromises] or replaced there. *)
Theorem static_maps_only_grow (es : list Event) (w w' : World) :
  run es w = Some w' →
  driversPool w' = driversPool w
  ∧ connectionPromises w ⊆ connectionPromises w'.
Proof.
  intros Hrun. split.
  - revert w Hrun. induction es as [|e es IH]; intros w; cbn.
    + by intros [= <-].
    + destruct (step e w) as [w1|] eqn:He; [|done]. cbn. intros Hrun.
      rewrite (IH _ Hrun). by eapply step_driversPool.
  - apply map_subseteq_spec. intros key p Hm.
    by eapply run_marker_kept.
Qed.

(** X5. Once the backend's [connect] has succeeded for a key, a later
    [connect()] of an instance of that key that is not marked connected
    (a new instance, or one that has disconnected) suspends on the old
    marker and, when resumed, resolves and marks the instance connected:
    the backend's [connect] is not invoked again and no handle changes,
    so a handle that [disconnect()] has closed stays closed. *)
Theorem connect_after_success_reuses_marker (key : PoolKey) (w0 w : World)
    (es : list Event) (p i : nat) (h : Instance) :
  Fresh key w0 →
  DriverConnected p ∈ es →
  run es w0 = Some w →
  instances w !! i = Some h →
  isConnected h = false →
  ∃ w', run [Connect i; Resume (length (awaiting w))] w = Some w'
        ∧ isConnected <$> instances w' !! i = Some true
        ∧ driverCalls w' = driverCalls w
        ∧ handles w' = handles w
        ∧ awaiting w' = awaiting w
        ∧ finished w' = (i, Resolved) :: finished w.
Proof.
  intros Hfresh Hdone Hrun Hi Hnc.
  assert (Coherent key w) as [Hkey Hst].
  { eapply run_coherent; [|done]. by apply fresh_coherent. }
  destruct (run_success_recorded _ _ _ _ Hdone Hrun) as [d Hd].
  destruct Hst as [(_ & Hnil & _)|(s & Hm & [d' Hpr] & _)].
  { by rewrite Hnil in Hd. }
  rewrite Hpr in Hd. destruct p as [|p]; [|done]. injection Hd as -> ->.
  pose proof (Forall_lookup_1 _ _ _ _ Hkey Hi) as Hk. cbn in Hk.
  cbn. unfold connect_enter. rewrite Hi. cbn. rewrite Hnc, Hk, Hm. cbn.
  unfold connect_resume. cbn [awaiting suspend].
  rewrite (list_lookup_middle (awaiting w) [] (i, 0%nat)) by done.
  cbn. rewrite Hpr. cbn. eexists. split; [done|]. cbn.
  rewrite list_lookup_alter_eq, Hi. repeat split; try done.
  by rewrite delete_middle, app_nil_r.
Qed.

Lemma static_maps_only_grow_witness :
  ∃ w, run refusedThenRetried threeInstances = Some w
       ∧ driversPool w = driversPool threeInstances
       ∧ connectionPromises threeInstances ⊆ connectionPromises w.
Proof.
  destruct (run refusedThenRetried threeInstances) as [w|] eqn:Hrun;
    [|by vm_compute in Hrun].
  exists w. split; [reflexivity|].
  exact (static_maps_only_grow refusedThenRetried threeInstances w Hrun).
Defined.

Lemma connect_after_success_reuses_marker_witness :
  ∃ w w', run connectThenDisconnect threeInstances = Some w
          ∧ run connectAgain w = Some w'
          ∧ isConnected <$> instances w' !! 0%nat = Some true
          ∧ driverCalls w' = driverCalls w
          ∧ handles w' = handles w.
Proof.
  destruct (run connectThenDisconnect threeInstances) as [w|] eqn:Hrun;
    [|by vm_compute in Hrun].
  exists w.
  assert (instances w !! 0%nat = Some (mkInstance 0 false (Some mongoKey))
          ∧ awaiting w = []) as [Hi Haw].
  { vm_compute in Hrun. by injection Hrun as <-. }
  destruct (connect_after_success_reuses_marker (inl mongoKey)
              threeInstances w connectThenDisconnect 0 0
              (mkInstance 0 false (Some mongoKey))
              threeInstances_fresh) as (w' & H1 & H2 & H3 & H4 & _).
  - unfold connectThenDisconnect. rewrite !elem_of_cons. auto.
  - exact Hrun.
  - exact Hi.
  - reflexivity.
  - exists w'. rewrite Haw in H1. auto.
Defined.

(** C2 as stated fails for an empty fingerprint: a driver class without
    a name gives two table configurations the fingerprint [""], the
    instances then coordinate by their own handles, and two interleaved
    [connect()] calls invoke the backend's [connect] twice. *)
Lemma empty_fingerprint_connects_per_handle :
  Fingerprint.getPoolKey Fingerprint.decimal Fingerprint.noObjects
    namelessClass [("table", Js.VStr "users")] = Js.VStr ""
  ∧ Fingerprint.getPoolKey Fingerprint.decimal Fingerprint.noObjects
      namelessClass [("table", Js.VStr "posts")] = Js.VStr ""
  ∧ poolKey <$> instances twoTables = [inr 0%nat; inr 1%nat]
  ∧ ∃ w, run bothConnect twoTables = Some w
         ∧ connectInvocations w = 2%nat
         ∧ finished w = [(1%nat, Resolved); (0%nat, Resolved)]
         ∧ awaiting w = [].
Proof.
  split; [reflexivity|]. split; [reflexivity|]. split; [reflexivity|].
  eexists. split; [vm_compute; reflexivity|]. by vm_compute.
Qed.

End CoordinatorMore.

(** ** The in-memory backend *)

Module MemoryFacts.
Import Js Facade Memory JsFacts ObjectFacts.

Section Facts.
Variable inherited : Read → string → Read.
Variable toISOString : nat → string.

Local Abbreviation prop := (Memory.prop inherited).
Local Abbreviation matchesValue := (Memory.matchesValue inherited).
Local Abbreviation matches := (Memory.matches inherited).
Local Abbreviation get := (Memory.get inherited).
Local Abbreviation getOne := (Memory.getOne inherited).
Local Abbreviation exists_ := (Memory.exists_ inherited).
Local Abbreviation count := (Memory.count inherited).
Local Abbreviation delete := (Memory.delete inherited).
Local Abbreviation set := (Memory.set toISOString).
Local Abbreviation update := (Memory.update inherited toISOString).
Local Abbreviation updateFrom := (Memory.updateFrom inherited toISOString).
Local Abbreviation patched := (Memory.patched toISOString).
Local Abbreviation newRecord := (Memory.newRecord toISOString).
Local Abbreviation performAll := (Memory.performAll inherited toISOString).
Local Abbreviation perform := (Memory.perform inherited toISOString).

Lemma matches_cons (record : Data) (key : string) (v : Value) (query : Query) :
  matches record ((key, v) :: query)
  = (if isObject v then
       if readIsObject (prop (Plain (VObj record)) key)
       then matchesValue (prop (Plain (VObj record)) key) v
       else false
     else strictEquals (prop (Plain (VObj record)) key) v)
    && matches record query.
Proof. reflexivity. Qed.

Lemma matches_app (record : Data) (query1 query2 : Query) :
  matches record (query1 ++ query2)
  = matches record query1 && matches record query2.
Proof.
  induction query1 as [|[key v] query1 IH]; [done|].
  rewrite <- app_comm_cons, !matches_cons, IH. by rewrite andb_assoc.
Qed.

(** Reading an own property of a record. *)
Lemma prop_own (record : Data) (key : string) :
  has_key record key = true →
  prop (Plain (VObj record)) key = Plain (Js.get record key).
Proof. intros H. unfold Memory.prop. cbn [own]. by rewrite H. Qed.

Lemma prop_inherited (record : Data) (key : string) :
  has_key record key = false →
  prop (Plain (VObj record)) key = inherited (Plain (VObj record)) key.
Proof. intros H. unfold Memory.prop. cbn [own]. by rewrite H. Qed.

Lemma has_key_elem (o : Obj) (key : string) :
  has_key o key = true ↔ key ∈ o.*1.
Proof.
  induction o as [|[k w] o IH]; cbn.
  - split; [done|]. by intros ?%elem_of_nil.
  - rewrite elem_of_cons, <- IH. destruct (String.eqb k key) eqn:E.
    + apply String.eqb_eq in E. split; [by left|done].
    + apply String.eqb_neq in E. split; [by right|].
      by intros [->|].
Qed.

(** A property of the second object wins. *)
Lemma get_spread_present (a b : Obj) (key : string) :
  NoDup b.*1 → has_key b key = true → Js.get (spread a b) key = Js.get b key.
Proof.
  unfold spread. revert a. induction b as [|[k w] b IH]; intros a; cbn;
    [done|].
  intros [Hk Hb]%NoDup_cons. destruct (String.eqb k key) eqn:E.
  - intros _. apply String.eqb_eq in E as ->.
    assert (has_key b key = false) as Habs.
    { destruct (has_key b key) eqn:Hh; [|done].
      by apply has_key_elem in Hh. }
    exact (eq_trans (get_spread_absent (Js.set a key w) b key Habs)
             (get_set_eq a key w)).
  - intros Hkey. by apply IH.
Qed.

Lemma filter_cons_bool {A : Type} (f : A → bool) (x : A) (l : list A) :
  filter (λ y, f y) (x :: l)
  = if f x then x :: filter (λ y, f y) l else filter (λ y, f y) l.
Proof. rewrite filter_cons. by destruct (f x). Qed.

(** X6. A query none of whose values is an object or an array selects
    the records that, for each entry of the query, have the key as an own
    property bound to the very value of the query, or do not have it and
    inherit that very value under the key.  So the empty query selects
    every record, and an entry [k: undefined] selects the records without
    [k] only when nothing is inherited under [k]. *)
Theorem flat_query_is_equality (record : Data) (query : Query) :
  flat query = true →
  (matches record query = true
   ↔ Forall (λ kv, if has_key record kv.1
                   then Js.get record kv.1 = kv.2
                   else inherited (Plain (VObj record)) kv.1 = Plain kv.2)
       query).
Proof.
  induction query as [|[key v] query IH].
  - intros _. split; [by constructor|done].
  - unfold flat. cbn [forallb snd]. intros [Hv Hq]%andb_prop.
    apply negb_true_iff in Hv.
    rewrite matches_cons, Hv, andb_true_iff, Forall_cons, (IH Hq).
    cbn [fst snd]. destruct (has_key record key) eqn:Hown.
    + rewrite (prop_own _ _ Hown). cbn [strictEquals].
      by rewrite Value_eqb_eq.
    + rewrite (prop_inherited _ _ Hown).
      destruct (inherited (Plain (VObj record)) key) as [x| |id];
        cbn [strictEquals].
      * rewrite Value_eqb_eq. split; intros [H ?]; (split; [|done]);
          congruence.
      * split; intros [H ?]; done.
      * split; intros [H ?]; done.
Qed.

(** X7. Querying with the properties of two queries together selects,
    from what the first selects, what the second selects, in the same
    order; [count] and [exists] follow. *)
Theorem get_conjunction (query1 query2 : Query) (s : MemoryDriver) :
  get (query1 ++ query2) s
  = filter (λ record, matches record query2) (get query1 s)
  ∧ (exists_ (query1 ++ query2) s = true →
     exists_ query1 s = true ∧ exists_ query2 s = true)
  ∧ count (query1 ++ query2) s ≤ count query1 s.
Proof.
  unfold Memory.get, Memory.exists_, Memory.count.
  assert (filter (λ record, matches record (query1 ++ query2)) (data s)
          = filter (λ record, matches record query2)
              (filter (λ record, matches record query1) (data s))) as Hget.
  { rewrite list_filter_filter. apply list_filter_iff. intros record.
    rewrite matches_app, andb_True. tauto. }
  split; [done|]. split.
  - rewrite !existsb_exists. intros (record & Hin & Hm).
    rewrite matches_app in Hm. apply andb_prop in Hm as [H1 H2].
    split; by exists record.
  - rewrite Hget. pose proof (length_filter
      (λ record, matches record query2)
      (filter (λ record, matches record query1) (data s))). lia.
Qed.

(** X8. The read operations agree with one another: [count] is the length
    of what [get] returns, [exists] holds when that is not empty, and
    [getOne] returns its first record, or [null] when there is none. *)
Theorem reads_agree (query : Query) (s : MemoryDriver) :
  count query s = Z.of_nat (length (get query s))
  ∧ exists_ query s = bool_decide (0 < count query s)
  ∧ getOne query s = head (get query s).
Proof.
  unfold Memory.get, Memory.exists_, Memory.count, Memory.getOne.
  split; [done|].
  induction (data s) as [|record l [IH1 IH2]]; [done|].
  cbn [existsb find]. rewrite filter_cons_bool.
  destruct (matches record query) eqn:E; cbn [orb length head].
  - split; [|done]. symmetry. apply bool_decide_eq_true. lia.
  - done.
Qed.

(** X9. [delete] returns the number of records that matched; afterwards
    none matches, the counter of ids is as it was, and any query finds
    what it found before without the deleted records, in the same order. *)
Theorem delete_effect (query : Query) (s : MemoryDriver) :
  (delete query s).1 = count query s
  ∧ count query (delete query s).2 = 0
  ∧ exists_ query (delete query s).2 = false
  ∧ getOne query (delete query s).2 = None
  ∧ idCounter (delete query s).2 = idCounter s
  ∧ ∀ query', get query' (delete query s).2
              = filter (λ record, negb (matches record query)) (get query' s).
Proof.
  unfold Memory.delete, Memory.count, Memory.exists_, Memory.getOne,
    Memory.get. cbn [fst snd data idCounter].
  split; [|split; [|split; [|split; [|split]]]].
  - induction (data s) as [|record l IH]; [done|].
    rewrite !filter_cons_bool.
    destruct (matches record query); cbn [negb length]; lia.
  - induction (data s) as [|record l IH]; [done|].
    rewrite filter_cons_bool.
    destruct (matches record query) eqn:E; cbn [negb]; [done|].
    by rewrite filter_cons_bool, E.
  - induction (data s) as [|record l IH]; [done|].
    rewrite filter_cons_bool.
    destruct (matches record query) eqn:E; cbn [negb existsb]; [done|].
    by rewrite E.
  - induction (data s) as [|record l IH]; [done|].
    rewrite filter_cons_bool.
    destruct (matches record query) eqn:E; cbn [negb find]; [done|].
    by rewrite E.
  - done.
  - intros query'. rewrite !list_filter_filter. apply list_filter_iff.
    intros record. tauto.
Qed.

Lemma updateFrom_effect (query : Query) (d : Data) (records : list Data)
    (clock : nat) :
  (updateFrom query d records clock).1.2
  = Z.of_nat (length (filter (λ record, matches record query) records))
  ∧ (updateFrom query d records clock).2
    = (clock + length (filter (λ record, matches record query) records))%nat
  ∧ length (updateFrom query d records clock).1.1 = length records
  ∧ ∀ i record, records !! i = Some record →
      if matches record query
      then ∃ c, (updateFrom query d records clock).1.1 !! i
                = Some (patched record d c)
                ∧ (clock ≤ c < (updateFrom query d records clock).2)%nat
      else (updateFrom query d records clock).1.1 !! i = Some record.
Proof.
  revert clock. induction records as [|r l IH]; intros clock.
  - cbn. repeat split; try done; lia.
  - cbn [Memory.updateFrom]. rewrite filter_cons_bool.
    destruct (matches r query) eqn:E.
    + specialize (IH (S clock)).
      destruct (updateFrom query d l (S clock)) as [[l' n] c'] eqn:Hu.
      cbn [fst snd length] in *. destruct IH as (IH1 & IH2 & IH3 & IH4).
      split; [lia|]. split; [lia|]. split; [by rewrite IH3|].
      intros [|i] record Hi; cbn in Hi.
      * injection Hi as <-. rewrite E. exists clock. split; [done|]. lia.
      * specialize (IH4 i record Hi).
        destruct (matches record query); [|done].
        destruct IH4 as (c & Hc & Hle). exists c. split; [done|]. lia.
    + specialize (IH clock).
      destruct (updateFrom query d l clock) as [[l' n] c'] eqn:Hu.
      cbn [fst snd length] in *. destruct IH as (IH1 & IH2 & IH3 & IH4).
      split; [lia|]. split; [lia|]. split; [by rewrite IH3|].
      intros [|i] record Hi; cbn in Hi.
      * injection Hi as <-. by rewrite E.
      * exact (IH4 i record Hi).
Qed.

(** X10. [update] returns the number of records that matched before it
    ran; it keeps the number and the order of the records and the counter
    of ids; a record that did not match is left as it was, and one that
    matched becomes [{...record, ...data, _updatedAt}] with a reading of
    the clock made during the call, so it keeps every property that
    [data] does not name. *)
Theorem update_effect (query : Query) (d : Data) (s : MemoryDriver) :
  (update query d s).1 = count query s
  ∧ length (data (update query d s).2) = length (data s)
  ∧ idCounter (update query d s).2 = idCounter s
  ∧ ∀ i record, data s !! i = Some record →
      if matches record query
      then ∃ c, data (update query d s).2 !! i = Some (patched record d c)
                ∧ (clockReads s ≤ c < clockReads (update query d s).2)%nat
                ∧ Js.get (patched record d c) "_updatedAt"
                  = VStr (toISOString c)
                ∧ ∀ key, has_key d key = false → key ≠ "_updatedAt" →
                         Js.get (patched record d c) key = Js.get record key
      else data (update query d s).2 !! i = Some record.
Proof.
  pose proof (updateFrom_effect query d (data s) (clockReads s))
    as (H1 & H2 & H3 & H4).
  unfold Memory.update, count.
  destruct (updateFrom query d (data s) (clockReads s)) as [[l' n] c'].
  cbn [fst snd data idCounter clockReads] in *.
  split; [done|]. split; [done|]. split; [done|].
  intros i record Hi. specialize (H4 i record Hi).
  destruct (matches record query); [|done].
  destruct H4 as (c & Hc & Hle). exists c. split; [done|]. split; [done|].
  unfold Memory.patched. split; [apply get_set_eq|].
  intros key Habs Hne. rewrite get_set_ne by done.
  by apply get_spread_absent.
Qed.

Lemma idOf_newRecord (s : MemoryDriver) (d : Data) :
  has_key d "_id" = false → idOf (newRecord s d) = VNum (idCounter s).
Proof.
  intros Habs. unfold idOf, Memory.newRecord.
  rewrite get_set_ne by done. by rewrite get_spread_absent.
Qed.

Lemma idOf_patched (record d : Data) (c : nat) :
  has_key d "_id" = false → idOf (patched record d c) = idOf record.
Proof.
  intros Habs. unfold idOf, Memory.patched.
  rewrite get_set_ne by done. by rewrite get_spread_absent.
Qed.

Lemma updateFrom_ids (query : Query) (d : Data) (records : list Data)
    (clock : nat) :
  has_key d "_id" = false →
  idOf <$> (updateFrom query d records clock).1.1 = idOf <$> records.
Proof.
  intros Habs. revert clock.
  induction records as [|r l IH]; intros clock; [done|].
  cbn [Memory.updateFrom]. destruct (matches r query).
  - specialize (IH (S clock)).
    destruct (updateFrom query d l (S clock)) as [[l' n] c'].
    cbn [fst snd] in *. rewrite !fmap_cons, IH. by rewrite idOf_patched.
  - specialize (IH clock).
    destruct (updateFrom query d l clock) as [[l' n] c'].
    cbn [fst snd] in *. by rewrite !fmap_cons, IH.
Qed.

Lemma Numbered_ids (s : MemoryDriver) :
  Numbered s
  ↔ Forall (λ v, ∃ n, v = VNum n ∧ n < idCounter s) (idOf <$> data s)
    ∧ NoDup (idOf <$> data s).
Proof. unfold Numbered. by rewrite Forall_fmap. Qed.

Lemma perform_numbered (c : Call) (s : MemoryDriver) :
  leavesId c = true → Numbered s → Numbered (perform c s).
Proof.
  intros Hc. rewrite !Numbered_ids. intros [Hids Hnd].
  destruct c as [| |d|query d|query|]; cbn [Memory.perform leavesId] in *.
  - split; constructor.
  - split; constructor.
  - apply negb_true_iff in Hc. unfold Memory.set.
    cbn [snd data idCounter]. rewrite fmap_app. cbn [fmap list_fmap].
    rewrite (idOf_newRecord s d Hc). split.
    + apply Forall_app. split.
      * eapply Forall_impl; [exact Hids|]. cbn. intros v (n & -> & Hn).
        exists n. split; [done|]. lia.
      * constructor; [|done]. exists (idCounter s). split; [done|]. lia.
    + apply NoDup_app. split; [done|]. split; [|apply NoDup_singleton].
      intros v Hv ->%list_elem_of_singleton.
      rewrite Forall_forall in Hids. destruct (Hids _ Hv) as (n & [= <-] & Hn).
      lia.
  - apply negb_true_iff in Hc.
    pose proof (updateFrom_ids query d (data s) (clockReads s) Hc) as Hsame.
    unfold Memory.update.
    destruct (updateFrom query d (data s) (clockReads s)) as [[l' n] c'].
    cbn [fst snd data idCounter] in *. by rewrite Hsame.
  - unfold Memory.delete. cbn [snd data idCounter].
    assert (idOf <$> filter (λ record, negb (matches record query)) (data s)
            `sublist_of` idOf <$> data s) as Hsub.
    { apply fmap_sublist, sublist_filter. }
    split; [|by eapply sublist_NoDup].
    rewrite Forall_forall in Hids. apply Forall_forall. intros v Hv.
    apply Hids. by eapply elem_of_sublist.
  - split; constructor.
Qed.

(** X11. As long as no call hands the driver an [_id] of its own, every
    sequence of [connect], [disconnect], [set], [update], [delete] and
    [clear] keeps this: each stored record carries as [_id] a number
    below the counter, and no two records carry the same [_id]. *)
Theorem ids_stay_unique (cs : list Call) (s : MemoryDriver) :
  Numbered s → forallb leavesId cs = true → Numbered (performAll cs s).
Proof.
  revert s. induction cs as [|c cs IH]; intros s Hs; [done|].
  cbn [forallb]. intros [Hc Hcs]%andb_prop. unfold Memory.performAll.
  cbn [foldl]. apply IH; [|done]. by apply perform_numbered.
Qed.

Lemma find_app_none {A : Type} (f : A → bool) (l : list A) (x : A) :
  Forall (λ y, f y = false) l → f x = true →
  find f (l ++ [x]) = Some x ∧ filter (λ y, f y) (l ++ [x]) = [x].
Proof.
  intros Hl Hx. induction Hl as [|y l Hy Hl IH]; cbn [app find].
  - rewrite filter_cons_bool, Hx. done.
  - rewrite filter_cons_bool, Hy. done.
Qed.

(** X12. When the stored ids are unique and below the counter, a record
    stored by [set] from data without an [_id] gets the counter as its
    [_id]; querying by that [_id] right afterwards returns this record
    and no other; and the record carries the properties of the data and
    the reading of the clock as [_createdAt]. *)
Theorem set_then_lookup (d : Data) (s : MemoryDriver) :
  Numbered s → has_key d "_id" = false → NoDup d.*1 →
  idOf (set d s).1 = VNum (idCounter s)
  ∧ getOne [("_id", idOf (set d s).1)] (set d s).2 = Some (set d s).1
  ∧ get [("_id", idOf (set d s).1)] (set d s).2 = [(set d s).1]
  ∧ idCounter (set d s).2 = idCounter s + 1
  ∧ Js.get (set d s).1 "_createdAt" = VStr (toISOString (clockReads s))
  ∧ ∀ key, has_key d key = true → key ≠ "_createdAt" →
           Js.get (set d s).1 key = Js.get d key.
Proof.
  intros [Hids _] Habs Hnd. unfold Memory.set. cbn [fst snd].
  pose proof (idOf_newRecord s d Habs) as Hid. rewrite Hid.
  split; [done|].
  assert (Forall (λ record,
            matches record [("_id", VNum (idCounter s))] = false) (data s))
    as Hold.
  { eapply Forall_impl; [exact Hids|]. cbn beta.
    intros record (n & Hn & Hlt). rewrite matches_cons. cbn [isObject
      typeof_object andb]. rewrite (prop_own record "_id").
    - cbn [strictEquals]. fold (idOf record). rewrite Hn. cbn.
      rewrite andb_true_r. apply Z.eqb_neq. lia.
    - destruct (has_key record "_id") eqn:Hown; [done|].
      unfold idOf in Hn. by rewrite (has_key_false_get _ _ Hown) in Hn. }
  assert (matches (newRecord s d) [("_id", VNum (idCounter s))] = true)
    as Hnew.
  { rewrite matches_cons. cbn [isObject typeof_object andb].
    rewrite (prop_own (newRecord s d) "_id").
    - cbn [strictEquals]. fold (idOf (newRecord s d)). rewrite Hid. cbn.
      by rewrite Z.eqb_refl.
    - destruct (has_key (newRecord s d) "_id") eqn:Hown; [done|].
      unfold idOf in Hid. by rewrite (has_key_false_get _ _ Hown) in Hid. }
  destruct (find_app_none (λ record,
              matches record [("_id", VNum (idCounter s))])
              (data s) (newRecord s d) Hold Hnew) as [Hfind Hfilter].
  unfold Memory.getOne, Memory.get. cbn [data idCounter].
  split; [done|]. split; [done|]. split; [done|].
  unfold Memory.newRecord. split; [apply get_set_eq|].
  intros key Hkey Hne. rewrite get_set_ne by done.
  by apply get_spread_present.
Qed.

End Facts.

Lemma flat_query_is_equality_witness :
  matches Samples.objectMembers
    [("_id", VNum 1); ("username", VStr "ann")]
    [("username", VStr "ann"); ("nickname", VUndefined)]
  = true
  ↔ Forall (λ kv, if has_key [("_id", VNum 1); ("username", VStr "ann")] kv.1
                  then Js.get [("_id", VNum 1); ("username", VStr "ann")] kv.1
                       = kv.2
                  else Samples.objectMembers
                         (Plain (VObj [("_id", VNum 1);
                                       ("username", VStr "ann")])) kv.1
                       = Plain kv.2)
      [("username", VStr "ann"); ("nickname", VUndefined)].
Proof. apply flat_query_is_equality. reflexivity. Defined.

(** A key that names an inherited method is not [undefined] in any
    record, although no record has it as a property of its own. *)
Lemma inherited_method_is_defined :
  matches Samples.objectMembers [("username", VStr "ann")]
    [("toString", VUndefined)] = false
  ∧ matches Samples.objectMembers [("username", VStr "ann")]
      [("nickname", VUndefined)] = true.
Proof. split; reflexivity. Qed.

Lemma initial_numbered : Numbered initial.
Proof. split; constructor. Qed.

Lemma ids_stay_unique_witness :
  Numbered (performAll Samples.objectMembers Samples.isoClock
              Samples.sampleCalls initial).
Proof.
  apply ids_stay_unique; [exact initial_numbered|reflexivity].
Defined.

Lemma set_then_lookup_witness :
  getOne Samples.objectMembers [("_id", VNum 2)]
    (set Samples.isoClock Samples.otherUser
       (set Samples.isoClock Samples.newUser initial).2).2
  = Some [("_id", VNum 2); ("username", VStr "bob"); ("visits", VNum 3);
          ("_createdAt", VStr "2024-01-01T00:00:00.1Z")].
Proof.
  destruct (set_then_lookup Samples.objectMembers Samples.isoClock
              Samples.otherUser
              (set Samples.isoClock Samples.newUser initial).2)
    as (_ & H & _).
  - apply (perform_numbered Samples.objectMembers Samples.isoClock
             (DoSet Samples.newUser));
      [reflexivity|exact initial_numbered].
  - reflexivity.
  - by apply (bool_decide_unpack _).
  - exact H.
Defined.

End MemoryFacts.

(** ** More on the facade *)

Module FacadeMore.
Import Js Facade JsFacts FacadeFacts.

Lemma slice_take_drop {A : Type} (a n : Z) (xs : list A) :
  0 ≤ a → 0 ≤ n →
  slice a (a + n) xs = take (Z.to_nat n) (drop (Z.to_nat a) xs).
Proof.
  intros Ha Hn. unfold slice.
  destruct (a <? 0) eqn:E1; [lia|]. destruct (a + n <? 0) eqn:E2; [lia|].
  destruct (decide (Z.of_nat (length xs) ≤ a)) as [Hge|Hlt].
  - rewrite !Z.min_r by lia. rewrite Z.sub_diag. cbn [Z.to_nat take].
    rewrite (drop_ge xs (Z.to_nat a)) by lia. by rewrite take_nil.
  - rewrite (Z.min_l a) by lia.
    destruct (decide (a + n ≤ Z.of_nat (length xs))) as [Hin|Hout].
    + rewrite Z.min_l by lia. f_equal. lia.
    + rewrite Z.min_r by lia. rewrite !take_ge; [done| |];
        rewrite length_drop; lia.
Qed.

Lemma slice_before_start {A : Type} (n : Z) (xs : list A) :
  0 < n → slice (- n) 0 xs = [].
Proof.
  intros Hn. unfold slice. destruct (- n <? 0) eqn:E1; [|lia].
  cbn [Z.ltb Z.compare]. rewrite Z.min_l by lia.
  replace (Z.to_nat (0 - Z.max (Z.of_nat (length xs) + - n) 0)) with 0%nat
    by lia. done.
Qed.

Lemma chunks {A : Type} (c k : nat) (xs : list A) :
  mjoin ((λ i, take c (drop (i * c) xs)) <$> seq 0 k) = take (k * c) xs.
Proof.
  induction k as [|k IH]; [done|].
  rewrite seq_S, fmap_app, join_app, IH. cbn [fmap list_fmap mjoin list_join].
  rewrite app_nil_r, take_take_drop. f_equal. lia.
Qed.

Section Facts.
Context {DS : Type}.
Variable drv : IDriver DS.
Variable host : Host.

Lemma onDriver_eq {A} (self : nat) (c : DriverCall)
    (method : DS → Outcome A * DS) (w : World DS) (h : Hawiah) (ds : DS) :
  instances w !! self = Some h → backends w !! driver h = Some ds →
  onDriver self c method w
  = ((method ds).1,
     mkWorld (instances w) (<[driver h := (method ds).2]> (backends w))
       ((driver h, c) :: driverCalls w) (batchCalls w)).
Proof.
  intros Hi Hd. unfold onDriver. rewrite Hi, Hd. by destruct (method ds).
Qed.

Lemma validateData_throws (self : nat) (data : Data) (isPartial : bool)
    (w : World DS) (h : Hawiah) (definition : SchemaDefinition) (e : string) :
  instances w !! self = Some h → schema h = Some definition →
  drv_isSql drv = false →
  validate host definition data isPartial = Throw e →
  validateData drv host self data isPartial w = (Throw e, w).
Proof.
  intros Hi Hs Hsql Hv. unfold validateData.
  rewrite bind_eq, (this_ok _ _ _ Hi), Hs, Hsql. cbn. by rewrite Hv.
Qed.

(** X13. On an instance with a schema, [update] checks the data and,
    when the check fails, throws without reaching the driver; [updateById]
    hands the same data to the driver's [update] unchecked. *)
Theorem updateById_skips_validation (self : nat) (id : Value) (data : Data)
    (w : World DS) (h : Hawiah) (ds : DS) (definition : SchemaDefinition)
    (e : string) :
  instances w !! self = Some h → isConnected h = true →
  backends w !! driver h = Some ds →
  schema h = Some definition → drv_isSql drv = false →
  validate host definition data true = Throw e →
  update drv host self [("_id", id)] data w = (Throw e, w)
  ∧ updateById drv self id data w
    = (match (drv_update drv [("_id", id)] data ds).1 with
       | Ok n => Ok (0 <? n)
       | Throw e' => Throw e'
       end,
       mkWorld (instances w)
         (<[driver h := (drv_update drv [("_id", id)] data ds).2]>
            (backends w))
         ((driver h, CallUpdate [("_id", id)] data) :: driverCalls w)
         (batchCalls w)).
Proof.
  intros Hi Hc Hd Hs Hsql Hv. split.
  - unfold update.
    rewrite bind_eq, (ensureConnected_passes _ _ _ Hi Hc), bind_eq.
    by rewrite (validateData_throws _ _ _ _ _ _ _ Hi Hs Hsql Hv).
  - unfold updateById, driver_update.
    rewrite bind_eq, (ensureConnected_passes _ _ _ Hi Hc), bind_eq.
    rewrite (onDriver_eq _ _ _ _ _ _ Hi Hd).
    by destruct (drv_update drv [("_id", id)] data ds).1.
Qed.

Lemma forEach_app {A B} (xs ys : list A) (acc : B) (body : B → A → M DS B)
    (w : World DS) :
  forEach (xs ++ ys) acc body w
  = match forEach xs acc body w with
    | (Ok acc', w') => forEach ys acc' body w'
    | (Throw e, w') => (Throw e, w')
    end.
Proof.
  revert acc w. induction xs as [|x xs IH]; intros acc w; [done|].
  cbn [app forEach]. rewrite !bind_eq.
  destruct (body acc x w) as [[acc'|e] w1]; [apply IH|done].
Qed.

(** One turn of the loop of [insertMany]. *)
Lemma store_one (self : nat) (results : list Data) (data : Data)
    (w w' : World DS) (results' : list Data) :
  (let* validated := validateData drv host self data false in
   let* result := driver_set drv self validated in
   ret (results ++ [result])) w = (Ok results', w') →
  instances w' = instances w
  ∧ length results' = S (length results)
  ∧ length (driverCalls w') = S (length (driverCalls w)).
Proof.
  rewrite bind_eq.
  destruct (validateData drv host self data false w) as [[v|e] w1] eqn:Hv;
    [|done].
  assert (w1 = w) as ->.
  { revert Hv. unfold validateData, this, bind, ret, throw.
    destruct (instances w !! self) as [h|]; [|done].
    destruct (schema h) as [definition|]; [|congruence].
    destruct (negb (drv_isSql drv)); [|congruence].
    destruct (validate host definition data false); congruence. }
  rewrite bind_eq. unfold driver_set, onDriver.
  destruct (instances w !! self) as [h|]; [|done].
  destruct (backends w !! driver h) as [ds|]; [|done].
  destruct (drv_set drv v ds) as [[r|e] ds']; [|done].
  unfold ret. intros [= <- <-]. cbn. rewrite length_app. cbn.
  repeat split; lia.
Qed.

Lemma store_all (self : nat) (dataArray : list Data) (results : list Data)
    (w w' : World DS) (results' : list Data) :
  forEach dataArray results (λ results data,
    let* validated := validateData drv host self data false in
    let* result := driver_set drv self validated in
    ret (results ++ [result])) w = (Ok results', w') →
  instances w' = instances w
  ∧ length results' = (length results + length dataArray)%nat
  ∧ length (driverCalls w')
    = (length dataArray + length (driverCalls w))%nat.
Proof.
  revert results w. induction dataArray as [|data rest IH];
    intros results w.
  - cbn. unfold ret. intros [= <- <-]. repeat split; lia.
  - cbn [forEach]. rewrite bind_eq.
    destruct ((let* validated := validateData drv host self data false in
               let* result := driver_set drv self validated in
               ret (results ++ [result])) w) as [[results1|e] w1] eqn:H1;
      [|done].
    apply store_one in H1 as (Hi1 & Hr1 & Hc1). intros Hrest.
    apply IH in Hrest as (Hi2 & Hr2 & Hc2). cbn [length].
    split; [congruence|]. split; lia.
Qed.

(** X14. [insertMany] is not all-or-nothing: when a record fails the
    schema, the call throws its validation error, and the records before
    it have each been handed to the driver's [set] and stay stored; the
    records after it are not looked at. *)
Theorem insertMany_is_not_atomic (self : nat) (good rest : list Data)
    (bad : Data) (w w' : World DS) (h : Hawiah)
    (definition : SchemaDefinition) (stored : list Data) (e : string) :
  instances w !! self = Some h → isConnected h = true →
  schema h = Some definition → drv_isSql drv = false →
  insertMany drv host self good w = (Ok stored, w') →
  validate host definition bad false = Throw e →
  insertMany drv host self (good ++ bad :: rest) w = (Throw e, w')
  ∧ length stored = length good
  ∧ length (driverCalls w') = (length good + length (driverCalls w))%nat.
Proof.
  intros Hi Hc Hs Hsql. unfold insertMany.
  rewrite !bind_eq, (ensureConnected_passes _ _ _ Hi Hc).
  intros Hgood Hbad. rewrite forEach_app, Hgood.
  apply store_all in Hgood as (Hi' & Hlen & Hcalls).
  split; [|done]. cbn [forEach]. rewrite !bind_eq.
  assert (instances w' !! self = Some h) as Hi1 by (by rewrite Hi').
  by rewrite (validateData_throws _ _ _ _ _ _ _ Hi1 Hs Hsql Hbad).
Qed.

(** X15. [getWith] with a relation that has not been declared: the
    records are fetched first, and the error is thrown only when the
    query returned some; with no record the call returns the empty array
    and the missing declaration goes unnoticed. *)
Theorem undeclared_relation_fails_after_fetch (self : nat) (query : Query)
    (name : string) (others : list string) (w : World DS) (h : Hawiah)
    (ds : DS) (records : list Data) :
  instances w !! self = Some h → isConnected h = true →
  backends w !! driver h = Some ds →
  relations h !! name = None →
  (drv_get drv query ds).1 = Ok records →
  getWith drv self query (name :: others) w
  = (match records with
     | [] => Ok []
     | _ => Throw (relationNotDefined name)
     end,
     mkWorld (instances w)
       (<[driver h := (drv_get drv query ds).2]> (backends w))
       ((driver h, CallGet query) :: driverCalls w) (batchCalls w)).
Proof.
  intros Hi Hc Hd Hrel Hget. unfold getWith, driver_get.
  rewrite bind_eq, (ensureConnected_passes _ _ _ Hi Hc), bind_eq.
  rewrite (onDriver_eq _ _ _ _ _ _ Hi Hd), Hget.
  destruct records as [|record records]; [done|].
  cbn [forEach]. rewrite bind_eq. unfold loadRelation.
  rewrite bind_eq, (this_ok _ _ h) by done. by rewrite Hrel.
Qed.

(** X16. [get] with a limit returns the first [limit] records of what
    the driver returns when the limit is positive, and all of them when
    it is zero, negative or absent. *)
Theorem get_limit (self : nat) (query : Query) (limit : option Z)
    (w : World DS) (h : Hawiah) (ds : DS) (results : list Data) :
  instances w !! self = Some h → isConnected h = true →
  backends w !! driver h = Some ds →
  (drv_get drv query ds).1 = Ok results →
  (get_ drv self query limit w).1
  = Ok (match limit with
        | Some n => if 0 <? n then take (Z.to_nat n) results else results
        | None => results
        end).
Proof.
  intros Hi Hc Hd Hget. unfold get_, driver_get.
  rewrite bind_eq, (ensureConnected_passes _ _ _ Hi Hc), bind_eq.
  rewrite (onDriver_eq _ _ _ _ _ _ Hi Hd), Hget.
  destruct limit as [n|]; [|done].
  destruct (Z.ltb_spec 0 n) as [Hpos|Hle].
  - destruct (Z.eqb_spec n 0) as [->|_]; [lia|]. cbn [negb andb].
    unfold ret. cbn [fst]. f_equal.
    exact (slice_take_drop 0 n results (Z.le_refl 0) (Z.lt_le_incl _ _ Hpos)).
  - by rewrite andb_false_r.
Qed.

Lemma paginate_eq (self : nat) (query : Query) (page pageSize : Z)
    (w : World DS) (h : Hawiah) (ds : DS) (results : list Data) :
  instances w !! self = Some h → isConnected h = true →
  backends w !! driver h = Some ds →
  (drv_get drv query ds).1 = Ok results →
  (paginate drv self query page pageSize w).1
  = Ok (mkPage
          (slice ((page - 1) * pageSize) ((page - 1) * pageSize + pageSize)
             results)
          page pageSize (Z.of_nat (length results))
          (if pageSize =? 0 then None
           else Some (- ((- Z.of_nat (length results)) `div` pageSize)))).
Proof.
  intros Hi Hc Hd Hget. unfold paginate, driver_get.
  rewrite bind_eq, (ensureConnected_passes _ _ _ Hi Hc), bind_eq.
  by rewrite (onDriver_eq _ _ _ _ _ _ Hi Hd), Hget.
Qed.

(** X17. [paginate] with a positive page size: the number of pages is
    the least one that holds all records; page [p >= 1] holds the
    [pageSize] records after the first [(p - 1) * pageSize]; page 0 and
    every page after the last are empty; and pages 1 to the last, put
    end to end, are the records the driver returned, in its order. *)
Theorem paginate_partitions (self : nat) (query : Query) (pageSize : Z)
    (w : World DS) (h : Hawiah) (ds : DS) (results : list Data) :
  instances w !! self = Some h → isConnected h = true →
  backends w !! driver h = Some ds →
  (drv_get drv query ds).1 = Ok results →
  0 < pageSize →
  let dataOf page :=
    match (paginate drv self query page pageSize w).1 with
    | Ok p => page_data p
    | Throw _ => []
    end in
  let total := Z.of_nat (length results) in
  let pages := - ((- total) `div` pageSize) in
  (∀ page, ∃ p, (paginate drv self query page pageSize w).1 = Ok p
                ∧ page_total p = total ∧ page_totalPages p = Some pages)
  ∧ (pages - 1) * pageSize < total ≤ pages * pageSize
  ∧ (∀ page, 1 ≤ page →
       dataOf page = take (Z.to_nat pageSize)
                       (drop (Z.to_nat ((page - 1) * pageSize)) results))
  ∧ dataOf 0 = []
  ∧ (∀ page, pages < page → dataOf page = [])
  ∧ mjoin (dataOf <$> (Z.of_nat <$> seq 1 (Z.to_nat pages))) = results.
Proof.
  intros Hi Hc Hd Hget Hps dataOf total pages.
  assert (∀ page, dataOf page
            = slice ((page - 1) * pageSize) ((page - 1) * pageSize + pageSize)
                results) as Hdata.
  { intros page. unfold dataOf.
    by rewrite (paginate_eq self query page pageSize w h ds results). }
  assert (∀ page, 1 ≤ page →
            dataOf page = take (Z.to_nat pageSize)
                            (drop (Z.to_nat ((page - 1) * pageSize)) results))
    as Hpage.
  { intros page Hp. rewrite Hdata. apply slice_take_drop; nia. }
  assert ((pages - 1) * pageSize < total ≤ pages * pageSize) as Hbound.
  { unfold pages.
    pose proof (Z.div_mod (- total) pageSize ltac:(lia)) as Hdm.
    pose proof (Z.mod_pos_bound (- total) pageSize Hps) as Hmod. nia. }
  split.
  { intros page. eexists. split.
    - by apply (paginate_eq self query page pageSize w h ds results).
    - cbn [page_total page_totalPages]. split; [done|].
      destruct (Z.eqb_spec pageSize 0); [lia|done]. }
  split; [done|]. split; [done|]. split.
  { rewrite Hdata. replace ((0 - 1) * pageSize) with (- pageSize) by lia.
    replace (- pageSize + pageSize) with 0 by lia.
    by apply slice_before_start. }
  split.
  { intros page Hp. rewrite Hpage by (unfold total in *; nia).
    rewrite drop_ge; [by rewrite take_nil|]. unfold total in *. nia. }
  assert (0 ≤ pages) as Hpages by (unfold total in *; nia).
  rewrite <- list_fmap_compose.
  rewrite <- (fmap_S_seq 0), <- list_fmap_compose.
  rewrite (list_fmap_ext _
             (λ i, take (Z.to_nat pageSize)
                     (drop (i * Z.to_nat pageSize) results))).
  - rewrite chunks. apply take_ge. unfold total in *. nia.
  - intros i k _. cbn. rewrite Hpage by lia. do 2 f_equal. nia.
Qed.

(** What [relation] and [clearCache] change: one instance, and of it one
    map. *)
Lemma relation_effect (self : nat) (name : string) (target' : nat)
    (localKey' foreignKey' : string) (type' : RelationType)
    (w : World DS) (h : Hawiah) :
  instances w !! self = Some h →
  let w1 := (relation self name target' localKey' foreignKey' type' w).2 in
  instances w1 !! self
  = Some (mkHawiah (driver h) (isConnected h)
            (<[name := mkRelation target' localKey' foreignKey' type']>
               (relations h))
            (loaders h) (schema h))
  ∧ backends w1 = backends w ∧ driverCalls w1 = driverCalls w
  ∧ batchCalls w1 = batchCalls w
  ∧ ∀ t ht, instances w !! t = Some ht →
      ∃ ht1, instances w1 !! t = Some ht1 ∧ driver ht1 = driver ht
             ∧ isConnected ht1 = isConnected ht.
Proof.
  intros Hi. cbn. rewrite list_lookup_alter_eq, Hi. repeat split.
  intros t ht Ht. destruct (decide (t = self)) as [->|Hne].
  - rewrite list_lookup_alter_eq, Hi. eexists. split; [done|].
    rewrite Hi in Ht. by injection Ht as <-.
  - rewrite list_lookup_alter_ne by done. by exists ht.
Qed.

Lemma clearCache_effect (self : nat) (w : World DS) (h : Hawiah) :
  instances w !! self = Some h →
  let w1 := (clearCache self w).2 in
  instances w1 !! self
  = Some (mkHawiah (driver h) (isConnected h) (relations h) ∅ (schema h))
  ∧ backends w1 = backends w ∧ driverCalls w1 = driverCalls w
  ∧ batchCalls w1 = batchCalls w
  ∧ ∀ t ht, instances w !! t = Some ht →
      ∃ ht1, instances w1 !! t = Some ht1 ∧ driver ht1 = driver ht
             ∧ isConnected ht1 = isConnected ht.
Proof.
  intros Hi. cbn. rewrite list_lookup_alter_eq, Hi. repeat split.
  intros t ht Ht. destruct (decide (t = self)) as [->|Hne].
  - rewrite list_lookup_alter_eq, Hi. eexists. split; [done|].
    rewrite Hi in Ht. by injection Ht as <-.
  - rewrite list_lookup_alter_ne by done. by exists ht.
Qed.

(** X18. Declaring a relation again under a name that already has a
    loader does not replace the loader.  The next [loadRelation] reads
    the keys under the new local key, but keys the old loader has
    resolved are answered from its cache with no fetch at all, and any
    other key is fetched from the target of the old declaration.  Only
    after [clearCache] does the fetch go to the newly declared target. *)
Theorem redeclared_relation_keeps_loader (self : nat) (name : string)
    (target' : nat) (localKey' foreignKey' : string) (type' : RelationType)
    (records : list Data) (w : World DS) (h : Hawiah) (old : DataLoader) :
  instances w !! self = Some h →
  loaders h !! name = Some old →
  let w1 := (relation self name target' localKey' foreignKey' type' w).2 in
  let keys := lookupKeys localKey' records in
  let stale := loadRelation drv self records name w1 in
  let fresh := loadRelation drv self records name (clearCache self w1).2 in
  (enqueue (cacheMap old).*1 keys = [] →
   batchCalls stale.2 = batchCalls w ∧ driverCalls stale.2 = driverCalls w
   ∧ backends stale.2 = backends w)
  ∧ (enqueue (cacheMap old).*1 keys ≠ [] →
     ∀ ht ds, instances w !! batchTarget old = Some ht →
              isConnected ht = true → backends w !! driver ht = Some ds →
              driverCalls stale.2 = (driver ht, CallGet []) :: driverCalls w)
  ∧ (keys ≠ [] →
     ∀ ht ds, instances w !! target' = Some ht →
              isConnected ht = true → backends w !! driver ht = Some ds →
              driverCalls fresh.2 = (driver ht, CallGet []) :: driverCalls w).
Proof.
  intros Hi Hold w1 keys stale fresh. subst keys stale fresh.
  destruct (relation_effect self name target' localKey' foreignKey' type'
              w h Hi) as (Hi1 & Hb1 & Hc1 & Hl1 & Hframe1).
  fold w1 in Hi1, Hb1, Hc1, Hl1, Hframe1.
  set (rel := mkRelation target' localKey' foreignKey' type') in *.
  set (h1 := mkHawiah (driver h) (isConnected h) (<[name := rel]> (relations h))
               (loaders h) (schema h)) in *.
  assert (relations h1 !! name = Some rel) as Hrel1.
  { cbn. by rewrite lookup_insert_eq. }
  assert (cachedKeys h1 name = (cacheMap old).*1) as Hck.
  { unfold cachedKeys. cbn. by rewrite Hold. }
  assert (loaderOf h1 name rel = old) as Hlo.
  { unfold loaderOf. cbn. by rewrite Hold. }
  pose proof (loadRelation_effect drv self records name w1 h1 rel Hi1 Hrel1)
    as H.
  cbv zeta in H. rewrite Hck, Hlo in H. cbn [localKey rel] in H.
  destruct H as (_ & _ & _ & _ & Hnil & Hfetch).
  split.
  { intros E. destruct (Hnil E) as (-> & -> & ->). by rewrite Hb1, Hc1, Hl1. }
  split.
  { intros E ht ds Ht Hconn Hd.
    destruct (Hfetch E) as (_ & _ & Hcall).
    destruct (Hframe1 _ _ Ht) as (ht1 & Ht1 & Hd1 & Hconn1).
    destruct (Hcall ht1 ds Ht1) as [-> _]; [congruence| |].
    - by rewrite Hd1, Hb1.
    - by rewrite Hd1, Hc1. }
  intros Hkeys ht ds Ht Hconn Hd.
  destruct (clearCache_effect self w1 h1 Hi1) as (Hi2 & Hb2 & Hc2 & Hl2 & Hframe2).
  set (w2 := (clearCache self w1).2) in *.
  set (h2 := mkHawiah (driver h1) (isConnected h1) (relations h1) ∅
               (schema h1)) in *.
  pose proof (loadRelation_effect drv self records name w2 h2 rel Hi2 Hrel1)
    as H.
  cbv zeta in H. cbn [localKey rel] in H.
  destruct H as (_ & _ & _ & _ & _ & Hfetch2).
  assert (enqueue (cachedKeys h2 name) (lookupKeys localKey' records) ≠ [])
    as Hbatch.
  { intros E. apply enqueue_nil in E. apply Hkeys.
    destruct (lookupKeys localKey' records) as [|k ks]; [done|].
    specialize (E k ltac:(by left)). unfold cachedKeys in E. cbn in E.
    rewrite lookup_empty in E. by apply elem_of_nil in E. }
  destruct (Hfetch2 Hbatch) as (_ & _ & Hcall).
  destruct (Hframe1 _ _ Ht) as (ht1 & Ht1 & Hd1 & Hconn1).
  destruct (Hframe2 _ _ Ht1) as (ht2 & Ht2 & Hd2 & Hconn2).
  assert (batchTarget (loaderOf h2 name rel) = target') as Htarget.
  { unfold loaderOf. cbn. by rewrite lookup_empty. }
  rewrite Htarget in Hcall.
  destruct (Hcall ht2 ds Ht2) as [Hres _]; [congruence| |].
  - by rewrite Hd2, Hd1, Hb2, Hb1.
  - by rewrite Hres, Hd2, Hd1, Hc2, Hc1.
Qed.

Lemma validateData_without_schema (self : nat) (data : Data)
    (isPartial : bool) (w : World DS) (h : Hawiah) :
  instances w !! self = Some h → schema h = None →
  validateData drv host self data isPartial w = (Ok data, w).
Proof.
  intros Hi Hs. unfold validateData.
  by rewrite bind_eq, (this_ok _ _ _ Hi), Hs.
Qed.

End Facts.

(** *** The facade over the in-memory backend *)

Section OnMemory.
Variable inherited : Memory.Read → string → Memory.Read.
Variable toISOString : nat → string.
Variable host : Host.

Local Abbreviation drv := (Memory.memoryDriver inherited toISOString).

Lemma memory_getOne (query : Query) (ds : Memory.MemoryDriver) :
  drv_getOne drv query ds = (Ok (Memory.getOne inherited query ds), ds).
Proof. reflexivity. Qed.

Lemma memory_get (query : Query) (ds : Memory.MemoryDriver) :
  drv_get drv query ds = (Ok (Memory.get inherited query ds), ds).
Proof. reflexivity. Qed.

Lemma memory_set (data : Data) (ds : Memory.MemoryDriver) :
  drv_set drv data ds
  = (Ok (Memory.set toISOString data ds).1,
     (Memory.set toISOString data ds).2).
Proof. reflexivity. Qed.

Lemma memory_update (query : Query) (data : Data) (ds : Memory.MemoryDriver) :
  drv_update drv query data ds
  = (Ok (Memory.update inherited toISOString query data ds).1,
     (Memory.update inherited toISOString query data ds).2).
Proof.
  unfold Memory.memoryDriver, Memory.update. cbn [drv_update].
  by destruct (Memory.updateFrom inherited toISOString query data
                 (Memory.data ds) (Memory.clockReads ds)) as [[l n] c].
Qed.

Lemma memory_get_all (ds : Memory.MemoryDriver) :
  Memory.get inherited [] ds = Memory.data ds.
Proof.
  unfold Memory.get. induction (Memory.data ds) as [|record l IH]; [done|].
  by rewrite MemoryFacts.filter_cons_bool, IH.
Qed.

(** X19. [increment] over the in-memory backend, on an instance without
    a schema.  When no record matches it throws and only [getOne] has
    been called.  Otherwise it reads the field of the first match and,
    when that number, the amount and their sum are safe integers, adds
    the amount and writes the sum to every record that matches the
    query, whatever the record held before; a record that does not match
    is untouched.  When the field is [_updatedAt] the driver's timestamp
    is what the matching records hold afterwards. *)
Theorem increment_writes_every_match (self : nat) (query : Query)
    (field : string) (amount : Z) (w : World Memory.MemoryDriver)
    (h : Hawiah) (ds : Memory.MemoryDriver) :
  instances w !! self = Some h → isConnected h = true →
  schema h = None → backends w !! driver h = Some ds →
  match Memory.getOne inherited query ds with
  | None =>
      increment drv host self query field amount w
      = (Throw RECORD_NOT_FOUND,
         mkWorld (instances w) (backends w)
           ((driver h, CallGetOne query) :: driverCalls w) (batchCalls w))
  | Some first =>
      let currentValue := Number_or_0 host (get first field) in
      let newValue := currentValue + amount in
      Kinds.safeInteger currentValue = true →
      Kinds.safeInteger amount = true →
      Kinds.safeInteger newValue = true →
      ∃ w' ds',
        increment drv host self query field amount w = (Ok newValue, w')
        ∧ backends w' !! driver h = Some ds'
        ∧ driverCalls w'
          = (driver h, CallUpdate query [(field, VNum newValue)])
              :: (driver h, CallGetOne query) :: driverCalls w
        ∧ ∀ i record, Memory.data ds !! i = Some record →
            if Memory.matches inherited record query
            then ∃ record' clock,
                   Memory.data ds' !! i = Some record'
                   ∧ get record' field
                     = (if String.eqb field "_updatedAt"
                        then VStr (toISOString clock)
                        else VNum newValue)
            else Memory.data ds' !! i = Some record
  end.
Proof.
  intros Hi Hc Hs Hd.
  assert (<[driver h := ds]> (backends w) = backends w) as Hsame.
  { by apply list_insert_id. }
  unfold increment, driver_getOne.
  rewrite bind_eq, (ensureConnected_passes _ _ _ Hi Hc), bind_eq.
  rewrite (onDriver_eq _ _ _ _ _ _ Hi Hd), memory_getOne.
  cbn [fst snd].
  rewrite Hsame.
  destruct (Memory.getOne inherited query ds) as [first|]; [|done].
  cbv zeta. set (newValue := Number_or_0 host (get first field) + amount).
  intros _ _ _.
  set (w1 := mkWorld (instances w) (backends w)
               ((driver h, CallGetOne query) :: driverCalls w) (batchCalls w)).
  assert (instances w1 !! self = Some h) as Hi1 by done.
  assert (backends w1 !! driver h = Some ds) as Hd1 by done.
  set (ds' := (Memory.update inherited toISOString query
                 [(field, VNum newValue)] ds).2).
  exists (mkWorld (instances w) (<[driver h := ds']> (backends w))
            ((driver h, CallUpdate query [(field, VNum newValue)])
               :: (driver h, CallGetOne query) :: driverCalls w)
            (batchCalls w)), ds'.
  split.
  { rewrite bind_eq. unfold update, driver_update.
    rewrite bind_eq, (ensureConnected_passes _ _ _ Hi1 Hc), bind_eq.
    rewrite (validateData_without_schema _ _ _ _ _ _ _ Hi1 Hs).
    by rewrite (onDriver_eq _ _ _ _ _ _ Hi1 Hd1), memory_update. }
  cbn [backends driverCalls]. split.
  { apply list_lookup_insert_eq. by eapply lookup_lt_Some. }
  split; [done|].
  pose proof (MemoryFacts.updateFrom_effect inherited toISOString query
                [(field, VNum newValue)] (Memory.data ds)
                (Memory.clockReads ds)) as (_ & _ & _ & Heach).
  unfold ds', Memory.update.
  destruct (Memory.updateFrom inherited toISOString query
              [(field, VNum newValue)]
              (Memory.data ds) (Memory.clockReads ds)) as [[l' n] c'].
  cbn [fst snd Memory.data] in *.
  intros i record Hrec. specialize (Heach i record Hrec).
  destruct (Memory.matches inherited record query); [|done].
  destruct Heach as (c & Hc' & _). exists (Memory.patched toISOString record
    [(field, VNum newValue)] c), c. split; [done|].
  unfold Memory.patched. destruct (String.eqb_spec field "_updatedAt") as [->|Hne].
  - apply ObjectFacts.get_set_eq.
  - rewrite ObjectFacts.get_set_ne by done. apply ObjectFacts.get_set_eq.
Qed.

(** What [insert] hands to the driver: the data as validated by the
    schema of the instance, the data itself when it has none. *)
Lemma validateData_outcome (self : nat) (data : Data) (isPartial : bool)
    (w : World Memory.MemoryDriver) (h : Hawiah) :
  instances w !! self = Some h →
  validateData drv host self data isPartial w
  = (match schema h with
     | Some definition => validate host definition data isPartial
     | None => Ok data
     end, w).
Proof.
  intros Hi. unfold validateData. rewrite bind_eq, (this_ok _ _ _ Hi).
  destruct (schema h) as [definition|]; [|done]. cbn.
  by destruct (validate host definition data isPartial).
Qed.

(** X20. Two connected instances over in-memory handles.  When the data
    passes the schema of the first (or it has none), [insert] on the
    first stores the validated data as a new record, and that record is
    the last one that [getAll] on the second returns when both hold the
    same handle, while the second sees what it saw before when it holds
    a handle of its own.  When the data fails the schema, [insert]
    throws the validation error and nothing changes. *)
Theorem insert_is_seen_through_shared_handle (i j : nat) (data : Data)
    (w : World Memory.MemoryDriver) (hi hj : Hawiah)
    (ds dsj : Memory.MemoryDriver) :
  instances w !! i = Some hi → isConnected hi = true →
  backends w !! driver hi = Some ds →
  instances w !! j = Some hj → isConnected hj = true →
  backends w !! driver hj = Some dsj →
  match (match schema hi with
         | Some definition => validate host definition data false
         | None => Ok data
         end) with
  | Ok validated =>
      ∃ w1,
        insert drv host i data w
        = (Ok (Memory.newRecord toISOString ds validated), w1)
        ∧ (getAll drv j w1).1
          = Ok (if decide (driver hj = driver hi)
                then Memory.data ds
                       ++ [Memory.newRecord toISOString ds validated]
                else Memory.data dsj)
  | Throw e => insert drv host i data w = (Throw e, w)
  end.
Proof.
  intros Hi Hci Hd Hj Hcj Hdj. unfold insert, driver_set.
  rewrite bind_eq, (ensureConnected_passes _ _ _ Hi Hci), bind_eq.
  rewrite (validateData_outcome _ _ _ _ _ Hi).
  destruct (match schema hi with
            | Some definition => validate host definition data false
            | None => Ok data
            end) as [validated|e]; [|done].
  rewrite (onDriver_eq _ _ _ _ _ _ Hi Hd), memory_set.
  cbn [fst snd].
  set (w1 := mkWorld (instances w)
               (<[driver hi := (Memory.set toISOString validated ds).2]>
                  (backends w))
               ((driver hi, CallSet validated) :: driverCalls w)
               (batchCalls w)).
  exists w1. split; [done|].
  assert (instances w1 !! j = Some hj) as Hj1 by done.
  unfold getAll, driver_get.
  rewrite bind_eq, (ensureConnected_passes _ _ _ Hj1 Hcj).
  destruct (decide (driver hj = driver hi)) as [E|Hne].
  - assert (backends w1 !! driver hj
            = Some (Memory.mkMemory
                      (Memory.data ds
                         ++ [Memory.newRecord toISOString ds validated])
                      (Memory.idCounter ds + 1) (S (Memory.clockReads ds))))
      as Hb.
    { unfold w1. cbn [backends]. rewrite E.
      apply list_lookup_insert_eq. by eapply lookup_lt_Some. }
    rewrite (onDriver_eq _ _ _ _ _ _ Hj1 Hb), memory_get.
    cbn [fst]. by rewrite memory_get_all.
  - assert (backends w1 !! driver hj = Some dsj) as Hb.
    { unfold w1. cbn [backends]. by rewrite list_lookup_insert_ne. }
    rewrite (onDriver_eq _ _ _ _ _ _ Hj1 Hb), memory_get.
    cbn [fst]. by rewrite memory_get_all.
Qed.

End OnMemory.

Lemma updateById_skips_validation_witness :
  update listDriver plainHost 0 [("_id", VNum 1)] [("username", VNum 5)]
    Samples.guarded
  = (Throw (typeMessage "username" "string"), Samples.guarded)
  ∧ (updateById listDriver 0 (VNum 1) [("username", VNum 5)]
       Samples.guarded).1 = Ok false.
Proof.
  destruct (updateById_skips_validation listDriver plainHost 0 (VNum 1)
              [("username", VNum 5)] Samples.guarded
              (mkHawiah 0 true ∅ ∅ (Some Samples.userSchema)) []
              Samples.userSchema (typeMessage "username" "string")
              eq_refl eq_refl eq_refl eq_refl eq_refl eq_refl) as [H1 H2].
  split; [exact H1|]. by rewrite H2.
Defined.

Lemma insertMany_is_not_atomic_witness :
  ∃ w', insertMany listDriver plainHost 0
          [Samples.newUser; [("visits", VNum 1)]; Samples.otherUser]
          Samples.guarded
        = (Throw (requiredMessage "username"), w')
        ∧ length (driverCalls w') = 1%nat.
Proof.
  destruct (insertMany listDriver plainHost 0 [Samples.newUser]
              Samples.guarded) as [[stored|e] w'] eqn:Hgood;
    [|by vm_compute in Hgood].
  exists w'.
  destruct (insertMany_is_not_atomic listDriver plainHost 0
              [Samples.newUser] [Samples.otherUser] [("visits", VNum 1)]
              Samples.guarded w'
              (mkHawiah 0 true ∅ ∅ (Some Samples.userSchema))
              Samples.userSchema stored (requiredMessage "username")
              eq_refl eq_refl eq_refl eq_refl Hgood eq_refl)
    as (H1 & _ & H2).
  split; [exact H1|exact H2].
Defined.

Lemma undeclared_relation_fails_after_fetch_witness :
  (getWith listDriver 0 [] ["comments"] (blog true true)).1
  = Throw (relationNotDefined "comments").
Proof.
  by rewrite (undeclared_relation_fails_after_fetch listDriver 0 []
                "comments" [] (blog true true)
                (mkHawiah 0 true {[ "author" := authorRelation ]} ∅ None)
                [post10; post11; post12; draft]
                [post10; post11; post12; draft]
                eq_refl eq_refl eq_refl eq_refl eq_refl).
Defined.

Lemma get_limit_witness :
  (get_ listDriver 0 [] (Some 2) (blog true true)).1 = Ok [post10; post11].
Proof.
  exact (get_limit listDriver 0 [] (Some 2) (blog true true)
           (mkHawiah 0 true {[ "author" := authorRelation ]} ∅ None)
           [post10; post11; post12; draft] [post10; post11; post12; draft]
           eq_refl eq_refl eq_refl eq_refl).
Defined.

Lemma paginate_partitions_witness :
  mjoin ((λ page,
            match (paginate listDriver 0 [] page 3 (blog true true)).1 with
            | Ok p => page_data p
            | Throw _ => []
            end) <$> [1; 2])
  = [post10; post11; post12; draft].
Proof.
  destruct (paginate_partitions listDriver 0 [] 3 (blog true true)
              (mkHawiah 0 true {[ "author" := authorRelation ]} ∅ None)
              [post10; post11; post12; draft] [post10; post11; post12; draft]
              eq_refl eq_refl eq_refl eq_refl eq_refl)
    as (_ & _ & _ & _ & _ & H).
  exact H.
Defined.

Lemma redeclared_relation_keeps_loader_witness :
  driverCalls
    (loadRelation listDriver 0 [post10] "author"
       (relation 0 "author" 0 "authorId" "id" one Samples.blogLoaded).2).2
  = [].
Proof.
  destruct (redeclared_relation_keeps_loader listDriver 0 "author" 0
              "authorId" "id" one [post10] Samples.blogLoaded
              (mkHawiah 0 true {[ "author" := authorRelation ]}
                 {[ "author" := mkLoader 1 "id" one [(VNum 1, VObj ann)] ]}
                 None)
              (mkLoader 1 "id" one [(VNum 1, VObj ann)])
              eq_refl eq_refl) as (H & _ & _).
  destruct (H eq_refl) as (_ & H2 & _). exact H2.
Defined.

Lemma increment_writes_every_match_witness :
  ∃ w' ds' record',
    increment (Memory.memoryDriver Samples.objectMembers Samples.isoClock)
      Samples.numberHost 0 [] "visits" 10 Samples.twoOnOneHandle
    = (Ok 10, w')
    ∧ backends w' !! 0%nat = Some ds'
    ∧ Memory.data ds' !! 1%nat = Some record'
    ∧ get record' "visits" = VNum 10.
Proof.
  pose proof (increment_writes_every_match Samples.objectMembers
                Samples.isoClock Samples.numberHost 0 [] "visits" 10
                Samples.twoOnOneHandle
                (mkHawiah 0 true ∅ ∅ None) Samples.twoUsers
                eq_refl eq_refl eq_refl eq_refl) as H.
  destruct (Memory.getOne Samples.objectMembers [] Samples.twoUsers)
    as [first|] eqn:Hone; [|by vm_compute in Hone].
  vm_compute in Hone. injection Hone as <-. cbv zeta in H.
  destruct (H eq_refl eq_refl eq_refl) as (w' & ds' & H1 & H2 & _ & H4).
  destruct (Memory.data Samples.twoUsers !! 1%nat) as [record|] eqn:Hrec;
    [|by vm_compute in Hrec].
  specialize (H4 1%nat record Hrec).
  change (Memory.matches Samples.objectMembers record []) with true in H4.
  destruct H4 as (record' & clock & H5 & H6).
  exists w', ds', record'. split; [exact H1|]. split; [exact H2|].
  split; [exact H5|exact H6].
Defined.

Lemma insert_is_seen_through_shared_handle_witness :
  ∃ record w1 rows,
    insert (Memory.memoryDriver Samples.objectMembers Samples.isoClock)
      plainHost 0 [("username", VStr "cy")] Samples.twoOnOneHandle
    = (Ok record, w1)
    ∧ (getAll (Memory.memoryDriver Samples.objectMembers Samples.isoClock)
         1 w1).1 = Ok rows
    ∧ list.last rows = Some record.
Proof.
  destruct (insert_is_seen_through_shared_handle Samples.objectMembers
              Samples.isoClock plainHost
              0 1 [("username", VStr "cy")] Samples.twoOnOneHandle
              (mkHawiah 0 true ∅ ∅ None) (mkHawiah 0 true ∅ ∅ None)
              Samples.twoUsers Samples.twoUsers
              eq_refl eq_refl eq_refl eq_refl eq_refl eq_refl)
    as (w1 & H1 & H2).
  eexists _, w1, _. split; [exact H1|]. split; [exact H2|].
  reflexivity.
Defined.

End FacadeMore.
